(** * s3-version-restore: point-in-time recovery of a versioned bucket

    A shallow embedding of [s3/client.go] (the version-listing iterator and
    the two mutating gateway calls) and of the loop of [main.go] (the restore
    decision), followed by the properties of the specification. *)

From Stdlib Require Import ZArith Lia Permutation Sorted.
From stdpp Require Import gmap strings list fin_maps sorting.

Local Open Scope Z_scope.

(** ** The Go standard library: [slices.SortFunc] and [slices.Sort]

    Both are the pattern-defeating quicksort of the Go standard library
    (package [slices], file [zsortanyfunc.go]; [zsortordered.go] is the same
    text with [cmp(x, y) < 0] replaced by [x < y]).  A slice is a list that
    is read and written by index; Go's [int] indices are naturals here (every
    index the algorithm computes is within the slice, and the lengths at hand
    are far from the 64-bit limit). *)

Module slices.
Section Pdqsort.
Context {E : Type}.
Variable cmp : E -> E -> Z.

(** [cmp(data[i], data[j]) < 0] *)
Definition lessAt (data : list E) (i j : nat) : bool :=
  match data !! i, data !! j with
  | Some x, Some y => cmp x y <? 0
  | _, _ => false
  end.

(** [data[i], data[j] = data[j], data[i]] *)
Definition swap (data : list E) (i j : nat) : list E :=
  match data !! i, data !! j with
  | Some x, Some y => <[j:=x]> (<[i:=y]> data)
  | _, _ => data
  end.

(** [for j := i; j > a && less(data[j], data[j-1]); j-- { swap(j, j-1) }] *)
Fixpoint insertionInner (data : list E) (a j : nat) : list E :=
  match j with
  | O => data
  | S j' =>
      if (a <? j)%nat && lessAt data j j'
      then insertionInner (swap data j j') a j'
      else data
  end.

(** [for i := a + 1; i < b; i++ { ... }], with [n] iterations left. *)
Fixpoint insertionOuter (n : nat) (data : list E) (a i : nat) : list E :=
  match n with
  | O => data
  | S n' => insertionOuter n' (insertionInner data a i) a (S i)
  end.

Definition insertionSortCmpFunc (data : list E) (a b : nat) : list E :=
  insertionOuter (b - (a + 1)) data a (a + 1).

(** [siftDownCmpFunc]: the loop moves [root] strictly down the heap, so
    [hi] iterations are more than it can take. *)
Fixpoint siftDownLoop (fuel : nat) (data : list E) (root hi first : nat)
  : list E :=
  match fuel with
  | O => data
  | S fuel' =>
      let child := (2 * root + 1)%nat in
      if (hi <=? child)%nat then data
      else
        let child :=
          if (child + 1 <? hi)%nat
             && lessAt data (first + child) (first + child + 1)
          then (child + 1)%nat else child in
        if negb (lessAt data (first + root) (first + child)) then data
        else siftDownLoop fuel' (swap data (first + root) (first + child))
                          child hi first
  end.

Definition siftDownCmpFunc (data : list E) (lo hi first : nat) : list E :=
  siftDownLoop hi data lo hi first.

(** [for i := (hi - 1) / 2; i >= 0; i-- { siftDown(data, i, hi, first) }] *)
Fixpoint heapBuild (data : list E) (i hi first : nat) : list E :=
  let data := siftDownCmpFunc data i hi first in
  match i with
  | O => data
  | S i' => heapBuild data i' hi first
  end.

(** [for i := hi - 1; i >= 0; i-- { swap(first, first+i); siftDown(data, lo, i, first) }],
    entered with [n = i + 1]. *)
Fixpoint heapPop (n : nat) (data : list E) (first : nat) : list E :=
  match n with
  | O => data
  | S i =>
      heapPop i (siftDownCmpFunc (swap data first (first + i)) 0 i first)
              first
  end.

Definition heapSortCmpFunc (data : list E) (a b : nat) : list E :=
  let first := a in
  let hi := (b - a)%nat in
  heapPop hi (heapBuild data ((hi - 1) / 2) hi first) first.

(** The two scanning loops shared by the partitions: [n] bounds the
    number of steps ([j + 1 - i] is enough). *)
Fixpoint scanUp (n : nat) (stop : nat -> bool) (i j : nat) : nat :=
  match n with
  | O => i
  | S n' => if (i <=? j)%nat && stop i then scanUp n' stop (S i) j else i
  end.

(** The downward scan [for i <= j && stop(j) { j-- }].  It is entered with
    [i > 0], so [j] never passes below index 0. *)
Fixpoint scanDown (stop : nat -> bool) (i j : nat) : nat :=
  match j with
  | O => O
  | S j' => if (i <=? j)%nat && stop j then scanDown stop i j' else j
  end.

(** The [for { ... }] loop of [partitionCmpFunc] and of
    [partitionEqualCmpFunc]; [up] and [down] are the two inner loop
    conditions on the current slice.  Returns the slice and the final [i]
    and [j]. *)
Fixpoint partitionLoop (fuel : nat) (up down : list E -> nat -> bool)
         (data : list E) (i j : nat) : list E * nat * nat :=
  let i := scanUp (S j - i) (up data) i j in
  let j := scanDown (down data) i j in
  if (j <? i)%nat then (data, i, j)
  else
    match fuel with
    | O => (data, i, j)
    | S fuel' =>
        partitionLoop fuel' up down (swap data i j) (S i) (j - 1)
    end.

(** [partitionCmpFunc]: one quicksort partition around [data[pivot]];
    returns the slice, the new pivot index and [alreadyPartitioned]. *)
Definition partitionCmpFunc (data : list E) (a b pivot : nat)
  : list E * nat * bool :=
  let data := swap data a pivot in
  let up d k := lessAt d k a in
  let down d k := negb (lessAt d k a) in
  let i := (a + 1)%nat in
  let j := (b - 1)%nat in
  let i := scanUp (S j - i) (up data) i j in
  let j := scanDown (down data) i j in
  if (j <? i)%nat then (swap data j a, j, true)
  else
    let data := swap data i j in
    let '(data, _, j) :=
      partitionLoop (b - a) up down data (S i) (j - 1) in
    (swap data j a, j, false).

(** [partitionEqualCmpFunc]: elements equal to the pivot first, then the
    greater ones; the range holds nothing smaller than the pivot. *)
Definition partitionEqualCmpFunc (data : list E) (a b pivot : nat)
  : list E * nat :=
  let data := swap data a pivot in
  let up d k := negb (lessAt d a k) in
  let down d k := lessAt d a k in
  let '(data, i, _) :=
    partitionLoop (b - a) up down data (a + 1) (b - 1) in
  (data, i).

(** [partialInsertionSortCmpFunc] *)
Definition maxSteps : nat := 5.
Definition shortestShifting : nat := 50.

(** [for i < b && !less(data[i], data[i-1]) { i++ }] *)
Fixpoint skipSorted (n : nat) (data : list E) (i b : nat) : nat :=
  match n with
  | O => i
  | S n' =>
      if (i <? b)%nat && negb (lessAt data i (i - 1))
      then skipSorted n' data (S i) b else i
  end.

(** [for j := i - 1; j >= 1; j-- { if !less(data[j], data[j-1]) { break }; swap }] *)
Fixpoint shiftLeft (data : list E) (j : nat) : list E :=
  match j with
  | O => data
  | S j' =>
      if negb (lessAt data j j') then data
      else shiftLeft (swap data j j') j'
  end.

(** [for j := i + 1; j < b; j++ { if !less(data[j], data[j-1]) { break }; swap }] *)
Fixpoint shiftRight (n : nat) (data : list E) (j b : nat) : list E :=
  match n with
  | O => data
  | S n' =>
      if (j <? b)%nat then
        if negb (lessAt data j (j - 1)) then data
        else shiftRight n' (swap data j (j - 1)) (S j) b
      else data
  end.

Fixpoint partialInsertionLoop (steps : nat) (data : list E) (a b i : nat)
  : list E * bool :=
  match steps with
  | O => (data, false)
  | S steps' =>
      let i := skipSorted (b - i) data i b in
      if (i =? b)%nat then (data, true)
      else if (b - a <? shortestShifting)%nat then (data, false)
      else
        let data := swap data i (i - 1) in
        let data := if (2 <=? i - a)%nat then shiftLeft data (i - 1)
                    else data in
        let data := if (2 <=? b - i)%nat
                    then shiftRight (b - i) data (i + 1) b else data in
        partialInsertionLoop steps' data a b i
  end.

Definition partialInsertionSortCmpFunc (data : list E) (a b : nat)
  : list E * bool :=
  partialInsertionLoop maxSteps data a b (a + 1).

(** [breakPatternsCmpFunc] and its xorshift generator on [uint64]. *)
Definition uint64 (z : Z) : Z := z mod 2 ^ 64.

Definition xorshiftNext (r : Z) : Z :=
  let r := Z.lxor r (uint64 (Z.shiftl r 13)) in
  let r := Z.lxor r (Z.shiftr r 7) in
  let r := Z.lxor r (uint64 (Z.shiftl r 17)) in
  r.

(** [bits.Len(uint(n))] *)
Definition bitsLen (n : nat) : nat :=
  match n with
  | O => O
  | _ => S (Nat.log2 n)
  end.

Definition nextPowerOfTwo (length : nat) : Z :=
  Z.shiftl 1 (Z.of_nat (bitsLen length)).

Fixpoint breakLoop (n : nat) (data : list E) (random : Z) (modulus : Z)
         (a length idx i : nat) : list E :=
  match n with
  | O => data
  | S n' =>
      let random := xorshiftNext random in
      let other := Z.to_nat (Z.land random (modulus - 1)) in
      let other := if (length <=? other)%nat then (other - length)%nat
                   else other in
      breakLoop n' (swap data (idx + i) (a + other)) random modulus
                a length idx (S i)
  end.

Definition breakPatternsCmpFunc (data : list E) (a b : nat) : list E :=
  let length := (b - a)%nat in
  if (8 <=? length)%nat then
    let random := Z.of_nat length in
    let modulus := nextPowerOfTwo length in
    let idx := (a + (length / 4) * 2 - 1)%nat in
    breakLoop 3 data random modulus a length idx 0
  else data.

(** [choosePivotCmpFunc] *)
Inductive sortedHint := unknownHint | increasingHint | decreasingHint.

Definition shortestNinther : nat := 50.
Definition maxSwaps : nat := 4 * 3.

(** [order2CmpFunc]: the pair in order, and the swap counter. *)
Definition order2CmpFunc (data : list E) (a b : nat) (swaps : nat)
  : nat * nat * nat :=
  if lessAt data b a then (b, a, S swaps) else (a, b, swaps).

Definition medianCmpFunc (data : list E) (a b c : nat) (swaps : nat)
  : nat * nat :=
  let '(a, b, swaps) := order2CmpFunc data a b swaps in
  let '(b, c, swaps) := order2CmpFunc data b c swaps in
  let '(a, b, swaps) := order2CmpFunc data a b swaps in
  (b, swaps).

Definition medianAdjacentCmpFunc (data : list E) (a : nat) (swaps : nat)
  : nat * nat :=
  medianCmpFunc data (a - 1) a (a + 1) swaps.

Definition choosePivotCmpFunc (data : list E) (a b : nat)
  : nat * sortedHint :=
  let l := (b - a)%nat in
  let swaps := O in
  let i := (a + l / 4 * 1)%nat in
  let j := (a + l / 4 * 2)%nat in
  let k := (a + l / 4 * 3)%nat in
  let '(j, swaps) :=
    if (8 <=? l)%nat then
      let '(i, j, k, swaps) :=
        if (shortestNinther <=? l)%nat then
          let '(i, swaps) := medianAdjacentCmpFunc data i swaps in
          let '(j, swaps) := medianAdjacentCmpFunc data j swaps in
          let '(k, swaps) := medianAdjacentCmpFunc data k swaps in
          (i, j, k, swaps)
        else (i, j, k, swaps) in
      medianCmpFunc data i j k swaps
    else (j, swaps) in
  if (swaps =? 0)%nat then (j, increasingHint)
  else if (swaps =? maxSwaps)%nat then (j, decreasingHint)
  else (j, unknownHint).

(** [reverseRangeCmpFunc] *)
Fixpoint reverseLoop (n : nat) (data : list E) (i j : nat) : list E :=
  match n with
  | O => data
  | S n' =>
      if (i <? j)%nat then reverseLoop n' (swap data i j) (S i) (j - 1)
      else data
  end.

Definition reverseRangeCmpFunc (data : list E) (a b : nat) : list E :=
  reverseLoop (b - a) data a (b - 1).

Definition maxInsertion : nat := 12.

(** [pdqsortCmpFunc]: every turn of its loop and every recursive call
    works on a strictly shorter range, so [fuel = b - a] is never used
    up. *)
Fixpoint pdqsortCmpFunc (fuel : nat) (data : list E) (a b limit : nat)
         (wasBalanced wasPartitioned : bool) : list E :=
  let length := (b - a)%nat in
  if (length <=? maxInsertion)%nat then insertionSortCmpFunc data a b
  else if (limit =? 0)%nat then heapSortCmpFunc data a b
  else
    match fuel with
    | O => data
    | S fuel' =>
        let '(data, limit) :=
          if negb wasBalanced
          then (breakPatternsCmpFunc data a b, (limit - 1)%nat)
          else (data, limit) in
        let '(pivot, hint) := choosePivotCmpFunc data a b in
        let '(data, pivot, hint) :=
          match hint with
          | decreasingHint =>
              (reverseRangeCmpFunc data a b,
               ((b - 1) - (pivot - a))%nat, increasingHint)
          | _ => (data, pivot, hint)
          end in
        let '(data, sorted) :=
          if wasBalanced && wasPartitioned
             && match hint with increasingHint => true | _ => false end
          then partialInsertionSortCmpFunc data a b
          else (data, false) in
        if sorted then data
        else
            if (0 <? a)%nat && negb (lessAt data (a - 1) pivot) then
              let '(data, mid) := partitionEqualCmpFunc data a b pivot in
              pdqsortCmpFunc fuel' data mid b limit
                             wasBalanced wasPartitioned
            else
              let '(data, mid, alreadyPartitioned) :=
                partitionCmpFunc data a b pivot in
              let wasPartitioned := alreadyPartitioned in
              let leftLen := (mid - a)%nat in
              let rightLen := (b - mid)%nat in
              let balanceThreshold := (length / 8)%nat in
              if (leftLen <? rightLen)%nat then
                let wasBalanced := (balanceThreshold <=? leftLen)%nat in
                let data :=
                  pdqsortCmpFunc fuel' data a mid limit true true in
                pdqsortCmpFunc fuel' data (mid + 1) b limit
                               wasBalanced wasPartitioned
              else
                let wasBalanced := (balanceThreshold <=? rightLen)%nat in
                let data :=
                  pdqsortCmpFunc fuel' data (mid + 1) b limit true true in
                pdqsortCmpFunc fuel' data a mid limit
                               wasBalanced wasPartitioned
    end.

(** [func SortFunc(x, cmp) { n := len(x); pdqsortCmpFunc(x, 0, n, bits.Len(uint(n)), cmp) }] *)
Definition SortFunc (x : list E) : list E :=
  let n := length x in
  pdqsortCmpFunc n x 0 n (bitsLen n) true true.

End Pdqsort.
End slices.

(** *** Notions for the correctness of the sort *)

(** [x] is not greater than [y]. *)
Definition leBy {E : Type} (cmp : E -> E -> Z) (x y : E) : Prop :=
  ~ cmp y x < 0.

(** [l'] is [l] but for the indices from [a] up to [b]. *)
Definition within {E : Type} (a b : nat) (l l' : list E) : Prop :=
  length l' = length l
  /\ forall i, (i < a \/ b <= i)%nat -> l' !! i = l !! i.

(** The slice is in ascending order from index [a] up to [b]. *)
Definition rangeSorted {E : Type} (cmp : E -> E -> Z) (a b : nat)
           (l : list E) : Prop :=
  forall i j x y, (a <= i)%nat -> (i < j)%nat -> (j < b)%nat ->
                  l !! i = Some x -> l !! j = Some y -> leBy cmp x y.

(** Every element from index [a] up to [b] has property [P]. *)
Definition rangeAll {E : Type} (P : E -> Prop) (a b : nat) (l : list E)
  : Prop :=
  forall k x, (a <= k)%nat -> (k < b)%nat -> l !! k = Some x -> P x.

(** The heap of [heapSortCmpFunc], rooted at index [first]: from node [lo]
    on, no child below [hi] is greater than its parent. *)
Definition heapFrom {E : Type} (cmp : E -> E -> Z) (first lo hi : nat)
           (l : list E) : Prop :=
  forall p c x y, (lo <= p)%nat -> c = (2 * p + 1)%nat \/ c = (2 * p + 2)%nat ->
                  (c < hi)%nat ->
                  l !! (first + p)%nat = Some x ->
                  l !! (first + c)%nat = Some y -> leBy cmp y x.

(** The heap while [siftDownCmpFunc] is at node [r]: only [r] may be
    smaller than a child, and the parent of [r] is not smaller than the
    children of [r]. *)
Definition heapButAt {E : Type} (cmp : E -> E -> Z) (first lo hi r : nat)
           (l : list E) : Prop :=
  (forall p c x y, (lo <= p)%nat -> p <> r ->
                   c = (2 * p + 1)%nat \/ c = (2 * p + 2)%nat -> (c < hi)%nat ->
                   l !! (first + p)%nat = Some x ->
                   l !! (first + c)%nat = Some y -> leBy cmp y x)
  /\ (forall q c x y, (lo <= q)%nat ->
                      r = (2 * q + 1)%nat \/ r = (2 * q + 2)%nat ->
                      c = (2 * r + 1)%nat \/ c = (2 * r + 2)%nat ->
                      (c < hi)%nat ->
                      l !! (first + q)%nat = Some x ->
                      l !! (first + c)%nat = Some y -> leBy cmp y x).

(** What [pdqsortCmpFunc] knows of its range when it is not at the start
    of the slice: the element just before the range is not greater than
    any element of the range. *)
Definition leftBound {E : Type} (cmp : E -> E -> Z) (a b : nat)
           (l : list E) : Prop :=
  (0 < a)%nat ->
  exists z, l !! (a - 1)%nat = Some z /\ rangeAll (leBy cmp z) a b l.

(** Insertion sort on lists: [insertLast x pre] is what the inner loop of
    [insertionSortCmpFunc] makes of a sorted [pre] followed by [x]; the
    element moves left past the elements that are greater. *)
Fixpoint insertRev {E : Type} (cmp : E -> E -> Z) (x : E) (rpre : list E)
  : list E :=
  match rpre with
  | [] => [x]
  | y :: rpre' =>
      if cmp x y <? 0 then y :: insertRev cmp x rpre' else x :: y :: rpre'
  end.

Definition insertLast {E : Type} (cmp : E -> E -> Z) (x : E) (pre : list E)
  : list E :=
  rev (insertRev cmp x (rev pre)).

Definition insertionSorted {E : Type} (cmp : E -> E -> Z) (l : list E)
  : list E :=
  fold_left (fun pre x => insertLast cmp x pre) l [].

(** [slices.Sort] on strings: the same algorithm on Go's [<] of strings,
    which compares byte by byte. *)
Definition cmpString (x y : string) : Z :=
  match String.compare x y with
  | Lt => -1
  | Eq => 0
  | Gt => 1
  end.

Definition slices_Sort (x : list string) : list string :=
  slices.SortFunc cmpString x.

(** ** The AWS SDK types the client reads and writes *)

(** [time.Time] is the instant it denotes, counted from Go's zero time, so
    that [time.Time{}] is [0]; [Before] and [Equal] compare instants. *)
Definition Time : Type := Z.

Module types.
Module ObjectVersion.
Record t := mk {
  Key : string;
  VersionId : string;
  LastModified : Time;
  IsLatest : bool;
  ETag : string;
}.
End ObjectVersion.

Module DeleteMarkerEntry.
Record t := mk {
  Key : string;
  VersionId : string;
  LastModified : Time;
  IsLatest : bool;
}.
End DeleteMarkerEntry.
End types.

Record ListObjectVersionsOutput := {
  Versions : list types.ObjectVersion.t;
  DeleteMarkers : list types.DeleteMarkerEntry.t;
  IsTruncated : bool;
  NextKeyMarker : option string;
  NextVersionIdMarker : option string;
}.

(** [s3.DeleteObjectInput]; a request that names a [VersionId] removes that
    version for good, one without it adds a delete marker. *)
Record DeleteObjectInput := {
  doBucket : string;
  doKey : string;
  doVersionId : option string;
}.

Record CopyObjectInput := {
  CopySource : string;
  coBucket : string;
  coKey : string;
}.

(** ** [s3/client.go] *)

Definition OperationType : Type := string.
Definition OperationTypePut : OperationType := "PUT".
Definition OperationTypeDelete : OperationType := "DELETE".

Record ObjectVersion := {
  VersionID : string;
  Operation : OperationType;
  Timestamp : Time;
  IsLatest : bool;
  ETag : string;
}.

Global Instance ObjectVersion_eq_dec : EqDecision ObjectVersion.
Proof. solve_decision. Defined.

Definition ZeroObjectVersion : ObjectVersion :=
  {| VersionID := ""; Operation := ""; Timestamp := 0;
     IsLatest := false; ETag := "" |}.

(** The comparison [Add] hands to [slices.SortFunc]. *)
Definition byTimestamp (a b : ObjectVersion) : Z :=
  if Timestamp a <? Timestamp b then -1
  else if Timestamp a =? Timestamp b then 0
  else 1.

(** [ObjectVersionMap.Add] (the debug log of the object count is left out). *)
Definition Add (ovm : gmap string (list ObjectVersion))
           (key versionID : string) (operation : OperationType)
           (timestamp : Time) (isLatest : bool) (etag : string)
  : gmap string (list ObjectVersion) :=
  let sl := match ovm !! key with
            | Some foundSlice => foundSlice
            | None => []
            end in
  let sl := sl ++ [ {| VersionID := versionID; Operation := operation;
                       Timestamp := timestamp; IsLatest := isLatest;
                       ETag := etag |} ] in
  let sl := slices.SortFunc byTimestamp sl in
  <[key := sl]> ovm.

(** The service behind [c.c.ListObjectVersions]: for a bucket and a prefix
    filter, the pages it returns one call after the other as the listing is
    followed through its continuation markers.  A call past the last page
    fails. *)
Definition Client : Type :=
  string -> option string -> list ListObjectVersionsOutput.

(** [ListIterator].  Field [c] is the client on the listing this iterator
    follows: the pages still to come from the position that [keyMarker] and
    [versionIdMarker] denote. *)
Record ListIterator := {
  c : list ListObjectVersionsOutput;
  bucket : string;
  prefix : option string;
  loadMore : bool;
  keyMarker : option string;
  versionIdMarker : option string;
  pageObjectsWithVersions : gmap string (list ObjectVersion);
}.

Definition List (cl : Client) (bucket : string) (prefix : option string)
  : ListIterator :=
  {| c := cl bucket prefix;
     bucket := bucket;
     prefix := prefix;
     loadMore := true;
     keyMarker := None;
     versionIdMarker := None;
     pageObjectsWithVersions := ∅ |}.

(** [for _, v := range versions.Versions { it.pageObjectsWithVersions.Add(...) }] *)
Definition storeVersions (vs : list types.ObjectVersion.t)
           (ovm : gmap string (list ObjectVersion))
  : gmap string (list ObjectVersion) :=
  fold_left (fun ovm v =>
               Add ovm (types.ObjectVersion.Key v)
                   (types.ObjectVersion.VersionId v) OperationTypePut
                   (types.ObjectVersion.LastModified v)
                   (types.ObjectVersion.IsLatest v)
                   (types.ObjectVersion.ETag v)) vs ovm.

(** [for _, v := range versions.DeleteMarkers { it.pageObjectsWithVersions.Add(...) }] *)
Definition storeDeleteMarkers (ds : list types.DeleteMarkerEntry.t)
           (ovm : gmap string (list ObjectVersion))
  : gmap string (list ObjectVersion) :=
  fold_left (fun ovm v =>
               Add ovm (types.DeleteMarkerEntry.Key v)
                   (types.DeleteMarkerEntry.VersionId v) OperationTypeDelete
                   (types.DeleteMarkerEntry.LastModified v)
                   (types.DeleteMarkerEntry.IsLatest v) "") ds ovm.

Definition storePage (versions : ListObjectVersionsOutput)
           (ovm : gmap string (list ObjectVersion))
  : gmap string (list ObjectVersion) :=
  storeDeleteMarkers (DeleteMarkers versions)
                     (storeVersions (Versions versions) ovm).

(** The loading loop of [Next],
    [for it.loadMore && len(it.pageObjectsWithVersions) <= 1 { ... }];
    [None] when a call to the service fails. *)
Fixpoint loadPages (pages : list ListObjectVersionsOutput)
         (it : ListIterator) : option ListIterator :=
  if loadMore it && (size (pageObjectsWithVersions it) <=? 1)%nat then
    match pages with
    | [] => None
    | versions :: pages' =>
        loadPages pages'
          {| c := pages';
             bucket := bucket it;
             prefix := prefix it;
             loadMore := IsTruncated versions;
             keyMarker := NextKeyMarker versions;
             versionIdMarker := NextVersionIdMarker versions;
             pageObjectsWithVersions :=
               storePage versions (pageObjectsWithVersions it) |}
    end
  else Some it.

(** The iterator as that loop leaves it, whether it ends because its
    condition fails or because a call to the service fails: what the
    responses before the failure gave (the flag, the two markers and the
    stored records) stays in the iterator. *)
Fixpoint loadedSoFar (pages : list ListObjectVersionsOutput)
         (it : ListIterator) : ListIterator :=
  if loadMore it && (size (pageObjectsWithVersions it) <=? 1)%nat then
    match pages with
    | [] => it
    | versions :: pages' =>
        loadedSoFar pages'
          {| c := pages';
             bucket := bucket it;
             prefix := prefix it;
             loadMore := IsTruncated versions;
             keyMarker := NextKeyMarker versions;
             versionIdMarker := NextVersionIdMarker versions;
             pageObjectsWithVersions :=
               storePage versions (pageObjectsWithVersions it) |}
    end
  else it.

(** [firstMapKey]; [None] is the panic on an empty map.  The order in which
    [range] visits the keys does not matter to the sorted result. *)
Definition firstMapKey {V : Type} (m : gmap string V) : option string :=
  if (size m =? 0)%nat then None
  else head (slices_Sort (map_to_list m).*1).

(** What a call of [Next] returns: a key with its slice, [io.EOF], the
    wrapped error of a failed request, or the panic of [firstMapKey]. *)
Inductive NextResult :=
| NextOk (key : string) (versions : list ObjectVersion)
| NextEOF
| NextErr
| NextPanic.

Definition Next (it : ListIterator) : NextResult * ListIterator :=
  match loadPages (c it) it with
  | None => (NextErr, loadedSoFar (c it) it)
  | Some it =>
      if (size (pageObjectsWithVersions it) =? 0)%nat then (NextEOF, it)
      else
        match firstMapKey (pageObjectsWithVersions it) with
        | None => (NextPanic, it)
        | Some key =>
            let versions :=
              default [] (pageObjectsWithVersions it !! key) in
            (NextOk key versions,
             {| c := c it;
                bucket := bucket it;
                prefix := prefix it;
                loadMore := loadMore it;
                keyMarker := keyMarker it;
                versionIdMarker := versionIdMarker it;
                pageObjectsWithVersions :=
                  delete key (pageObjectsWithVersions it) |})
        end
  end.

(** [Client.Copy] and [Client.Delete]: the request each one sends. *)
Definition copySource (srcBucket key version : string) : string :=
  srcBucket +:+ "/" +:+ key +:+ "?versionId=" +:+ version.

Definition Copy (srcBucket destBucket key version : string)
  : CopyObjectInput :=
  {| CopySource := copySource srcBucket key version;
     coBucket := destBucket;
     coKey := key |}.

Definition Delete (bucket key : string) : DeleteObjectInput :=
  {| doBucket := bucket; doKey := key; doVersionId := None |}.

(** ** [main.go] *)

(** The scan of one key's versions in the loop of [main]:
    [versionAtTimestamp] and [latestVersion] after the [for _, v := range versions]. *)
Definition scanVersions (referenceTimestamp : Time)
           (versions : list ObjectVersion) : ObjectVersion * ObjectVersion :=
  fold_left
    (fun '(versionAtTimestamp, latestVersion) v =>
       (if Timestamp v <? referenceTimestamp then v else versionAtTimestamp,
        if IsLatest v then v else latestVersion))
    versions (ZeroObjectVersion, ZeroObjectVersion).

(** What the loop body does for one key: nothing ([continue]), a call of
    [s3Client.Delete] or a call of [s3Client.Copy]. *)
Inductive Mutation :=
| Skipping
| Deleting (req : DeleteObjectInput)
| Restoring (req : CopyObjectInput).

Definition restoreKey (bucket : string) (referenceTimestamp : Time)
           (key : string) (versions : list ObjectVersion) : Mutation :=
  let '(versionAtTimestamp, latestVersion) :=
    scanVersions referenceTimestamp versions in
  if String.eqb (ETag latestVersion) (ETag versionAtTimestamp) then Skipping
  else if bool_decide (versionAtTimestamp = ZeroObjectVersion)
          || String.eqb (Operation versionAtTimestamp) OperationTypeDelete
       then Deleting (Delete bucket key)
       else Restoring (Copy bucket bucket key (VersionID versionAtTimestamp)).

(** How a run ends: the process exit code, or [Running] when the model's
    fuel is spent before the loop is over. *)
Inductive Outcome :=
| Exit (code : Z)
| Running.

(** The [for { ... }] loop of [main].  [accepted] is the service's answer to
    a mutation request ([err == nil]); the result is the list of keys with
    what was done for each, in order.  A failed request of the listing ends
    the run with code 1: this is the loop for a service whose failures do
    not carry [io.EOF] in the chain of their error, which [main] would take
    for the end of the listing ([restoreLoopWith] below has both cases). *)
Fixpoint restoreLoop (fuel : nat) (bucket : string)
         (referenceTimestamp : Time) (accepted : Mutation -> bool)
         (versionIt : ListIterator) : list (string * Mutation) * Outcome :=
  match fuel with
  | O => ([], Running)
  | S fuel' =>
      match Next versionIt with
      | (NextEOF, _) => ([], Exit 0)
      | (NextErr, _) => ([], Exit 1)
      | (NextPanic, _) => ([], Exit 2)
      | (NextOk key versions, versionIt) =>
          let m := restoreKey bucket referenceTimestamp key versions in
          let ok := match m with
                    | Skipping => true
                    | _ => accepted m
                    end in
          if ok then
            let '(done, out) :=
              restoreLoop fuel' bucket referenceTimestamp accepted versionIt in
            ((key, m) :: done, out)
          else ([(key, m)], Exit 1)
      end
  end.

(** The number of version and delete-marker entries of the pages. *)
Definition entryCount (pages : list ListObjectVersionsOutput) : nat :=
  sum_list (map (fun p => (length (Versions p) + length (DeleteMarkers p))%nat)
                pages).

(** Every call of [Next] but the last hands out a key, and a key needs an
    entry, so this many turns of the loop are enough. *)
Definition enoughFuel (it : ListIterator) : nat :=
  S (size (pageObjectsWithVersions it) + entryCount (c it)).

(** [main], from the parsed command line on: the flags [verbose] and
    [prefix], the bucket and the reference timestamp. *)
Definition main (verbose : bool) (prefix : string) (bucket : string)
           (referenceTimestamp : Time) (s3Client : Client)
           (accepted : Mutation -> bool)
  : list (string * Mutation) * Outcome :=
  let versionIt := List s3Client bucket None in
  restoreLoop (enoughFuel versionIt) bucket referenceTimestamp accepted
              versionIt.

(** ** The storage service

    Modelled from the spec: the two mutating operations of the storage
    gateway (section 6, [deleteCurrentVersion] and [copyVersion]) are
    carried out by the object store, which is not part of the repository.
    The model acts on the history of one key, oldest first; a new version
    gets its identifier and its time from the service, becomes the latest
    one, and is listed after the versions that are not younger. *)
Record Stamp := {
  stampVersionID : string;
  stampTime : Time;
}.

Definition retire (v : ObjectVersion) : ObjectVersion :=
  {| VersionID := VersionID v; Operation := Operation v;
     Timestamp := Timestamp v; IsLatest := false; ETag := ETag v |}.

Definition deleteMarker (st : Stamp) : ObjectVersion :=
  {| VersionID := stampVersionID st; Operation := OperationTypeDelete;
     Timestamp := stampTime st; IsLatest := true; ETag := "" |}.

Definition copyOf (st : Stamp) (src : ObjectVersion) : ObjectVersion :=
  {| VersionID := stampVersionID st; Operation := OperationTypePut;
     Timestamp := stampTime st; IsLatest := true; ETag := ETag src |}.

Fixpoint insertByTime (new : ObjectVersion) (versions : list ObjectVersion)
  : list ObjectVersion :=
  match versions with
  | [] => [new]
  | v :: rest =>
      if Timestamp new <? Timestamp v then new :: v :: rest
      else v :: insertByTime new rest
  end.

Definition deleteObject (req : DeleteObjectInput) (st : Stamp)
           (versions : list ObjectVersion) : list ObjectVersion :=
  match doVersionId req with
  | None => insertByTime (deleteMarker st) (retire <$> versions)
  | Some id =>
      filter (fun v => negb (String.eqb (VersionID v) id)) versions
  end.

Definition copyObject (req : CopyObjectInput) (st : Stamp)
           (versions : list ObjectVersion) : option (list ObjectVersion) :=
  match find (fun v => String.eqb
                         (copySource (coBucket req) (coKey req) (VersionID v))
                         (CopySource req)) versions with
  | Some src => Some (insertByTime (copyOf st src) (retire <$> versions))
  | None => None
  end.

(** The history of the key after the mutation; [None] when the service
    refuses the request. *)
Definition applyMutation (m : Mutation) (st : Stamp)
           (versions : list ObjectVersion) : option (list ObjectVersion) :=
  match m with
  | Skipping => Some versions
  | Deleting req => Some (deleteObject req st versions)
  | Restoring req => copyObject req st versions
  end.

(** ** Notions the properties are stated with *)

(** The two variables the loop of [main] leaves behind. *)
Definition versionAtTimestamp (referenceTimestamp : Time)
           (versions : list ObjectVersion) : ObjectVersion :=
  fst (scanVersions referenceTimestamp versions).

Definition latestVersion (versions : list ObjectVersion) : ObjectVersion :=
  snd (scanVersions 0 versions).

(** [v.Timestamp.Before(referenceTimestamp)] *)
Definition before (referenceTimestamp : Time) (v : ObjectVersion) : Prop :=
  Timestamp v < referenceTimestamp.

Global Instance before_dec referenceTimestamp v :
  Decision (before referenceTimestamp v).
Proof. unfold before. apply _. Defined.

(** A history in ascending order of time. *)
Definition ascending (versions : list ObjectVersion) : Prop :=
  StronglySorted (fun a b => Timestamp a <= Timestamp b) versions.

(** [r] is the one record of the history with [IsLatest] set. *)
Definition theLatest (versions : list ObjectVersion) (r : ObjectVersion)
  : Prop :=
  r ∈ versions /\ IsLatest r = true /\
  forall r', r' ∈ versions -> IsLatest r' = true -> r' = r.

(** What [Next] stores for a delete marker has no etag, and every record is
    a put or a delete. *)
Definition markerWithoutETag (v : ObjectVersion) : Prop :=
  Operation v = OperationTypeDelete -> ETag v = "".

Definition putOrDelete (v : ObjectVersion) : Prop :=
  Operation v = OperationTypePut \/ Operation v = OperationTypeDelete.

(** What [slices.SortFunc] asks of its comparison: [cmp(a, b) < 0] is a
    strict weak ordering. *)
Record StrictWeakOrder {E : Type} (cmp : E -> E -> Z) : Prop := {
  swo_irrefl : forall x, ~ cmp x x < 0;
  swo_trans : forall x y z, cmp x y < 0 -> cmp y z < 0 -> cmp x z < 0;
  swo_incomparable :
    forall x y z, ~ cmp x y < 0 -> ~ cmp y z < 0 -> ~ cmp x z < 0;
}.

(** A slice in ascending order of [cmp]: no element is smaller than one
    before it. *)
Definition sortedBy {E : Type} (cmp : E -> E -> Z) (l : list E) : Prop :=
  StronglySorted (fun x y => ~ cmp y x < 0) l.

(** Go's order of strings. *)
Definition keyLt (k k' : string) : Prop := String.compare k k' = Lt.
Definition keyLe (k k' : string) : Prop := String.compare k k' <> Gt.

(** The record [Next] stores for an entry of a page. *)
Definition putRecord (v : types.ObjectVersion.t) : ObjectVersion :=
  {| VersionID := types.ObjectVersion.VersionId v;
     Operation := OperationTypePut;
     Timestamp := types.ObjectVersion.LastModified v;
     IsLatest := types.ObjectVersion.IsLatest v;
     ETag := types.ObjectVersion.ETag v |}.

Definition deleteRecord (v : types.DeleteMarkerEntry.t) : ObjectVersion :=
  {| VersionID := types.DeleteMarkerEntry.VersionId v;
     Operation := OperationTypeDelete;
     Timestamp := types.DeleteMarkerEntry.LastModified v;
     IsLatest := types.DeleteMarkerEntry.IsLatest v;
     ETag := "" |}.

(** One call of [Add], as the key and the record it appends. *)
Definition addEntry (ovm : gmap string (list ObjectVersion))
           (e : string * ObjectVersion) : gmap string (list ObjectVersion) :=
  Add ovm e.1 (VersionID e.2) (Operation e.2) (Timestamp e.2)
      (IsLatest e.2) (ETag e.2).

(** The calls of [Add] that a page causes, in the order [Next] makes them:
    the versions first, then the delete markers. *)
Definition pageEntries (p : ListObjectVersionsOutput)
  : list (string * ObjectVersion) :=
  ((fun v => (types.ObjectVersion.Key v, putRecord v)) <$> Versions p)
  ++ ((fun v => (types.DeleteMarkerEntry.Key v, deleteRecord v))
        <$> DeleteMarkers p).

Definition entries (pages : list ListObjectVersionsOutput)
  : list (string * ObjectVersion) :=
  concat (pageEntries <$> pages).

(** The records that arrive for a key, in order of arrival. *)
Definition arrivals (key : string) (es : list (string * ObjectVersion))
  : list ObjectVersion :=
  (filter (fun e => e.1 = key) es).*2.

(** The slice that [Add] builds by appending and re-sorting, from what is
    there ([None]: no slice yet) and from the arrivals. *)
Definition appendSorted (sl : list ObjectVersion) (v : ObjectVersion)
  : list ObjectVersion :=
  slices.SortFunc byTimestamp (sl ++ [v]).

Definition grown (found : option (list ObjectVersion))
           (records : list ObjectVersion) : option (list ObjectVersion) :=
  match records with
  | [] => found
  | _ :: _ => Some (fold_left appendSorted records (default [] found))
  end.

Definition history (records : list ObjectVersion) : list ObjectVersion :=
  fold_left appendSorted records [].

(** A page stream whose keys do not decrease from one page to a later one. *)
Fixpoint keyOrdered (pages : list ListObjectVersionsOutput) : Prop :=
  match pages with
  | [] => True
  | p :: rest =>
      (forall k k', k ∈ (pageEntries p).*1 -> k' ∈ (entries rest).*1 ->
                    keyLe k k')
      /\ keyOrdered rest
  end.

(** The service marks every page but the last as truncated, and there is a
    first page even for an empty listing. *)
Fixpoint wellTruncated (pages : list ListObjectVersionsOutput) : Prop :=
  match pages with
  | [] => False
  | p :: rest =>
      match rest with
      | [] => IsTruncated p = false
      | _ :: _ => IsTruncated p = true /\ wellTruncated rest
      end
  end.

(** Calling [Next] until it stops handing out keys. *)
Inductive DrainEnd :=
| Exhausted
| Failed
| OutOfFuel.

Fixpoint drain (fuel : nat) (it : ListIterator)
  : list (string * list ObjectVersion) * DrainEnd :=
  match fuel with
  | O => ([], OutOfFuel)
  | S fuel' =>
      match Next it with
      | (NextOk key versions, it) =>
          let '(out, e) := drain fuel' it in ((key, versions) :: out, e)
      | (NextEOF, _) => ([], Exhausted)
      | (_, _) => ([], Failed)
      end
  end.

(** The iterator after [n] calls of [Next]. *)
Definition afterCalls (n : nat) (it : ListIterator) : ListIterator :=
  Nat.iter n (fun it => snd (Next it)) it.

(** The cursor of an iterator agrees with the pages still to come. *)
Definition cursorOK (it : ListIterator) : Prop :=
  if loadMore it then wellTruncated (c it) else c it = [].

(** What holds of an iterator on the page stream [pages] after it has
    handed out the keys [emitted]: the pending map holds, for every key of
    the pages read so far that is not yet handed out, the slice built from
    all its arrivals; and the keys handed out are smaller than every key
    that is pending or still to come. *)
Definition iterInv (pages : list ListObjectVersionsOutput)
           (emitted : list string) (it : ListIterator) : Prop :=
  cursorOK it
  /\ (exists consumed,
        pages = consumed ++ c it
        /\ forall k, pageObjectsWithVersions it !! k
                     = if decide (k ∈ emitted) then None
                       else grown None (arrivals k (entries consumed)))
  /\ (forall e k', e ∈ emitted ->
                   k' ∈ (entries (c it)).*1
                   \/ is_Some (pageObjectsWithVersions it !! k') ->
                   keyLt e k').

(** No two records of a key are from the same instant. *)
Definition distinctTimes (es : list (string * ObjectVersion)) : Prop :=
  forall key, NoDup (Timestamp <$> arrivals key es).

(** What the iterator hands out for a page stream: for every key, in order,
    the slice built from the arrivals of the key. *)
Definition histories (keys : list string)
           (pages : list ListObjectVersionsOutput)
  : list (string * list ObjectVersion) :=
  (fun k => (k, history (arrivals k (entries pages)))) <$> keys.

(** Modelled from the spec: a listing with a prefix filter (section 6,
    [listVersionsPage(bucket, prefix?, ...)]) holds the keys that begin with
    the prefix and no others; the service that does the filtering is not
    part of the repository. *)
Definition hasPrefix (prefix : option string) (key : string) : bool :=
  match prefix with
  | None => true
  | Some p => String.prefix p key
  end.

Definition filterPage (prefix : option string) (p : ListObjectVersionsOutput)
  : ListObjectVersionsOutput :=
  {| Versions :=
       List.filter (fun v => hasPrefix prefix (types.ObjectVersion.Key v))
                   (Versions p);
     DeleteMarkers :=
       List.filter (fun v => hasPrefix prefix (types.DeleteMarkerEntry.Key v))
                   (DeleteMarkers p);
     IsTruncated := IsTruncated p;
     NextKeyMarker := NextKeyMarker p;
     NextVersionIdMarker := NextVersionIdMarker p |}.

Definition listingOf (stored : list ListObjectVersionsOutput) : Client :=
  fun _ prefix => filterPage prefix <$> stored.

(** ** Concrete buckets *)

(** One key with a version and a delete marker from the same instant, listed
    on one page and on two. *)
Definition tiedVersion : types.ObjectVersion.t :=
  types.ObjectVersion.mk "k" "v1" 5 false "a".

Definition tiedMarker : types.DeleteMarkerEntry.t :=
  types.DeleteMarkerEntry.mk "k" "d1" 5 true.

Definition tiedOnOnePage : Client :=
  fun _ _ =>
    [ {| Versions := [tiedVersion]; DeleteMarkers := [tiedMarker];
         IsTruncated := false; NextKeyMarker := None;
         NextVersionIdMarker := None |} ].

Definition tiedOnTwoPages : Client :=
  fun _ _ =>
    [ {| Versions := []; DeleteMarkers := [tiedMarker];
         IsTruncated := true; NextKeyMarker := Some "k";
         NextVersionIdMarker := Some "d1" |};
      {| Versions := [tiedVersion]; DeleteMarkers := [];
         IsTruncated := false; NextKeyMarker := None;
         NextVersionIdMarker := None |} ].

(** A bucket with one object under [data/] and one under [logs/], both
    written at time 20. *)
Definition twoFolders : Client :=
  listingOf
    [ {| Versions := [ types.ObjectVersion.mk "data/x" "v1" 20 true "a";
                       types.ObjectVersion.mk "logs/y" "v2" 20 true "b" ];
         DeleteMarkers := [];
         IsTruncated := false; NextKeyMarker := None;
         NextVersionIdMarker := None |} ].

(** Twelve versions of one key from the same instant and a thirteenth from
    an earlier one, in the order of a listing that starts with the newest. *)
Definition putAt (id : string) (t : Time) : string * ObjectVersion :=
  ("k", {| VersionID := id; Operation := OperationTypePut; Timestamp := t;
           IsLatest := false; ETag := id |}).

Definition thirteenCalls : list (string * ObjectVersion) :=
  [ putAt "a" 5; putAt "b" 5; putAt "c" 5; putAt "d" 5; putAt "e" 5;
    putAt "f" 5; putAt "g" 5; putAt "h" 5; putAt "i" 5; putAt "j" 5;
    putAt "k" 5; putAt "l" 5; putAt "m" 1 ].

(** Every slice of the map keeps its delete markers without etag. *)
Definition markersBare (ovm : gmap string (list ObjectVersion)) : Prop :=
  forall k sl, ovm !! k = Some sl -> Forall markerWithoutETag sl.

(** One key with a version at time 5 and a delete marker at time 7, listed
    on one page and on two. *)
Definition laterMarker : types.DeleteMarkerEntry.t :=
  types.DeleteMarkerEntry.mk "k" "d1" 7 true.

Definition spreadOnOnePage : Client :=
  fun _ _ =>
    [ {| Versions := [tiedVersion]; DeleteMarkers := [laterMarker];
         IsTruncated := false; NextKeyMarker := None;
         NextVersionIdMarker := None |} ].

Definition spreadOnTwoPages : Client :=
  fun _ _ =>
    [ {| Versions := []; DeleteMarkers := [laterMarker];
         IsTruncated := true; NextKeyMarker := Some "k";
         NextVersionIdMarker := Some "d1" |};
      {| Versions := [tiedVersion]; DeleteMarkers := [];
         IsTruncated := false; NextKeyMarker := None;
         NextVersionIdMarker := None |} ].

(** A history of two puts, the second one current, and one of a put
    followed by the delete marker that is current. *)
Definition firstPut : ObjectVersion :=
  {| VersionID := "v1"; Operation := OperationTypePut; Timestamp := 1;
     IsLatest := false; ETag := "a" |}.

Definition secondPut : ObjectVersion :=
  {| VersionID := "v2"; Operation := OperationTypePut; Timestamp := 5;
     IsLatest := true; ETag := "b" |}.

Definition samePut : ObjectVersion :=
  {| VersionID := "v2"; Operation := OperationTypePut; Timestamp := 5;
     IsLatest := true; ETag := "a" |}.

(** ** [main.go], from the positional arguments on

    [main] after [flag.Parse()]: [args] is [flag.Args()].  The two calls
    into libraries are given by their results: [parseRFC3339 s] is
    [time.Parse(time.RFC3339, s)] ([None] when it returns an error) and
    [newClient] is what [s3.New(ctx)] returns ([None] for an error).  A wrong
    number of arguments prints the usage and leaves with code 2, a bad
    timestamp or a failing [s3.New] leaves with code 1; in all three cases no
    request has been sent. *)
Definition mainArgs (parseRFC3339 : string -> option Time)
           (newClient : option Client) (verbose : bool) (prefix : string)
           (args : list string) (accepted : Mutation -> bool)
  : list (string * Mutation) * Outcome :=
  match args with
  | [bucket; timestamp] =>
      match parseRFC3339 timestamp with
      | None => ([], Exit 1)
      | Some referenceTimestamp =>
          match newClient with
          | None => ([], Exit 1)
          | Some s3Client =>
              main verbose prefix bucket referenceTimestamp s3Client accepted
          end
      end
  | _ => ([], Exit 2)
  end.

(** The loop of [main] with its test on the error of [Next] spelled out.
    [Next] returns [io.EOF] itself at the end of the listing, and for a
    failed request the error of the service wrapped by [errors.Wrap];
    [errors.Is(err, io.EOF)] follows the chain of a wrapped error, so it
    holds as well of a failed request whose error has [io.EOF] in its chain
    (a connection that the other side has closed), and the loop then ends as
    it does at the end of the listing.  [eofInChain] says whether the error
    of the service's failure is of that kind; [restoreLoop] is the loop for
    a service of which it is not. *)
Fixpoint restoreLoopWith (eofInChain : bool) (fuel : nat) (bucket : string)
         (referenceTimestamp : Time) (accepted : Mutation -> bool)
         (versionIt : ListIterator) : list (string * Mutation) * Outcome :=
  match fuel with
  | O => ([], Running)
  | S fuel' =>
      match Next versionIt with
      | (NextEOF, _) => ([], Exit 0)
      | (NextErr, _) => if eofInChain then ([], Exit 0) else ([], Exit 1)
      | (NextPanic, _) => ([], Exit 2)
      | (NextOk key versions, versionIt) =>
          let m := restoreKey bucket referenceTimestamp key versions in
          let ok := match m with
                    | Skipping => true
                    | _ => accepted m
                    end in
          if ok then
            let '(done, out) :=
              restoreLoopWith eofInChain fuel' bucket referenceTimestamp
                              accepted versionIt in
            ((key, m) :: done, out)
          else ([(key, m)], Exit 1)
      end
  end.

Definition mainWith (eofInChain : bool) (verbose : bool) (prefix : string)
           (bucket : string) (referenceTimestamp : Time) (s3Client : Client)
           (accepted : Mutation -> bool)
  : list (string * Mutation) * Outcome :=
  let versionIt := List s3Client bucket None in
  restoreLoopWith eofInChain (enoughFuel versionIt) bucket referenceTimestamp
                  accepted versionIt.

(** ** Further notions *)

(** [v] is a newest record among those from before the reference time. *)
Definition newestBefore (referenceTimestamp : Time)
           (versions : list ObjectVersion) (v : ObjectVersion) : Prop :=
  v ∈ versions /\ before referenceTimestamp v
  /\ forall u, u ∈ versions -> before referenceTimestamp u ->
                Timestamp u <= Timestamp v.

(** No two records share the newest instant before the reference time. *)
Definition untiedAt (referenceTimestamp : Time)
           (versions : list ObjectVersion) : Prop :=
  forall v w, newestBefore referenceTimestamp versions v ->
              newestBefore referenceTimestamp versions w -> v = w.

(** At most one record is marked as the latest. *)
Definition soleLatest (versions : list ObjectVersion) : Prop :=
  forall r r', r ∈ versions -> r' ∈ versions ->
               IsLatest r = true -> IsLatest r' = true -> r = r'.

(** All the records a map holds, over all its keys. *)
Definition held (ovm : gmap string (list ObjectVersion))
  : list ObjectVersion :=
  concat (map_to_list ovm).*2.

(** All the records a run of [Next] calls has handed out. *)
Definition handedOut (out : list (string * list ObjectVersion))
  : list ObjectVersion :=
  concat out.*2.

(** Every slice of the map has a record, and every record is a put or a
    delete. *)
Definition realRecords (ovm : gmap string (list ObjectVersion)) : Prop :=
  forall k sl, ovm !! k = Some sl -> sl <> [] /\ Forall putOrDelete sl.

(** A listing that breaks off: every page says that more is to come, so the
    call after the last page is one that fails. *)
Definition brokenOff (pages : list ListObjectVersionsOutput) : Prop :=
  Forall (fun p => IsTruncated p = true) pages.

(** A request that was sent and that the service turned down. *)
Definition refused (accepted : Mutation -> bool) (m : Mutation) : Prop :=
  m <> Skipping /\ accepted m = false.

(** The request of the loop of [main] is for this bucket and this key, and a
    delete names no version. *)
Definition aimedAt (bucket key : string) (m : Mutation) : Prop :=
  m = Skipping
  \/ m = Deleting {| doBucket := bucket; doKey := key; doVersionId := None |}
  \/ exists version,
       m = Restoring {| CopySource := copySource bucket key version;
                        coBucket := bucket; coKey := key |}.

(** The two characters that [Copy] puts between the parts of the source
    string, [/] and [?]. *)
Definition slash : Ascii.ascii := Eval cbv in Ascii.ascii_of_nat 47.
Definition questionMark : Ascii.ascii := Eval cbv in Ascii.ascii_of_nat 63.

(** A string in which the character [a] does not occur. *)
Definition lacks (a : Ascii.ascii) (s : string) : Prop :=
  ~ In a (String.list_ascii_of_string s).

(** The state of the cursor after the pages [fetched] have been read: that of
    the last response, or unchanged when no page was read. *)
Definition cursorAfter (fetched : list ListObjectVersionsOutput)
           (it loaded : ListIterator) : Prop :=
  match last fetched with
  | None => loaded = it
  | Some p => loadMore loaded = IsTruncated p
              /\ keyMarker loaded = NextKeyMarker p
              /\ versionIdMarker loaded = NextVersionIdMarker p
  end.

(** What the loop of [main] does for a key and the slice that [Next] hands
    out for it. *)
Definition handled (bucket : string) (referenceTimestamp : Time)
           (kh : string * list ObjectVersion) : string * Mutation :=
  (kh.1, restoreKey bucket referenceTimestamp kh.1 kh.2).

(** A service that accepts every request, and one that accepts none. *)
Definition acceptAll : Mutation -> bool := fun _ => true.
Definition refuseAll : Mutation -> bool := fun _ => false.

(** A listing of one key that breaks off after its first page. *)
Definition cutShort : Client :=
  fun _ _ =>
    [ {| Versions := [tiedVersion]; DeleteMarkers := [];
         IsTruncated := true; NextKeyMarker := Some "k";
         NextVersionIdMarker := Some "v1" |} ].

(** A bucket without objects: one page, with nothing on it. *)
Definition emptyBucket : Client :=
  fun _ _ =>
    [ {| Versions := []; DeleteMarkers := [];
         IsTruncated := false; NextKeyMarker := None;
         NextVersionIdMarker := None |} ].

(** A key with a put and a delete marker from the same instant 5 and a later
    put at 9 that is current, listed on one page; and the same key after a
    delete marker of time 20 was added, listed on two pages that are cut
    before the oldest entry. *)
Definition tiedHistory : Client :=
  fun _ _ =>
    [ {| Versions := [ types.ObjectVersion.mk "k" "v2" 9 true "b";
                       types.ObjectVersion.mk "k" "v1" 5 false "a" ];
         DeleteMarkers := [ types.DeleteMarkerEntry.mk "k" "d1" 5 false ];
         IsTruncated := false; NextKeyMarker := None;
         NextVersionIdMarker := None |} ].

Definition tiedHistoryAfterDelete : Client :=
  fun _ _ =>
    [ {| Versions := [ types.ObjectVersion.mk "k" "v2" 9 false "b" ];
         DeleteMarkers := [ types.DeleteMarkerEntry.mk "k" "d2" 20 true;
                            types.DeleteMarkerEntry.mk "k" "d1" 5 false ];
         IsTruncated := true; NextKeyMarker := Some "k";
         NextVersionIdMarker := Some "d1" |};
      {| Versions := [ types.ObjectVersion.mk "k" "v1" 5 false "a" ];
         DeleteMarkers := [];
         IsTruncated := false; NextKeyMarker := None;
         NextVersionIdMarker := None |} ].

(** The records of that key. *)
Definition tiedPut : ObjectVersion :=
  {| VersionID := "v1"; Operation := OperationTypePut; Timestamp := 5;
     IsLatest := false; ETag := "a" |}.

Definition tiedDelete : ObjectVersion :=
  {| VersionID := "d1"; Operation := OperationTypeDelete; Timestamp := 5;
     IsLatest := false; ETag := EmptyString |}.

Definition laterPut (isLatest : bool) : ObjectVersion :=
  {| VersionID := "v2"; Operation := OperationTypePut; Timestamp := 9;
     IsLatest := isLatest; ETag := "b" |}.

Definition newDelete : ObjectVersion :=
  {| VersionID := "d2"; Operation := OperationTypeDelete; Timestamp := 20;
     IsLatest := true; ETag := EmptyString |}.

(** ** The sort of the standard library sorts *)

Section SwapFacts.
Context {E : Type}.
Implicit Types (l data : list E) (i j k a b : nat).

Lemma swap_length data i j : length (slices.swap data i j) = length data.
Proof.
  unfold slices.swap. destruct (data !! i), (data !! j); try done.
  by rewrite !length_insert.
Qed.

Lemma swap_lookup data i j k :
  (i < length data)%nat -> (j < length data)%nat ->
  slices.swap data i j !! k
  = if decide (k = j) then data !! i
    else if decide (k = i) then data !! j else data !! k.
Proof.
  intros Hi Hj. unfold slices.swap.
  destruct (lookup_lt_is_Some_2 _ _ Hi) as [x Hx].
  destruct (lookup_lt_is_Some_2 _ _ Hj) as [y Hy].
  rewrite Hx, Hy. destruct (decide (k = j)) as [->|Hkj].
  - rewrite list_lookup_insert_eq; [done|by rewrite length_insert].
  - rewrite list_lookup_insert_ne by done.
    destruct (decide (k = i)) as [->|Hki].
    + by rewrite list_lookup_insert_eq.
    + by rewrite list_lookup_insert_ne.
Qed.

Lemma swap_out_of_range data i j :
  (length data <= i)%nat \/ (length data <= j)%nat ->
  slices.swap data i j = data.
Proof.
  intros H. unfold slices.swap.
  destruct (data !! i) eqn:Hi; [|done]. destruct (data !! j) eqn:Hj; [|done].
  apply lookup_lt_Some in Hi, Hj. lia.
Qed.

Lemma swap_Permutation data i j : slices.swap data i j ≡ₚ data.
Proof.
  unfold slices.swap.
  destruct (data !! i) as [x|] eqn:Hi; [|done].
  destruct (data !! j) as [y|] eqn:Hj; [|done].
  destruct (decide (i = j)) as [->|Hne].
  { rewrite list_insert_insert_eq. rewrite list_insert_id; [done|congruence]. }
  revert i j x y Hi Hj Hne.
  induction data as [|z data IH]; intros [|i] [|j] x y Hi Hj Hne;
    try done; cbn in *.
  - injection Hi as ->. clear IH Hne.
    revert j Hj. induction data as [|w data IH]; intros [|j] Hj; try done;
      cbn in *.
    + injection Hj as ->. apply perm_swap.
    + rewrite (perm_swap w y), (perm_swap w x). f_equiv. by apply IH.
  - injection Hj as ->. clear IH Hne.
    revert i Hi. induction data as [|w data IH]; intros [|i] Hi; try done;
      cbn in *.
    + injection Hi as ->. apply perm_swap.
    + rewrite (perm_swap w x), (perm_swap w y). f_equiv. by apply IH.
  - f_equiv. apply IH; [done..|congruence].
Qed.

Lemma within_refl a b l : within a b l l.
Proof. by split. Qed.

Lemma within_trans a b l1 l2 l3 :
  within a b l1 l2 -> within a b l2 l3 -> within a b l1 l3.
Proof.
  intros [Hl1 H1] [Hl2 H2]. split; [congruence|].
  intros i Hi. by rewrite H2, H1.
Qed.

Lemma within_wider a b a' b' l l' :
  (a' <= a)%nat -> (b <= b')%nat -> within a b l l' -> within a' b' l l'.
Proof.
  intros Ha Hb [Hl H]. split; [done|]. intros i Hi. apply H. lia.
Qed.

Lemma within_swap a b data i j :
  (a <= i < b)%nat -> (a <= j < b)%nat ->
  within a b data (slices.swap data i j).
Proof.
  intros Hi Hj. split; [apply swap_length|]. intros k Hk.
  destruct (decide (i < length data /\ j < length data)%nat) as [[? ?]|Hout].
  - rewrite swap_lookup by done.
    rewrite !decide_False by lia. done.
  - rewrite swap_out_of_range; [done|lia].
Qed.
End SwapFacts.

(** Every procedure of the sort only swaps elements. *)
Section Permuting.
Context {E : Type} (cmp : E -> E -> Z).
Implicit Types (data : list E).

Local Hint Resolve swap_Permutation : core.

Lemma insertionInner_perm data a j :
  slices.insertionInner cmp data a j ≡ₚ data.
Proof.
  revert data. induction j as [|j IH]; intros data; cbn [slices.insertionInner]; [done|].
  destruct (_ && _); [|done]. by rewrite IH.
Qed.

Lemma insertionOuter_perm n data a i :
  slices.insertionOuter cmp n data a i ≡ₚ data.
Proof.
  revert data i. induction n as [|n IH]; intros data i; cbn [slices.insertionOuter]; [done|].
  by rewrite IH, insertionInner_perm.
Qed.

Lemma insertionSort_perm data a b :
  slices.insertionSortCmpFunc cmp data a b ≡ₚ data.
Proof. apply insertionOuter_perm. Qed.

Lemma siftDownLoop_perm fuel data root hi first :
  slices.siftDownLoop cmp fuel data root hi first ≡ₚ data.
Proof.
  revert data root. induction fuel as [|fuel IH]; intros data root; cbn [slices.siftDownLoop];
    [done|].
  case_match; [done|]. case_match; [done|].
  by rewrite IH.
Qed.

Lemma siftDown_perm data lo hi first :
  slices.siftDownCmpFunc cmp data lo hi first ≡ₚ data.
Proof. apply siftDownLoop_perm. Qed.

Lemma heapBuild_perm data i hi first :
  slices.heapBuild cmp data i hi first ≡ₚ data.
Proof.
  revert data. induction i as [|i IH]; intros data; cbn [slices.heapBuild]; cbn zeta.
  - apply siftDown_perm.
  - by rewrite IH, siftDown_perm.
Qed.

Lemma heapPop_perm n data first : slices.heapPop cmp n data first ≡ₚ data.
Proof.
  revert data. induction n as [|n IH]; intros data; cbn [slices.heapPop]; [done|].
  by rewrite IH, siftDown_perm.
Qed.

Lemma heapSort_perm data a b : slices.heapSortCmpFunc cmp data a b ≡ₚ data.
Proof. unfold slices.heapSortCmpFunc. by rewrite heapPop_perm, heapBuild_perm. Qed.

Lemma partitionLoop_perm fuel up down data i j :
  (slices.partitionLoop fuel up down data i j).1.1 ≡ₚ data.
Proof.
  revert data i j. induction fuel as [|fuel IH]; intros data i j;
    cbn [slices.partitionLoop]; cbn zeta.
  - by case_match.
  - case_match; [done|]. by rewrite IH.
Qed.

Lemma partition_perm data a b pivot :
  (slices.partitionCmpFunc cmp data a b pivot).1.1 ≡ₚ data.
Proof.
  unfold slices.partitionCmpFunc. cbn zeta.
  case_match; cbn.
  - by rewrite !swap_Permutation.
  - match goal with
    | |- context [slices.partitionLoop ?f ?u ?d ?l ?i ?j] =>
        pose proof (partitionLoop_perm f u d l i j) as Hloop;
        destruct (slices.partitionLoop f u d l i j) as [[data' i'] j']
    end.
    cbn in *. by rewrite swap_Permutation, Hloop, !swap_Permutation.
Qed.

Lemma partitionEqual_perm data a b pivot :
  (slices.partitionEqualCmpFunc cmp data a b pivot).1 ≡ₚ data.
Proof.
  unfold slices.partitionEqualCmpFunc. cbn zeta.
  match goal with
  | |- context [slices.partitionLoop ?f ?u ?d ?l ?i ?j] =>
      pose proof (partitionLoop_perm f u d l i j) as Hloop;
      destruct (slices.partitionLoop f u d l i j) as [[data' i'] j']
  end.
  cbn in *. by rewrite Hloop, swap_Permutation.
Qed.

Lemma shiftLeft_perm data j : slices.shiftLeft cmp data j ≡ₚ data.
Proof.
  revert data. induction j as [|j IH]; intros data; cbn [slices.shiftLeft]; [done|].
  case_match; [done|]. by rewrite IH.
Qed.

Lemma shiftRight_perm n data j b : slices.shiftRight cmp n data j b ≡ₚ data.
Proof.
  revert data j. induction n as [|n IH]; intros data j; cbn [slices.shiftRight]; [done|].
  case_match; [|done]. case_match; [done|]. by rewrite IH.
Qed.

Lemma partialInsertionLoop_perm steps data a b i :
  (slices.partialInsertionLoop cmp steps data a b i).1 ≡ₚ data.
Proof.
  revert data i. induction steps as [|steps IH]; intros data i; cbn [slices.partialInsertionLoop];
    [done|].
  case_match; [done|]. case_match; [done|].
  rewrite IH.
  repeat case_match;
    by rewrite ?shiftRight_perm, ?shiftLeft_perm, ?swap_Permutation.
Qed.

Lemma partialInsertionSort_perm data a b :
  (slices.partialInsertionSortCmpFunc cmp data a b).1 ≡ₚ data.
Proof. apply partialInsertionLoop_perm. Qed.

Lemma breakLoop_perm n data random modulus a length idx i :
  slices.breakLoop n data random modulus a length idx i ≡ₚ data.
Proof.
  revert data random i. induction n as [|n IH]; intros data random i; cbn [slices.breakLoop];
    [done|].
  by rewrite IH.
Qed.

Lemma breakPatterns_perm data a b :
  slices.breakPatternsCmpFunc data a b ≡ₚ data.
Proof.
  unfold slices.breakPatternsCmpFunc. case_match; [|done].
  apply breakLoop_perm.
Qed.

Lemma reverseLoop_perm n data i j : slices.reverseLoop n data i j ≡ₚ data.
Proof.
  revert data i j. induction n as [|n IH]; intros data i j; cbn [slices.reverseLoop]; [done|].
  case_match; [|done]. by rewrite IH.
Qed.

Lemma reverseRange_perm data a b :
  slices.reverseRangeCmpFunc data a b ≡ₚ data.
Proof. apply reverseLoop_perm. Qed.

Lemma pdqsort_perm fuel data a b limit wasBalanced wasPartitioned :
  slices.pdqsortCmpFunc cmp fuel data a b limit wasBalanced wasPartitioned
  ≡ₚ data.
Proof.
  revert data a b limit wasBalanced wasPartitioned.
  induction fuel as [|fuel IH];
    intros data a b limit wasBalanced wasPartitioned; cbn [slices.pdqsortCmpFunc]; cbn zeta.
  - case_match; [apply insertionSort_perm|].
    case_match; [apply heapSort_perm|done].
  - case_match; [apply insertionSort_perm|].
    case_match; [apply heapSort_perm|].
    set (broken := if negb wasBalanced
                   then (slices.breakPatternsCmpFunc data a b, (limit - 1)%nat)
                   else (data, limit)).
    assert (broken.1 ≡ₚ data) as Hbroken.
    { unfold broken. case_match; [apply breakPatterns_perm|done]. }
    destruct broken as [data1 limit1]. cbn in Hbroken.
    destruct (slices.choosePivotCmpFunc cmp data1 a b) as [pivot hint].
    set (reversed := match hint with
                     | slices.decreasingHint =>
                         (slices.reverseRangeCmpFunc data1 a b,
                          (b - 1 - (pivot - a))%nat, slices.increasingHint)
                     | _ => (data1, pivot, hint)
                     end).
    assert (reversed.1.1 ≡ₚ data) as Hrev.
    { unfold reversed. destruct hint; cbn [slices.pdqsortCmpFunc]; try done.
      by rewrite reverseRange_perm. }
    destruct reversed as [[data2 pivot2] hint2]. cbn in Hrev.
    set (partial := if wasBalanced && wasPartitioned
                       && match hint2 with
                          | slices.increasingHint => true
                          | _ => false
                          end
                    then slices.partialInsertionSortCmpFunc cmp data2 a b
                    else (data2, false)).
    assert (partial.1 ≡ₚ data) as Hpartial.
    { unfold partial. destruct (_ && _); [|done].
      by rewrite partialInsertionSort_perm. }
    destruct partial as [data3 sorted]. cbn in Hpartial.
    destruct sorted; [done|].
    destruct (_ && _).
    + pose proof (partitionEqual_perm data3 a b pivot2) as Heq.
      destruct (slices.partitionEqualCmpFunc cmp data3 a b pivot2)
        as [data4 mid]. cbn in Heq. by rewrite IH, Heq.
    + pose proof (partition_perm data3 a b pivot2) as Hpart.
      destruct (slices.partitionCmpFunc cmp data3 a b pivot2)
        as [[data4 mid] already]. cbn in Hpart.
      case_match; by rewrite !IH, Hpart.
Qed.
End Permuting.

Lemma SortFunc_Permutation {E} (cmp : E -> E -> Z) (l : list E) :
  slices.SortFunc cmp l ≡ₚ l.
Proof. apply pdqsort_perm. Qed.

(** What a strict weak ordering gives. *)
Section OrderFacts.
Context {E : Type} (cmp : E -> E -> Z) (Hswo : StrictWeakOrder cmp).
Implicit Types (x y z : E).

Lemma leBy_refl x : leBy cmp x x.
Proof. apply (swo_irrefl _ Hswo). Qed.

Lemma leBy_trans x y z : leBy cmp x y -> leBy cmp y z -> leBy cmp x z.
Proof. unfold leBy. intros H1 H2. by apply (swo_incomparable _ Hswo z y x). Qed.

Lemma lt_leBy x y : cmp x y < 0 -> leBy cmp x y.
Proof.
  intros H1 H2. apply (swo_irrefl _ Hswo x).
  by apply (swo_trans _ Hswo x y x).
Qed.

Lemma not_leBy_lt x y : ~ leBy cmp x y -> cmp y x < 0.
Proof. unfold leBy. lia. Qed.

Lemma lt_leBy_trans x y z : cmp x y < 0 -> leBy cmp y z -> cmp x z < 0.
Proof.
  intros H1 H2. apply not_leBy_lt. intros H3.
  by apply (leBy_trans _ _ _ H2) in H3.
Qed.

Lemma leBy_lt_trans x y z : leBy cmp x y -> cmp y z < 0 -> cmp x z < 0.
Proof.
  intros H1 H2. apply not_leBy_lt. intros H3.
  by apply (leBy_trans _ _ _ H3) in H1.
Qed.

Lemma leBy_total x y : leBy cmp x y \/ leBy cmp y x.
Proof.
  destruct (decide (cmp x y < 0)) as [H|H]; [left; by apply lt_leBy|by right].
Qed.
End OrderFacts.

(** Reading comparisons and ranges by index. *)
Section Ranges.
Context {E : Type} (cmp : E -> E -> Z).
Implicit Types (l data : list E) (i j k a b : nat).

Lemma lessAt_true data i j :
  slices.lessAt cmp data i j = true
  <-> exists x y, data !! i = Some x /\ data !! j = Some y /\ cmp x y < 0.
Proof.
  unfold slices.lessAt. destruct (data !! i) as [x|], (data !! j) as [y|].
  - rewrite Z.ltb_lt. split; [by exists x, y|].
    by intros (? & ? & [= <-] & [= <-] & ?).
  - split; [done|]. by intros (? & ? & _ & ? & _).
  - split; [done|]. by intros (? & ? & ? & _).
  - split; [done|]. by intros (? & ? & ? & _).
Qed.

Lemma lessAt_eq data i j x y :
  data !! i = Some x -> data !! j = Some y ->
  slices.lessAt cmp data i j = (cmp x y <? 0).
Proof. unfold slices.lessAt. by intros -> ->. Qed.

Lemma slices_lessAt_snoc l1 y x l2 :
  slices.lessAt cmp (l1 ++ y :: x :: l2) (S (length l1)) (length l1)
  = (cmp x y <? 0).
Proof.
  apply lessAt_eq.
  - replace (S (length l1)) with (length l1 + 1)%nat by lia.
    by rewrite lookup_app_r, Nat.add_comm, Nat.add_sub by lia.
  - by rewrite list_lookup_middle.
Qed.

Lemma sortedBy_rangeSorted l :
  sortedBy cmp l <-> rangeSorted cmp 0 (length l) l.
Proof.
  unfold sortedBy, rangeSorted. induction l as [|z l IH].
  - split; [|constructor]. intros _ i j x y _ _ _ Hx. done.
  - rewrite StronglySorted_cons, IH. split.
    + intros [Hall Hs] [|i] [|j] x y Hi Hij Hj Hx Hy; try lia; cbn in *.
      * injection Hx as ->. rewrite Forall_forall in Hall.
        apply Hall. by apply list_elem_of_lookup_2 in Hy.
      * apply (Hs i j); try done; lia.
    + intros H. split.
      * apply Forall_forall. intros y Hy.
        apply list_elem_of_lookup_1 in Hy as [j Hj].
        apply (H 0%nat (S j)); try done; try lia.
        apply lookup_lt_Some in Hj. cbn. lia.
      * intros i j x y Hi Hij Hj Hx Hy.
        apply (H (S i) (S j)); try done; cbn; lia.
Qed.

Lemma within_rangeAll_outside (P : E -> Prop) a b a' b' l l' :
  within a b l l' -> (b' <= a \/ b <= a')%nat ->
  rangeAll P a' b' l -> rangeAll P a' b' l'.
Proof.
  intros [_ Hsame] Hout Hall k x Ha Hb Hk.
  apply (Hall k); try done. rewrite <- Hsame; [done|lia].
Qed.

Lemma within_rangeSorted_outside a b a' b' l l' :
  within a b l l' -> (b' <= a \/ b <= a')%nat ->
  rangeSorted cmp a' b' l -> rangeSorted cmp a' b' l'.
Proof.
  intros [_ Hsame] Hout Hs i j x y Hi Hij Hj Hx Hy.
  apply (Hs i j); try done; rewrite <- Hsame; try done; lia.
Qed.
End Ranges.

(** The elements of a range, as a list. *)
Section Segments.
Context {E : Type}.
Implicit Types (l data : list E) (i j k a b : nat).

Lemma segment_lookup a b l k :
  (k < b - a)%nat -> take (b - a) (drop a l) !! k = l !! (a + k)%nat.
Proof. intros Hk. by rewrite lookup_take_lt, lookup_drop. Qed.

Lemma segment_split a b l :
  (a <= b)%nat -> l = take a l ++ take (b - a) (drop a l) ++ drop b l.
Proof.
  intros Hab. rewrite <- (take_drop a l) at 1. f_equal.
  rewrite <- (take_drop (b - a) (drop a l)) at 1. f_equal.
  rewrite drop_drop. f_equal. lia.
Qed.

Lemma within_take a b l l' : within a b l l' -> take a l' = take a l.
Proof.
  intros [_ Hsame]. apply list_eq. intros i.
  destruct (decide (i < a)%nat).
  - rewrite !lookup_take_lt by done. apply Hsame. lia.
  - by rewrite !lookup_take_ge by lia.
Qed.

Lemma within_drop a b l l' : within a b l l' -> drop b l' = drop b l.
Proof.
  intros [_ Hsame]. apply list_eq. intros i.
  rewrite !lookup_drop. apply Hsame. lia.
Qed.

Lemma within_segment_perm a b l l' :
  (a <= b)%nat -> within a b l l' -> l' ≡ₚ l ->
  take (b - a) (drop a l') ≡ₚ take (b - a) (drop a l).
Proof.
  intros Hab Hw Hperm.
  pose proof (segment_split a b l Hab) as Hl.
  pose proof (segment_split a b l' Hab) as Hl'.
  rewrite (within_take _ _ _ _ Hw), (within_drop _ _ _ _ Hw) in Hl'.
  assert (take a l ++ take (b - a) (drop a l') ++ drop b l
          ≡ₚ take a l ++ take (b - a) (drop a l) ++ drop b l) as Hp.
  { by rewrite <- Hl, <- Hl'. }
  apply Permutation_app_inv_l in Hp.
  by apply Permutation_app_inv_r in Hp.
Qed.

Lemma rangeAll_segment (P : E -> Prop) a b l :
  (b <= length l)%nat ->
  rangeAll P a b l <-> Forall P (take (b - a) (drop a l)).
Proof.
  intros Hb. rewrite Forall_lookup. split.
  - intros Hall k x Hk.
    assert (k < b - a)%nat as Hlt.
    { apply lookup_lt_Some in Hk. rewrite length_take in Hk. lia. }
    rewrite segment_lookup in Hk by done.
    apply (Hall (a + k)%nat); [lia|lia|done].
  - intros Hall k x Ha Hk Hx. apply (Hall (k - a)%nat).
    rewrite segment_lookup by lia. by replace (a + (k - a))%nat with k by lia.
Qed.

(** A property of all elements of a range survives a permutation within
    the range. *)
Lemma within_rangeAll (P : E -> Prop) a b l l' :
  (a <= b <= length l)%nat -> within a b l l' -> l' ≡ₚ l ->
  rangeAll P a b l -> rangeAll P a b l'.
Proof.
  intros [Hab Hb] Hw Hperm.
  rewrite !rangeAll_segment; [|by rewrite (proj1 Hw)|done].
  by rewrite (within_segment_perm a b l l' Hab Hw Hperm).
Qed.

Lemma swap_adjacent l1 x y l2 :
  slices.swap (l1 ++ y :: x :: l2) (S (length l1)) (length l1)
  = l1 ++ x :: y :: l2.
Proof.
  induction l1 as [|z l1 IH]; [done|].
  revert IH. unfold slices.swap. cbn.
  destruct ((l1 ++ y :: x :: l2) !! S (length l1)),
    ((l1 ++ y :: x :: l2) !! length l1); cbn; intros IH; by f_equal.
Qed.
End Segments.

(** [insertionSortCmpFunc] is insertion sort on the range. *)
Section InsertionSort.
Context {E : Type} (cmp : E -> E -> Z).
Implicit Types (l data front pre post mid back : list E) (x y : E).

Lemma insertLast_nil x : insertLast cmp x [] = [x].
Proof. done. Qed.

Lemma insertLast_snoc x pre y :
  insertLast cmp x (pre ++ [y])
  = if cmp x y <? 0 then insertLast cmp x pre ++ [y] else pre ++ [y; x].
Proof.
  unfold insertLast. rewrite rev_unit. cbn [insertRev].
  destruct (cmp x y <? 0); cbn [rev].
  - done.
  - by rewrite rev_involutive, <- (assoc_L (++)).
Qed.

Lemma insertionInner_segment front pre x post :
  slices.insertionInner cmp (front ++ pre ++ x :: post) (length front)
                        (length front + length pre)
  = front ++ insertLast cmp x pre ++ post.
Proof.
  revert post. induction pre as [|y pre IH] using rev_ind; intros post.
  - rewrite Nat.add_0_r. cbn [app length].
    destruct (length front) as [|a] eqn:Ha; [done|].
    cbn [slices.insertionInner]. by rewrite Nat.ltb_irrefl.
  - rewrite length_app. cbn [length].
    replace (length front + (length pre + 1))%nat
      with (S (length front + length pre)) by lia.
    cbn [slices.insertionInner].
    replace (length front <? S (length front + length pre))%nat with true
      by (symmetry; apply Nat.ltb_lt; lia).
    cbn [andb]. rewrite insertLast_snoc.
    assert (front ++ (pre ++ [y]) ++ x :: post
            = (front ++ pre) ++ y :: x :: post) as Hdata.
    { by rewrite <- !(assoc_L (++)). }
    rewrite Hdata.
    replace (length front + length pre)%nat with (length (front ++ pre))
      by (by rewrite length_app).
    rewrite (slices_lessAt_snoc cmp (front ++ pre) y x post).
    destruct (cmp x y <? 0).
    + rewrite swap_adjacent. rewrite <- (assoc_L (++)).
      rewrite length_app, IH. by rewrite <- !(assoc_L (++)).
    + by rewrite <- !(assoc_L (++)).
Qed.

Lemma insertRev_length x l : length (insertRev cmp x l) = S (length l).
Proof.
  induction l as [|y l IH]; [done|]. cbn.
  destruct (cmp x y <? 0); cbn; by rewrite ?IH.
Qed.

Lemma insertLast_length x pre :
  length (insertLast cmp x pre) = S (length pre).
Proof. unfold insertLast. by rewrite length_rev, insertRev_length, length_rev. Qed.

Lemma insertionOuter_segment front pre rest back :
  slices.insertionOuter cmp (length rest) (front ++ pre ++ rest ++ back)
                        (length front) (length front + length pre)
  = front ++ fold_left (fun pre x => insertLast cmp x pre) rest pre ++ back.
Proof.
  revert pre. induction rest as [|x rest IH]; intros pre; [done|].
  cbn [length slices.insertionOuter fold_left app].
  rewrite insertionInner_segment.
  pose proof (insertLast_length x pre) as Hlen.
  replace (S (length front + length pre))
    with (length front + length (insertLast cmp x pre))%nat by lia.
  apply IH.
Qed.

Lemma insertionSort_segment front mid back :
  slices.insertionSortCmpFunc cmp (front ++ mid ++ back) (length front)
                              (length front + length mid)
  = front ++ insertionSorted cmp mid ++ back.
Proof.
  unfold slices.insertionSortCmpFunc, insertionSorted.
  destruct mid as [|x rest].
  - rewrite Nat.add_0_r.
    replace (length front - (length front + 1))%nat with 0%nat by lia. done.
  - cbn [length fold_left]. rewrite insertLast_nil.
    replace (length front + S (length rest) - (length front + 1))%nat
      with (length rest) by lia.
    apply (insertionOuter_segment front [x] rest back).
Qed.

Lemma framed_within front mid mid' back :
  length mid' = length mid ->
  within (length front) (length front + length mid)
         (front ++ mid ++ back) (front ++ mid' ++ back).
Proof.
  intros Hlen. split; [by rewrite !length_app, Hlen|].
  intros i [Hi|Hi].
  - by rewrite !lookup_app_l.
  - rewrite !(lookup_app_r front) by lia.
    rewrite !lookup_app_r by lia. by rewrite Hlen.
Qed.

Lemma framed_rangeSorted front mid back :
  sortedBy cmp mid ->
  rangeSorted cmp (length front) (length front + length mid)
              (front ++ mid ++ back).
Proof.
  intros Hs i j x y Hi Hij Hj.
  rewrite !(lookup_app_r front) by lia.
  rewrite !lookup_app_l by lia.
  apply sortedBy_rangeSorted in Hs. apply Hs; lia.
Qed.
End InsertionSort.

Section InsertionSortSorts.
Context {E : Type} (cmp : E -> E -> Z) (Hswo : StrictWeakOrder cmp).
Implicit Types (l data pre : list E) (x y : E).

Lemma insertLast_split x pre :
  exists l1 l2,
    pre = l1 ++ l2 /\ insertLast cmp x pre = l1 ++ x :: l2
    /\ Forall (fun y => cmp x y < 0) l2
    /\ forall y, last l1 = Some y -> ~ cmp x y < 0.
Proof.
  induction pre as [|y pre IH] using rev_ind.
  - exists [], []. by repeat split.
  - rewrite insertLast_snoc. destruct (Z.ltb_spec (cmp x y) 0) as [Hlt|Hge].
    + destruct IH as (l1 & l2 & -> & -> & Hall & Hlast).
      exists l1, (l2 ++ [y]). rewrite <- !(assoc_L (++)).
      split; [done|]. split; [done|]. split; [|done].
      apply Forall_app. split; [done|]. by constructor.
    + exists (pre ++ [y]), []. rewrite app_nil_r, <- (assoc_L (++)).
      split; [done|]. split; [done|]. split; [constructor|].
      intros z. rewrite last_snoc. intros [= <-]. lia.
Qed.

Lemma insertLast_sortedBy x pre :
  sortedBy cmp pre -> sortedBy cmp (insertLast cmp x pre).
Proof.
  unfold sortedBy. intros Hs.
  destruct (insertLast_split x pre) as (l1 & l2 & -> & -> & Hall & Hlast).
  apply StronglySorted_app in Hs as (Hcross & Hs1 & Hs2).
  apply StronglySorted_app. split; [|split; [done|]].
  - intros x1 x2 Hx1 Hx2. apply elem_of_cons in Hx2 as [->|Hx2];
      [|by apply Hcross].
    destruct l1 as [|z l1 _] using rev_ind; [by apply not_elem_of_nil in Hx1|].
    specialize (Hlast z). rewrite last_snoc in Hlast.
    specialize (Hlast eq_refl).
    apply elem_of_app in Hx1 as [Hx1|Hx1].
    + apply (leBy_trans cmp Hswo _ z); [|done].
      apply StronglySorted_app in Hs1 as (Hc & _ & _).
      apply Hc; [done|]. by apply list_elem_of_singleton.
    + by apply list_elem_of_singleton in Hx1 as ->.
  - apply StronglySorted_cons. split; [|done].
    eapply Forall_impl; [done|]. intros y Hy. by apply lt_leBy.
Qed.

Lemma insertionSorted_sortedBy l : sortedBy cmp (insertionSorted cmp l).
Proof.
  unfold insertionSorted.
  assert (sortedBy cmp (@nil E)) as Hnil by constructor.
  revert Hnil. generalize (@nil E) as pre.
  induction l as [|x l IH]; intros pre Hpre; [done|].
  cbn [fold_left]. by apply IH, insertLast_sortedBy.
Qed.

Lemma insertionSorted_length l : length (insertionSorted cmp l) = length l.
Proof.
  unfold insertionSorted.
  assert (forall pre, length (fold_left (fun pre x => insertLast cmp x pre) l pre)
                      = (length pre + length l)%nat) as H; [|by rewrite H].
  induction l as [|x l IH]; intros pre; cbn [fold_left length]; [lia|].
  rewrite IH, insertLast_length. lia.
Qed.

Lemma insertionSort_spec data a b :
  (a <= b <= length data)%nat ->
  within a b data (slices.insertionSortCmpFunc cmp data a b)
  /\ rangeSorted cmp a b (slices.insertionSortCmpFunc cmp data a b).
Proof.
  intros [Hab Hb].
  pose proof (segment_split a b data Hab) as Hdata.
  set (front := take a data) in *.
  set (mid := take (b - a) (drop a data)) in *.
  set (back := drop b data) in *.
  assert (length front = a) as Hfront
      by (unfold front; rewrite length_take; lia).
  assert (length mid = (b - a)%nat) as Hmid
      by (unfold mid; rewrite length_take, length_drop; lia).
  assert (b = length front + length mid)%nat as Hb' by lia.
  clearbody front mid back. subst data a b.
  rewrite insertionSort_segment. split.
  - apply framed_within, insertionSorted_length.
  - rewrite <- (insertionSorted_length mid).
    apply framed_rangeSorted, insertionSorted_sortedBy.
Qed.
End InsertionSortSorts.

(** [heapSortCmpFunc] sorts its range. *)
Section HeapSort.
Context {E : Type} (cmp : E -> E -> Z) (Hswo : StrictWeakOrder cmp).
Implicit Types (l data : list E) (x y : E).
Local Open Scope nat_scope.

Ltac lookup_swap :=
  rewrite !swap_lookup by lia; repeat case_decide; try lia.

Lemma siftDownLoop_spec first lo hi fuel data root :
  first + hi <= length data -> lo <= root -> hi <= fuel + root ->
  heapButAt cmp first lo hi root data ->
  heapFrom cmp first lo hi (slices.siftDownLoop cmp fuel data root hi first)
  /\ within (first + lo) (first + hi) data
            (slices.siftDownLoop cmp fuel data root hi first).
Proof.
  revert data root.
  induction fuel as [|fuel IH]; intros data root Hlen Hlo Hfuel [Hheap Hgrand];
    cbn [slices.siftDownLoop]; cbn zeta.
  { split; [|apply within_refl].
    intros p c x y Hp Hc Hhi. destruct (decide (p = root)) as [->|Hne]; [lia|].
    by apply Hheap. }
  destruct (Nat.leb_spec hi (2 * root + 1)) as [Hleaf|Hchild].
  { split; [|apply within_refl].
    intros p c x y Hp Hc Hhi. destruct (decide (p = root)) as [->|Hne]; [lia|].
    by apply Hheap. }
  set (child := if (2 * root + 1 + 1 <? hi)
                   && slices.lessAt cmp data (first + (2 * root + 1))
                                    (first + (2 * root + 1) + 1)
                then 2 * root + 1 + 1 else 2 * root + 1).
  destruct (lookup_lt_is_Some_2 data (first + root)) as [xr Hxr]; [lia|].
  assert (child < hi /\ (child = 2 * root + 1 \/ child = 2 * root + 2)
          /\ exists xc, data !! (first + child) = Some xc
               /\ forall c xo, c = 2 * root + 1 \/ c = 2 * root + 2 -> c < hi ->
                               data !! (first + c) = Some xo -> leBy cmp xo xc)
    as (Hchi & Hcc & xc & Hxc & Hbig).
  { unfold child.
    destruct (Nat.ltb_spec (2 * root + 1 + 1) hi) as [Htwo|Hone]; cbn [andb].
    - destruct (lookup_lt_is_Some_2 data (first + (2 * root + 1)))
        as [x1 Hx1]; [lia|].
      destruct (lookup_lt_is_Some_2 data (first + (2 * root + 1) + 1))
        as [x2 Hx2]; [lia|].
      rewrite (lessAt_eq cmp _ _ _ _ _ Hx1 Hx2).
      destruct (Z.ltb_spec (cmp x1 x2) 0) as [Hlt|Hge].
      + split; [lia|]. split; [lia|]. exists x2.
        replace (first + (2 * root + 1 + 1)) with (first + (2 * root + 1) + 1)
          by lia.
        split; [done|]. intros c xo [->| ->] _ Hxo.
        * rewrite Hx1 in Hxo. injection Hxo as <-. by apply lt_leBy.
        * replace (first + (2 * root + 2)) with (first + (2 * root + 1) + 1)
            in Hxo by lia.
          rewrite Hx2 in Hxo. injection Hxo as <-. by apply leBy_refl.
      + split; [lia|]. split; [lia|]. exists x1. split; [done|].
        intros c xo [->| ->] _ Hxo.
        * rewrite Hx1 in Hxo. injection Hxo as <-. by apply leBy_refl.
        * replace (first + (2 * root + 2)) with (first + (2 * root + 1) + 1)
            in Hxo by lia.
          rewrite Hx2 in Hxo. injection Hxo as <-. unfold leBy. lia.
    - split; [lia|]. split; [lia|].
      destruct (lookup_lt_is_Some_2 data (first + (2 * root + 1)))
        as [x1 Hx1]; [lia|].
      exists x1. split; [done|]. intros c xo [->| ->] Hc Hxo; [|lia].
      rewrite Hx1 in Hxo. injection Hxo as <-. by apply leBy_refl. }
  clearbody child.
  rewrite (lessAt_eq cmp _ _ _ _ _ Hxr Hxc).
  destruct (Z.ltb_spec (cmp xr xc) 0) as [Hlt|Hge]; cbn [negb].
  - (* the root moves down *)
    destruct (IH (slices.swap data (first + root) (first + child)) child)
      as [Hh Hw].
    + by rewrite swap_length.
    + lia.
    + lia.
    + split.
      * intros p c x y Hp Hne Hc Hhi.
        destruct (decide (p = root)) as [->|Hpr].
        -- lookup_swap; rewrite ?Hxr, ?Hxc; intros [= <-] Hy.
           ++ injection Hy as <-. by apply lt_leBy.
           ++ by apply (Hbig c).
        -- destruct (decide (c = root)) as [->|Hcr].
           ++ lookup_swap. rewrite ?Hxr, ?Hxc. intros Hx [= <-].
              by apply (Hgrand p child).
           ++ lookup_swap. by apply Hheap.
      * intros q c x y Hq Hr Hc Hhi.
        assert (q = root) as -> by lia.
        lookup_swap. rewrite ?Hxr, ?Hxc. intros Hx Hy.
        injection Hx as <-. apply (Hheap child c); try done; lia.
    + split; [done|].
      eapply within_trans; [|done]. apply within_swap; lia.
  - split; [|apply within_refl].
    intros p c x y Hp Hc Hhi Hx Hy.
    destruct (decide (p = root)) as [->|Hne]; [|by apply (Hheap p c)].
    rewrite Hxr in Hx. injection Hx as <-.
    apply (leBy_trans cmp Hswo _ xc); [by apply (Hbig c)|]. unfold leBy. lia.
Qed.

Lemma siftDown_spec first lo hi data :
  first + hi <= length data ->
  heapFrom cmp first (S lo) hi data ->
  heapFrom cmp first lo hi (slices.siftDownCmpFunc cmp data lo hi first)
  /\ within (first + lo) (first + hi) data
            (slices.siftDownCmpFunc cmp data lo hi first).
Proof.
  intros Hlen Hheap. apply siftDownLoop_spec; [done|lia|lia|].
  split.
  - intros p c x y Hp Hne. apply Hheap. lia.
  - intros q c x y Hq Hr. lia.
Qed.

Lemma heapBuild_spec first hi i data :
  first + hi <= length data ->
  heapFrom cmp first (S i) hi data ->
  heapFrom cmp first 0 hi (slices.heapBuild cmp data i hi first)
  /\ within first (first + hi) data (slices.heapBuild cmp data i hi first).
Proof.
  revert data. induction i as [|i IH]; intros data Hlen Hheap;
    cbn [slices.heapBuild]; cbn zeta;
    destruct (siftDown_spec first _ hi data Hlen Hheap) as [Hh Hw].
  - split; [done|]. eapply within_wider; [| |done]; lia.
  - destruct (IH (slices.siftDownCmpFunc cmp data (S i) hi first))
      as [Hh' Hw']; [by rewrite (proj1 Hw)|done|].
    split; [done|]. eapply within_trans; [|done].
    eapply within_wider; [| |done]; lia.
Qed.

Lemma heap_root_max first n data k x r :
  heapFrom cmp first 0 n data -> first + n <= length data -> k < n ->
  data !! (first + k) = Some x -> data !! first = Some r -> leBy cmp x r.
Proof.
  intros Hheap Hlen. revert x.
  induction k as [k IH] using lt_wf_ind. intros x Hk Hx Hr.
  destruct k as [|k].
  { rewrite Nat.add_0_r, Hr in Hx. injection Hx as <-. by apply leBy_refl. }
  destruct (lookup_lt_is_Some_2 data (first + k / 2)) as [xp Hxp].
  { assert (k / 2 <= k) by (apply Nat.Div0.div_le_upper_bound; lia). lia. }
  assert (k / 2 <= k) as Hle by (apply Nat.Div0.div_le_upper_bound; lia).
  pose proof (Nat.div_mod_eq k 2) as Hdm.
  pose proof (Nat.mod_upper_bound k 2) as Hmod.
  apply (leBy_trans cmp Hswo _ xp).
  - apply (Hheap (k / 2) (S k)); try done; lia.
  - apply (IH (k / 2)); try done; lia.
Qed.

Lemma heapPop_spec first hi n data :
  n <= hi -> first + hi <= length data ->
  heapFrom cmp first 0 n data ->
  rangeSorted cmp (first + n) (first + hi) data ->
  (forall k j x y, k < n -> n <= j < hi ->
                   data !! (first + k) = Some x ->
                   data !! (first + j) = Some y -> leBy cmp x y) ->
  rangeSorted cmp first (first + hi) (slices.heapPop cmp n data first)
  /\ within first (first + hi) data (slices.heapPop cmp n data first).
Proof.
  revert data. induction n as [|i IH];
    intros data Hn Hlen Hheap Hsorted Hcross; cbn [slices.heapPop].
  { rewrite Nat.add_0_r in Hsorted. split; [done|apply within_refl]. }
  set (data1 := slices.swap data first (first + i)).
  assert (within first (first + hi) data data1) as Hw1
      by (apply within_swap; lia).
  assert (length data1 = length data) as Hlen1 by apply swap_length.
  destruct (lookup_lt_is_Some_2 data first) as [r Hr]; [lia|].
  destruct (lookup_lt_is_Some_2 data (first + i)) as [z Hz]; [lia|].
  assert (forall k, data1 !! k
                    = if decide (k = first + i) then Some r
                      else if decide (k = first) then Some z
                           else data !! k) as Hdata1.
  { intros k. unfold data1. rewrite swap_lookup by lia.
    repeat case_decide; congruence. }
  destruct (siftDown_spec first 0 i data1) as [Hh2 Hw2].
  { lia. }
  { intros p c x y Hp Hc Hci. rewrite !Hdata1.
    repeat case_decide; try lia. apply Hheap; lia. }
  set (data2 := slices.siftDownCmpFunc cmp data1 0 i first) in *.
  rewrite Nat.add_0_r in Hw2.
  assert (rangeSorted cmp (first + i) (first + hi) data1) as Hs1.
  { intros j1 j2 x y Hj1 Hj12 Hj2. rewrite !Hdata1.
    repeat case_decide; try lia.
    - intros [= <-] Hy.
      apply (Hcross 0 (j2 - first)); try lia.
      + by rewrite Nat.add_0_r.
      + by replace (first + (j2 - first)) with j2 by lia.
    - apply Hsorted; lia. }
  assert (forall j y, i <= j < hi -> data1 !! (first + j) = Some y ->
                      rangeAll (fun x => leBy cmp x y) first (first + i) data1)
    as Hc1.
  { intros j y Hj Hy k x Hk Hki Hx.
    assert (exists k', k' < S i /\ data !! (first + k') = Some x)
      as (k' & Hk' & Hxk').
    { rewrite Hdata1 in Hx. repeat case_decide; try lia.
      - exists i. split; [lia|congruence].
      - exists (k - first). split; [lia|].
        by replace (first + (k - first)) with k by lia. }
    rewrite Hdata1 in Hy. repeat case_decide; try lia.
    - injection Hy as <-.
      apply (heap_root_max first (S i) data k'); try done; lia.
    - apply (Hcross k' j); try done; lia. }
  destruct (IH data2) as [Hs Hw].
  - lia.
  - by rewrite (proj1 Hw2), Hlen1.
  - done.
  - eapply within_rangeSorted_outside; [done| |done]. lia.
  - intros k j x y Hk Hj Hx Hy.
    rewrite (proj2 Hw2) in Hy by lia.
    assert (rangeAll (fun x => leBy cmp x y) first (first + i) data2) as Hall.
    { apply (within_rangeAll _ first (first + i) data1); try done.
      - lia.
      - apply siftDown_perm.
      - by apply (Hc1 j). }
    apply (Hall (first + k)); try done; lia.
  - split; [done|].
    eapply within_trans; [done|]. eapply within_trans; [|done].
    eapply within_wider; [| |done]; lia.
Qed.

Lemma heapSort_spec data a b :
  a <= b <= length data ->
  within a b data (slices.heapSortCmpFunc cmp data a b)
  /\ rangeSorted cmp a b (slices.heapSortCmpFunc cmp data a b).
Proof.
  intros [Hab Hb]. unfold slices.heapSortCmpFunc. cbn zeta.
  destruct (heapBuild_spec a (b - a) ((b - a - 1) / 2) data) as [Hh Hw].
  { lia. }
  { intros p c x y Hp Hc Hhi.
    pose proof (Nat.div_mod_eq (b - a - 1) 2) as Hdm.
    pose proof (Nat.mod_upper_bound (b - a - 1) 2) as Hmod. lia. }
  set (data1 := slices.heapBuild cmp data ((b - a - 1) / 2) (b - a) a) in *.
  destruct (heapPop_spec a (b - a) (b - a) data1) as [Hs Hw'].
  - lia.
  - rewrite (proj1 Hw). lia.
  - done.
  - intros i j x y Hi Hij Hj. lia.
  - intros k j x y Hk Hj. lia.
  - replace (a + (b - a)) with b in * by lia.
    split; [|done]. by eapply within_trans.
Qed.
End HeapSort.

(** The partitions. *)
Section Partition.
Context {E : Type} (cmp : E -> E -> Z).
Implicit Types (l data : list E) (x y p : E) (low : E -> bool).
Local Open Scope nat_scope.

Lemma scanUp_spec n stop i j :
  j + 1 - i <= n -> i <= j + 1 ->
  i <= slices.scanUp n stop i j <= j + 1
  /\ (forall k, i <= k < slices.scanUp n stop i j -> stop k = true)
  /\ (slices.scanUp n stop i j <= j ->
      stop (slices.scanUp n stop i j) = false).
Proof.
  revert i. induction n as [|n IH]; intros i Hn Hi; cbn [slices.scanUp].
  { split; [lia|]. split; intros; lia. }
  destruct (Nat.leb_spec i j) as [Hij|Hij]; cbn [andb].
  - destruct (stop i) eqn:Hstop.
    + destruct (IH (S i)) as (Hr & Hall & Hend); [lia|lia|].
      split; [lia|]. split; [|done].
      intros k Hk. destruct (decide (k = i)) as [->|]; [done|].
      apply Hall. lia.
    + split; [lia|]. split; [intros; lia|done].
  - split; [lia|]. split; intros; lia.
Qed.

Lemma scanDown_spec stop i j :
  1 <= i -> i <= j + 1 ->
  i <= slices.scanDown stop i j + 1 /\ slices.scanDown stop i j <= j
  /\ (forall k, slices.scanDown stop i j < k <= j -> stop k = true)
  /\ (i <= slices.scanDown stop i j ->
      stop (slices.scanDown stop i j) = false).
Proof.
  intros Hi. induction j as [|j IH]; intros Hj; cbn [slices.scanDown].
  { split; [lia|]. split; [lia|]. split; intros; lia. }
  destruct (Nat.leb_spec i (S j)) as [Hij|Hij]; cbn [andb].
  - destruct (stop (S j)) eqn:Hstop.
    + destruct IH as (Hr & Hle & Hall & Hend); [lia|].
      split; [lia|]. split; [lia|]. split; [|done].
      intros k Hk. destruct (decide (k = S j)) as [->|]; [done|].
      apply Hall. lia.
    + split; [lia|]. split; [lia|]. split; [intros; lia|done].
  - split; [lia|]. split; [lia|]. split; intros; lia.
Qed.

(** The loop of the two partitions, for scanning conditions that test
    one property [low] of the element: the low elements end up before
    the others. *)
Lemma partitionLoop_spec low up down a b p fuel data i j :
  (forall d k x, d !! a = Some p -> d !! k = Some x ->
                 up d k = low x /\ down d k = negb (low x)) ->
  a < i -> i <= j + 1 -> j < b -> b <= length data ->
  j + 1 - i <= fuel ->
  data !! a = Some p ->
  rangeAll (fun x => low x = true) (a + 1) i data ->
  rangeAll (fun x => low x = false) (j + 1) b data ->
  exists data' i',
    slices.partitionLoop fuel up down data i j = (data', i', i' - 1)
    /\ i <= i' <= j + 1
    /\ within (a + 1) b data data'
    /\ rangeAll (fun x => low x = true) (a + 1) i' data'
    /\ rangeAll (fun x => low x = false) i' b data'.
Proof.
  intros Hcond. revert data i j.
  induction fuel as [|fuel IH];
    intros data i j Hai Hij Hjb Hlen Hfuel Hp Hlow Hhigh;
    cbn [slices.partitionLoop]; cbn zeta.
  - assert (i = j + 1) as -> by lia.
    destruct (scanUp_spec (S j - (j + 1)) (up data) (j + 1) j)
      as (Hr & _ & _); [lia|lia|].
    assert (slices.scanUp (S j - (j + 1)) (up data) (j + 1) j = j + 1) as ->
        by lia.
    destruct (scanDown_spec (down data) (j + 1) j) as (Hr' & Hle & _ & _);
      [lia|lia|].
    assert (slices.scanDown (down data) (j + 1) j = j) as -> by lia.
    replace (j <? j + 1) with true by (symmetry; apply Nat.ltb_lt; lia).
    exists data, (j + 1). replace (j + 1 - 1) with j by lia.
    split; [done|]. split; [lia|]. split; [apply within_refl|]. done.
  - destruct (scanUp_spec (S j - i) (up data) i j) as (Hr & Hall & Hend);
      [lia|lia|].
    set (i1 := slices.scanUp (S j - i) (up data) i j) in *.
    destruct (scanDown_spec (down data) i1 j) as (Hr' & Hle & Hall' & Hend');
      [lia|lia|].
    set (j1 := slices.scanDown (down data) i1 j) in *.
    assert (rangeAll (fun x => low x = true) (a + 1) i1 data) as Hlow1.
    { intros k x Hk Hki Hx. destruct (decide (k < i)) as [Hlt|Hge].
      - by apply (Hlow k).
      - destruct (Hcond data k x Hp Hx) as [<- _]. apply Hall. lia. }
    assert (rangeAll (fun x => low x = false) (j1 + 1) b data) as Hhigh1.
    { intros k x Hk Hkb Hx. destruct (decide (j < k)) as [Hlt|Hge].
      - apply (Hhigh k); [lia|done|done].
      - destruct (Hcond data k x Hp Hx) as [_ Hd].
        rewrite Hall' in Hd by lia. by destruct (low x). }
    destruct (Nat.ltb_spec j1 i1) as [Hdone|Hmore].
    + exists data, i1. replace (i1 - 1) with j1 by lia.
      split; [done|]. split; [lia|]. split; [apply within_refl|].
      split; [done|]. by replace i1 with (j1 + 1) by lia.
    + destruct (lookup_lt_is_Some_2 data i1) as [xi Hxi]; [lia|].
      destruct (lookup_lt_is_Some_2 data j1) as [xj Hxj]; [lia|].
      assert (low xi = false) as Hxil.
      { destruct (Hcond data i1 xi Hp Hxi) as [<- _]. apply Hend. lia. }
      assert (low xj = true) as Hxjl.
      { destruct (Hcond data j1 xj Hp Hxj) as [_ Hd].
        rewrite Hend' in Hd by lia. by destruct (low xj). }
      assert (i1 <> j1) as Hne by (intros Heq; congruence).
      destruct (IH (slices.swap data i1 j1) (S i1) (j1 - 1))
        as (data' & i' & Hloop & Hi' & Hw & Hl' & Hh').
      * lia.
      * lia.
      * lia.
      * by rewrite swap_length.
      * lia.
      * rewrite swap_lookup by lia. by rewrite !decide_False by lia.
      * intros k x Hk Hki. rewrite swap_lookup by lia.
        repeat case_decide; try lia.
        -- rewrite Hxj. by intros [= <-].
        -- apply Hlow1; lia.
      * intros k x Hk Hkb. rewrite swap_lookup by lia.
        repeat case_decide; try lia.
        -- rewrite Hxi. by intros [= <-].
        -- apply Hhigh1; lia.
      * exists data', i'. split; [done|]. split; [lia|].
        split; [|done]. eapply within_trans; [|done].
        apply within_swap; lia.
Qed.

Lemma partition_as_loop data a b pivot :
  (slices.partitionCmpFunc cmp data a b pivot).1
  = (let '(d, _, j) :=
       slices.partitionLoop
         (S (b - a)) (fun d k => slices.lessAt cmp d k a)
         (fun d k => negb (slices.lessAt cmp d k a))
         (slices.swap data a pivot) (a + 1) (b - 1) in
     (slices.swap d j a, j)).
Proof.
  unfold slices.partitionCmpFunc. cbn [slices.partitionLoop]; cbn zeta.
  set (i1 := slices.scanUp _ _ _ _). set (j1 := slices.scanDown _ _ _).
  destruct (j1 <? i1); [done|].
  by destruct (slices.partitionLoop _ _ _ _ _ _) as [[d i'] j'].
Qed.

Lemma partition_spec data a b pivot p data' mid already :
  a <= pivot < b -> b <= length data -> data !! pivot = Some p ->
  slices.partitionCmpFunc cmp data a b pivot = (data', mid, already) ->
  a <= mid < b
  /\ within a b data data'
  /\ data' !! mid = Some p
  /\ rangeAll (fun x => (cmp x p < 0)%Z) a mid data'
  /\ rangeAll (fun x => ~ (cmp x p < 0)%Z) (mid + 1) b data'.
Proof.
  intros Hpivot Hlen Hp Hresult.
  pose proof (partition_as_loop data a b pivot) as Hloop.
  rewrite Hresult in Hloop. cbn [fst] in Hloop.
  set (data0 := slices.swap data a pivot) in *.
  assert (data0 !! a = Some p) as Hp0.
  { unfold data0. rewrite swap_lookup by lia.
    repeat case_decide; try done; congruence. }
  destruct (partitionLoop_spec
              (fun x => (cmp x p <? 0)%Z)
              (fun d k => slices.lessAt cmp d k a)
              (fun d k => negb (slices.lessAt cmp d k a))
              a b p (S (b - a)) data0 (a + 1) (b - 1))
    as (d & i' & Heq & Hi' & Hw & Hlow & Hhigh).
  { intros d' k x Ha Hk. by rewrite (lessAt_eq cmp _ _ _ _ _ Hk Ha). }
  { lia. } { lia. } { lia. }
  { unfold data0. by rewrite swap_length. }
  { lia. } { done. }
  { intros k x Hk Hk'. lia. }
  { intros k x Hk Hk'. lia. }
  rewrite Heq in Hloop. injection Hloop as -> ->.
  assert (length d = length data) as Hlend.
  { rewrite (proj1 Hw). apply swap_length. }
  assert (d !! a = Some p) as Hpd.
  { rewrite (proj2 Hw) by lia. done. }
  assert (forall k, slices.swap d (i' - 1) a !! k
                    = if decide (k = a) then d !! (i' - 1)
                      else if decide (k = i' - 1) then Some p
                           else d !! k) as Hfinal.
  { intros k. rewrite swap_lookup by lia.
    repeat case_decide; congruence. }
  split; [lia|]. split; [|split; [|split]].
  - apply (within_trans _ _ _ data0); [apply within_swap; lia|].
    apply (within_trans _ _ _ d); [eapply within_wider; [| |exact Hw]; lia|].
    apply within_swap; lia.
  - rewrite Hfinal. repeat case_decide; try done. congruence.
  - intros k x Hk Hkm. rewrite Hfinal.
    repeat case_decide; try lia; intros Hx.
    + apply Z.ltb_lt. apply (Hlow (i' - 1)); [lia|lia|done].
    + apply Z.ltb_lt. apply (Hlow k); [lia|lia|done].
  - intros k x Hk Hkb. rewrite Hfinal.
    repeat case_decide; try lia; intros Hx.
    apply Z.ltb_nlt. apply (Hhigh k); [lia|lia|done].
Qed.

Lemma partitionEqual_spec data a b pivot p data' mid :
  a <= pivot < b -> b <= length data -> data !! pivot = Some p ->
  slices.partitionEqualCmpFunc cmp data a b pivot = (data', mid) ->
  a < mid <= b
  /\ within a b data data'
  /\ data' !! a = Some p
  /\ rangeAll (fun x => ~ (cmp p x < 0)%Z) (a + 1) mid data'
  /\ rangeAll (fun x => (cmp p x < 0)%Z) mid b data'.
Proof.
  intros Hpivot Hlen Hp. unfold slices.partitionEqualCmpFunc. cbn zeta.
  set (data0 := slices.swap data a pivot) in *.
  assert (data0 !! a = Some p) as Hp0.
  { unfold data0. rewrite swap_lookup by lia.
    repeat case_decide; try done; congruence. }
  destruct (partitionLoop_spec
              (fun x => negb (cmp p x <? 0)%Z)
              (fun d k => negb (slices.lessAt cmp d a k))
              (fun d k => slices.lessAt cmp d a k)
              a b p (b - a) data0 (a + 1) (b - 1))
    as (d & i' & Heq & Hi' & Hw & Hlow & Hhigh).
  { intros d' k x Ha Hk. rewrite (lessAt_eq cmp _ _ _ _ _ Ha Hk).
    by rewrite negb_involutive. }
  { lia. } { lia. } { lia. }
  { unfold data0. by rewrite swap_length. }
  { lia. } { done. }
  { intros k x Hk Hk'. lia. }
  { intros k x Hk Hk'. lia. }
  rewrite Heq. intros [= <- <-].
  split; [lia|]. split; [|split; [|split]].
  - apply (within_trans _ _ _ data0); [apply within_swap; lia|].
    eapply within_wider; [| |exact Hw]; lia.
  - rewrite (proj2 Hw) by lia. done.
  - intros k x Hk Hkm Hx. apply Z.ltb_nlt.
    specialize (Hlow k x Hk Hkm Hx). cbn in Hlow.
    by destruct (cmp p x <? 0)%Z.
  - intros k x Hk Hkb Hx. apply Z.ltb_lt.
    specialize (Hhigh k x Hk Hkb Hx). cbn in Hhigh.
    by destruct (cmp p x <? 0)%Z.
Qed.
End Partition.

(** The procedures that only move elements about within the range. *)
Section Frames.
Context {E : Type} (cmp : E -> E -> Z).
Implicit Types (l data : list E).
Local Open Scope nat_scope.

Lemma reverseLoop_within n data i j :
  within i (j + 1) data (slices.reverseLoop n data i j).
Proof.
  revert data i j. induction n as [|n IH]; intros data i j;
    cbn [slices.reverseLoop]; [apply within_refl|].
  destruct (Nat.ltb_spec i j) as [Hij|Hij]; [|apply within_refl].
  apply (within_trans _ _ _ (slices.swap data i j)).
  - apply within_swap; lia.
  - eapply within_wider; [| |apply IH]; lia.
Qed.

Lemma reverseRange_within data a b :
  a < b -> within a b data (slices.reverseRangeCmpFunc data a b).
Proof.
  intros Hab. unfold slices.reverseRangeCmpFunc.
  eapply within_wider; [| |apply reverseLoop_within]; lia.
Qed.

Lemma bitsLen_bound n : 0 < n -> 2 ^ slices.bitsLen n <= 2 * n.
Proof.
  intros Hn. destruct n as [|n]; [lia|]. cbn [slices.bitsLen].
  rewrite Nat.pow_succ_r'. pose proof (Nat.log2_spec (S n)). lia.
Qed.

Lemma breakLoop_within n data random modulus a b idx i :
  (forall i', i <= i' < i + n -> a <= idx + i' < b) ->
  (exists k, modulus = 2 ^ k /\ 0 <= k /\ 2 ^ k <= 2 * Z.of_nat (b - a))%Z ->
  within a b data (slices.breakLoop n data random modulus a (b - a) idx i).
Proof.
  intros Hidx (k & -> & Hk & Hmod). revert data random i Hidx.
  induction n as [|n IH]; intros data random i Hidx;
    cbn [slices.breakLoop]; cbn zeta; [apply within_refl|].
  set (r := slices.xorshiftNext random).
  set (other0 := Z.to_nat (Z.land r (2 ^ k - 1))).
  assert (other0 < 2 * (b - a)) as Hother.
  { unfold other0.
    replace (2 ^ k - 1)%Z with (Z.ones k)
      by (rewrite Z.ones_equiv; lia).
    rewrite Z.land_ones by done.
    pose proof (Z.mod_pos_bound r (2 ^ k)%Z ltac:(lia)). lia. }
  eapply within_trans; [|apply IH; intros; apply Hidx; lia].
  apply within_swap; [apply Hidx; lia|].
  destruct (Nat.leb_spec (b - a) other0); lia.
Qed.

Lemma breakPatterns_within data a b :
  a <= b -> within a b data (slices.breakPatternsCmpFunc data a b).
Proof.
  intros Hab. unfold slices.breakPatternsCmpFunc. cbn zeta.
  destruct (Nat.leb_spec 8 (b - a)) as [Hlen|Hlen]; [|apply within_refl].
  pose proof (Nat.div_mod_eq (b - a) 4) as Hdm.
  pose proof (Nat.mod_upper_bound (b - a) 4) as Hmod.
  apply breakLoop_within.
  - intros i' Hi'. lia.
  - exists (Z.of_nat (slices.bitsLen (b - a))).
    unfold slices.nextPowerOfTwo. rewrite Z.shiftl_1_l.
    split; [done|]. split; [lia|].
    pose proof (bitsLen_bound (b - a) ltac:(lia)) as Hb.
    apply Nat2Z.inj_le in Hb. rewrite Nat2Z.inj_pow in Hb.
    change (Z.of_nat 2) with 2%Z in Hb. lia.
Qed.

Lemma order2_choice data a b swaps :
  let '(x, y, _) := slices.order2CmpFunc cmp data a b swaps in
  (x = a /\ y = b) \/ (x = b /\ y = a).
Proof. unfold slices.order2CmpFunc. destruct (slices.lessAt _ _ _ _); auto. Qed.

Lemma median_choice data a b c swaps :
  (slices.medianCmpFunc cmp data a b c swaps).1 = a
  \/ (slices.medianCmpFunc cmp data a b c swaps).1 = b
  \/ (slices.medianCmpFunc cmp data a b c swaps).1 = c.
Proof.
  unfold slices.medianCmpFunc.
  pose proof (order2_choice data a b swaps) as H1.
  destruct (slices.order2CmpFunc cmp data a b swaps) as [[a1 b1] s1].
  pose proof (order2_choice data b1 c s1) as H2.
  destruct (slices.order2CmpFunc cmp data b1 c s1) as [[b2 c2] s2].
  pose proof (order2_choice data a1 b2 s2) as H3.
  destruct (slices.order2CmpFunc cmp data a1 b2 s2) as [[a3 b3] s3].
  cbn. lia.
Qed.

Lemma choosePivot_range data a b :
  8 <= b - a -> a <= (slices.choosePivotCmpFunc cmp data a b).1 < b.
Proof.
  intros Hlen. unfold slices.choosePivotCmpFunc. cbn zeta.
  pose proof (Nat.div_mod_eq (b - a) 4) as Hdm.
  pose proof (Nat.mod_upper_bound (b - a) 4) as Hmod.
  destruct (Nat.leb_spec 8 (b - a)) as [_|]; [|lia].
  assert (exists i j k, a < i /\ i < b - 1 /\ a < j /\ j < b - 1
                        /\ a < k /\ k < b - 1
                        /\ (if (slices.shortestNinther <=? b - a)
                            then
                              let '(i, swaps) :=
                                slices.medianAdjacentCmpFunc
                                  cmp data (a + (b - a) / 4 * 1) 0 in
                              let '(j, swaps) :=
                                slices.medianAdjacentCmpFunc
                                  cmp data (a + (b - a) / 4 * 2) swaps in
                              let '(k, swaps) :=
                                slices.medianAdjacentCmpFunc
                                  cmp data (a + (b - a) / 4 * 3) swaps in
                              (i, j, k, swaps)
                            else (a + (b - a) / 4 * 1, a + (b - a) / 4 * 2,
                                  a + (b - a) / 4 * 3, 0)).1
                           = (i, j, k))
    as (i & j & k & Hi & Hi' & Hj & Hj' & Hk & Hk' & Heq).
  { destruct (Nat.leb_spec slices.shortestNinther (b - a)) as [Hbig|Hsmall].
    - unfold slices.shortestNinther in Hbig.
      unfold slices.medianAdjacentCmpFunc.
      pose proof (median_choice data (a + (b - a) / 4 * 1 - 1)
                                (a + (b - a) / 4 * 1)
                                (a + (b - a) / 4 * 1 + 1) 0) as H1.
      destruct (slices.medianCmpFunc cmp data _ _ _ 0) as [i s1].
      pose proof (median_choice data (a + (b - a) / 4 * 2 - 1)
                                (a + (b - a) / 4 * 2)
                                (a + (b - a) / 4 * 2 + 1) s1) as H2.
      destruct (slices.medianCmpFunc cmp data _ _ _ s1) as [j s2].
      pose proof (median_choice data (a + (b - a) / 4 * 3 - 1)
                                (a + (b - a) / 4 * 3)
                                (a + (b - a) / 4 * 3 + 1) s2) as H3.
      destruct (slices.medianCmpFunc cmp data _ _ _ s2) as [k s3].
      cbn in *. exists i, j, k. repeat split; try done; lia.
    - eexists _, _, _. repeat split; try done; lia. }
  destruct (if (slices.shortestNinther <=? b - a) then _ else _)
    as [[[i' j'] k'] swaps].
  cbn in Heq. injection Heq as -> -> ->.
  pose proof (median_choice data i j k swaps) as Hm.
  destruct (slices.medianCmpFunc cmp data i j k swaps) as [m s].
  cbn in Hm. repeat case_match; cbn; lia.
Qed.
End Frames.

(** [partialInsertionSortCmpFunc]: a bounded number of insertions; when it
    answers [true] the range is sorted. *)
Section PartialInsertion.
Context {E : Type} (cmp : E -> E -> Z) (Hswo : StrictWeakOrder cmp).
Implicit Types (l data : list E) (x y z : E).
Local Open Scope nat_scope.

Lemma skipSorted_spec n data i b :
  b - i <= n ->
  i <= slices.skipSorted cmp n data i b
  /\ (i <= b -> slices.skipSorted cmp n data i b <= b)
  /\ (forall k, i <= k < slices.skipSorted cmp n data i b ->
                slices.lessAt cmp data k (k - 1) = false)
  /\ (slices.skipSorted cmp n data i b < b ->
      slices.lessAt cmp data (slices.skipSorted cmp n data i b)
                    (slices.skipSorted cmp n data i b - 1) = true).
Proof.
  revert i. induction n as [|n IH]; intros i Hn; cbn [slices.skipSorted].
  { split; [lia|]. split; [lia|]. split; intros; lia. }
  destruct (Nat.ltb_spec i b) as [Hib|Hib]; cbn [andb].
  - destruct (slices.lessAt cmp data i (i - 1)) eqn:Hless; cbn [negb].
    + split; [lia|]. split; [lia|]. split; [intros; lia|done].
    + destruct (IH (S i)) as (Hr & Hb & Hall & Hend); [lia|].
      split; [lia|]. split; [lia|]. split; [|done].
      intros k Hk. destruct (decide (k = i)) as [->|]; [done|].
      apply Hall. lia.
  - split; [lia|]. split; [lia|]. split; intros; lia.
Qed.

Lemma rangeSorted_extend data a i i' :
  a < i -> i <= i' -> i' <= length data ->
  rangeSorted cmp a i data ->
  (forall k, i <= k < i' -> slices.lessAt cmp data k (k - 1) = false) ->
  rangeSorted cmp a i' data.
Proof.
  intros Hai Hii Hlen Hs Hadj.
  assert (forall d, i + d <= i' -> rangeSorted cmp a (i + d) data) as Hgen.
  { induction d as [|d IH]; intros Hd.
    - by rewrite Nat.add_0_r.
    - specialize (IH ltac:(lia)).
      intros u v x y Hu Huv Hv Hx Hy.
      destruct (decide (v = i + d)) as [->|Hne]; [|apply (IH u v); try done; lia].
      destruct (lookup_lt_is_Some_2 data (i + d - 1)) as [w Hw]; [lia|].
      specialize (Hadj (i + d) ltac:(lia)).
      rewrite (lessAt_eq cmp _ _ _ _ _ Hy Hw) in Hadj.
      apply Z.ltb_nlt in Hadj.
      destruct (decide (u = i + d - 1)) as [->|Hne'].
      + rewrite Hw in Hx. by injection Hx as <-.
      + apply (leBy_trans cmp Hswo _ w); [|done].
        apply (IH u (i + d - 1)); try done; lia. }
  replace i' with (i + (i' - i)) by lia. apply Hgen. lia.
Qed.

Lemma shiftLeft_insertionInner data a j x :
  a <= j -> data !! j = Some x ->
  (0 < a -> exists z, data !! (a - 1) = Some z /\ ~ (cmp x z < 0)%Z) ->
  slices.shiftLeft cmp data j = slices.insertionInner cmp data a j.
Proof.
  revert data. induction j as [|j IH]; intros data Haj Hx Hbound; [done|].
  cbn [slices.shiftLeft slices.insertionInner].
  assert (S j < length data) as Hlen by (by apply lookup_lt_Some in Hx).
  destruct (Nat.ltb_spec a (S j)) as [Hlt|Hge]; cbn [andb].
  - destruct (slices.lessAt cmp data (S j) j) eqn:Hless; cbn [negb]; [|done].
    apply IH; [lia| |].
    + rewrite swap_lookup by lia. by rewrite decide_True.
    + intros Ha. destruct (Hbound Ha) as (z & Hz & Hxz). exists z.
      split; [|done]. rewrite swap_lookup by lia.
      by rewrite !decide_False by lia.
  - assert (a = S j) as -> by lia.
    destruct Hbound as (z & Hz & Hxz); [lia|].
    replace (S j - 1) with j in Hz by lia.
    rewrite (lessAt_eq cmp _ _ _ _ _ Hx Hz).
    by apply Z.ltb_nlt in Hxz as ->.
Qed.

Lemma shiftRight_within n data j b :
  1 <= j -> within (j - 1) b data (slices.shiftRight cmp n data j b).
Proof.
  revert data j. induction n as [|n IH]; intros data j Hj;
    cbn [slices.shiftRight]; [apply within_refl|].
  destruct (Nat.ltb_spec j b) as [Hjb|Hjb]; [|apply within_refl].
  destruct (negb _); [apply within_refl|].
  apply (within_trans _ _ _ (slices.swap data j (j - 1))).
  - apply within_swap; lia.
  - eapply within_wider; [| |apply IH]; lia.
Qed.

Lemma rangeSorted_segment a b l :
  b <= length l -> rangeSorted cmp a b l ->
  sortedBy cmp (take (b - a) (drop a l)).
Proof.
  intros Hb Hs. apply sortedBy_rangeSorted.
  intros i j x y _ Hij Hj.
  rewrite length_take, length_drop in Hj.
  rewrite !segment_lookup by lia. apply Hs; lia.
Qed.

Lemma leftBound_within a b l l' :
  a <= b <= length l -> within a b l l' -> l' ≡ₚ l ->
  leftBound cmp a b l -> leftBound cmp a b l'.
Proof.
  intros Hab Hw Hperm Hbound Ha. destruct (Hbound Ha) as (z & Hz & Hall).
  exists z. split.
  - rewrite (proj2 Hw) by lia. done.
  - by apply (within_rangeAll _ a b l).
Qed.

(** One insertion of the element at [i] into the sorted range before it,
    as [shiftLeft] does it. *)
Lemma shiftLeft_sorted data a i x :
  a < i -> i < length data -> data !! i = Some x ->
  rangeSorted cmp a i data ->
  (0 < a -> exists z, data !! (a - 1) = Some z /\ ~ (cmp x z < 0)%Z) ->
  within a (i + 1) data (slices.shiftLeft cmp data i)
  /\ rangeSorted cmp a (i + 1) (slices.shiftLeft cmp data i).
Proof.
  intros Hai Hlen Hx Hs Hbound.
  rewrite (shiftLeft_insertionInner data a i x) by (try done; lia).
  pose proof (segment_split a i data ltac:(lia)) as Hdata.
  rewrite (drop_S data x i Hx) in Hdata.
  set (front := take a data) in *.
  set (pre := take (i - a) (drop a data)) in *.
  set (post := drop (S i) data) in *.
  assert (length front = a) as Hfront
      by (unfold front; rewrite length_take; lia).
  assert (length pre = i - a) as Hpre
      by (unfold pre; rewrite length_take, length_drop; lia).
  assert (sortedBy cmp pre) as Hsorted
      by (apply rangeSorted_segment; [lia|done]).
  assert (i = length front + length pre) as Hi by lia.
  clearbody front pre post. subst data a i.
  rewrite insertionInner_segment. split.
  - replace (length front + length pre + 1)
      with (length front + length (pre ++ [x]))
      by (rewrite length_app; cbn; lia).
    replace (front ++ pre ++ x :: post)
      with (front ++ (pre ++ [x]) ++ post) by (by rewrite <- (assoc_L (++))).
    apply framed_within.
    rewrite insertLast_length, length_app. cbn. lia.
  - replace (length front + length pre + 1)
      with (length front + length (insertLast cmp x pre))
      by (rewrite insertLast_length; lia).
    apply framed_rangeSorted. by apply insertLast_sortedBy.
Qed.

Lemma partialInsertionLoop_spec steps data a b i :
  a < i -> i <= b -> b <= length data ->
  rangeSorted cmp a i data -> leftBound cmp a b data ->
  within a b data (slices.partialInsertionLoop cmp steps data a b i).1
  /\ ((slices.partialInsertionLoop cmp steps data a b i).2 = true ->
      rangeSorted cmp a b
                  (slices.partialInsertionLoop cmp steps data a b i).1).
Proof.
  revert data i. induction steps as [|steps IH];
    intros data i Hai Hib Hlen Hs Hbound;
    cbn [slices.partialInsertionLoop]; cbn zeta.
  { split; [apply within_refl|done]. }
  destruct (skipSorted_spec (b - i) data i b (le_n _))
    as (Hr & Hrb & Hadj & Hend).
  set (i' := slices.skipSorted cmp (b - i) data i b) in *.
  specialize (Hrb Hib).
  assert (rangeSorted cmp a i' data) as Hs'
      by (apply (rangeSorted_extend data a i i'); try done; lia).
  destruct (Nat.eqb_spec i' b) as [->|Hne].
  { split; [apply within_refl|done]. }
  destruct (Nat.ltb_spec (b - a) slices.shortestShifting) as [Hshort|Hlong].
  { split; [apply within_refl|done]. }
  specialize (Hend ltac:(lia)).
  apply lessAt_true in Hend as (x & y & Hx & Hy & Hxy).
  set (data1 := slices.swap data i' (i' - 1)).
  assert (length data1 = length data) as Hlen1 by apply swap_length.
  assert (forall k, data1 !! k
                    = if decide (k = i' - 1) then Some x
                      else if decide (k = i') then Some y else data !! k)
    as Hdata1.
  { intros k. unfold data1. rewrite swap_lookup by lia.
    repeat case_decide; congruence. }
  assert (within a b data data1) as Hw1 by (apply within_swap; lia).
  set (data2 := if 2 <=? i' - a then slices.shiftLeft cmp data1 (i' - 1)
                else data1).
  assert (within a i' data1 data2 /\ rangeSorted cmp a i' data2)
    as [Hw2 Hs2].
  { unfold data2. destruct (Nat.leb_spec 2 (i' - a)) as [Hfar|Hnear].
    - destruct (shiftLeft_sorted data1 a (i' - 1) x) as [Hw Hsorted].
      + lia.
      + lia.
      + rewrite Hdata1. by rewrite decide_True.
      + intros u v xu xv Hu Huv Hv. rewrite !Hdata1.
        rewrite !decide_False by lia. apply Hs'; lia.
      + intros Ha. destruct (Hbound Ha) as (z & Hz & Hall). exists z.
        split.
        * rewrite Hdata1. by rewrite !decide_False by lia.
        * apply (Hall i'); [lia|lia|done].
      + by replace (i' - 1 + 1) with i' in * by lia.
    - split; [apply within_refl|].
      intros u v xu xv Hu Huv Hv. lia. }
  set (data3 := if 2 <=? b - i'
                then slices.shiftRight cmp (b - i') data2 (i' + 1) b
                else data2).
  assert (within i' b data2 data3) as Hw3.
  { unfold data3. destruct (2 <=? b - i'); [|apply within_refl].
    pose proof (shiftRight_within (b - i') data2 (i' + 1) b ltac:(lia)) as Hw.
    by replace (i' + 1 - 1) with i' in Hw by lia. }
  assert (data3 ≡ₚ data) as Hperm.
  { unfold data3, data2, data1.
    repeat case_match;
      by rewrite ?shiftRight_perm, ?shiftLeft_perm, ?swap_Permutation. }
  assert (within a b data data3) as Hw.
  { apply (within_trans _ _ _ data1); [done|].
    apply (within_trans _ _ _ data2).
    - eapply within_wider; [| |exact Hw2]; lia.
    - eapply within_wider; [| |exact Hw3]; lia. }
  destruct (IH data3 i') as [Hwr Hsr].
  - lia.
  - lia.
  - by rewrite (proj1 Hw).
  - eapply within_rangeSorted_outside; [exact Hw3| |done]. lia.
  - apply (leftBound_within a b data); try done; lia.
  - split; [|done]. by apply (within_trans _ _ _ data3).
Qed.

Lemma partialInsertionSort_spec data a b :
  a < b -> b <= length data -> leftBound cmp a b data ->
  within a b data (slices.partialInsertionSortCmpFunc cmp data a b).1
  /\ ((slices.partialInsertionSortCmpFunc cmp data a b).2 = true ->
      rangeSorted cmp a b
                  (slices.partialInsertionSortCmpFunc cmp data a b).1).
Proof.
  intros Hab Hlen Hbound. apply partialInsertionLoop_spec; try done; try lia.
  intros u v x y Hu Huv Hv. lia.
Qed.
End PartialInsertion.

(** [pdqsortCmpFunc] sorts its range. *)
Section Pdqsort.
Context {E : Type} (cmp : E -> E -> Z) (Hswo : StrictWeakOrder cmp).
Implicit Types (l data : list E) (x y z p : E).
Local Open Scope nat_scope.

Lemma leftBound_shrink a mid b data :
  mid <= b -> leftBound cmp a b data -> leftBound cmp a mid data.
Proof.
  intros Hmid Hbound Ha. destruct (Hbound Ha) as (z & Hz & Hall).
  exists z. split; [done|]. intros k x Hk Hkm. apply Hall; lia.
Qed.

(** The range after [partitionCmpFunc] and the two sorts of its parts. *)
Lemma join_partition a mid b data p :
  a <= mid < b ->
  data !! mid = Some p ->
  rangeSorted cmp a mid data -> rangeSorted cmp (mid + 1) b data ->
  rangeAll (fun x => (cmp x p < 0)%Z) a mid data ->
  rangeAll (fun x => ~ (cmp x p < 0)%Z) (mid + 1) b data ->
  rangeSorted cmp a b data.
Proof.
  intros Hmid Hp Hleft Hright Hlow Hhigh i j x y Hi Hij Hj Hx Hy.
  destruct (decide (j < mid)) as [Hjm|Hjm]; [apply (Hleft i j); try done; lia|].
  destruct (decide (mid < i)) as [Him|Him]; [apply (Hright i j); try done; lia|].
  assert (leBy cmp x p) as Hxp.
  { destruct (decide (i = mid)) as [->|Hne].
    - rewrite Hp in Hx. injection Hx as <-. by apply leBy_refl.
    - apply lt_leBy; [done|]. apply (Hlow i); [lia|lia|done]. }
  assert (leBy cmp p y) as Hpy.
  { destruct (decide (j = mid)) as [->|Hne].
    - rewrite Hp in Hy. injection Hy as <-. by apply leBy_refl.
    - apply (Hhigh j); [lia|lia|done]. }
  by apply (leBy_trans cmp Hswo _ p).
Qed.

(** The range after [partitionEqualCmpFunc] and the sort of the part
    with the greater elements. *)
Lemma join_equal a mid b data p :
  a < mid <= b ->
  rangeAll (fun x => ~ (cmp p x < 0)%Z) a mid data ->
  rangeAll (fun x => ~ (cmp x p < 0)%Z) a mid data ->
  rangeAll (fun x => (cmp p x < 0)%Z) mid b data ->
  rangeSorted cmp mid b data ->
  rangeSorted cmp a b data.
Proof.
  intros Hmid Hle Hge Hgt Hs i j x y Hi Hij Hj Hx Hy.
  destruct (decide (mid <= i)) as [Him|Him]; [apply (Hs i j); try done; lia|].
  assert (leBy cmp x p) as Hxp by (apply (Hle i); [lia|lia|done]).
  apply (leBy_trans cmp Hswo _ p); [done|].
  destruct (decide (j < mid)) as [Hjm|Hjm].
  - apply (Hge j); [lia|lia|done].
  - apply lt_leBy; [done|]. apply (Hgt j); [lia|lia|done].
Qed.

Lemma pdqsort_spec fuel data a b limit wasBalanced wasPartitioned :
  a <= b <= length data -> b - a <= fuel -> leftBound cmp a b data ->
  within a b data
         (slices.pdqsortCmpFunc cmp fuel data a b limit
                                wasBalanced wasPartitioned)
  /\ rangeSorted cmp a b
                 (slices.pdqsortCmpFunc cmp fuel data a b limit
                                        wasBalanced wasPartitioned).
Proof.
  revert data a b limit wasBalanced wasPartitioned.
  induction fuel as [|fuel IH];
    intros data a b limit wasBalanced wasPartitioned Hab Hfuel Hbound;
    cbn [slices.pdqsortCmpFunc]; cbn zeta.
  - destruct (Nat.leb_spec (b - a) slices.maxInsertion) as [_|Hbig];
      [by apply insertionSort_spec|].
    unfold slices.maxInsertion in Hbig. lia.
  - destruct (Nat.leb_spec (b - a) slices.maxInsertion) as [_|Hbig];
      [by apply insertionSort_spec|].
    unfold slices.maxInsertion in Hbig.
    destruct (Nat.eqb_spec limit 0) as [_|_]; [by apply heapSort_spec|].
    set (broken := if negb wasBalanced
                   then (slices.breakPatternsCmpFunc data a b, limit - 1)
                   else (data, limit)).
    assert (within a b data broken.1 /\ broken.1 ≡ₚ data) as [Hw1 Hp1].
    { unfold broken. destruct (negb _); cbn.
      - split; [apply breakPatterns_within; lia|apply breakPatterns_perm].
      - split; [apply within_refl|done]. }
    destruct broken as [data1 limit1]. cbn [fst] in Hw1, Hp1.
    pose proof (choosePivot_range cmp data1 a b ltac:(lia)) as Hpivot.
    destruct (slices.choosePivotCmpFunc cmp data1 a b) as [pivot hint].
    cbn [fst] in Hpivot.
    set (reversed := match hint with
                     | slices.decreasingHint =>
                         (slices.reverseRangeCmpFunc data1 a b,
                          b - 1 - (pivot - a), slices.increasingHint)
                     | _ => (data1, pivot, hint)
                     end).
    assert (within a b data1 reversed.1.1 /\ reversed.1.1 ≡ₚ data1
            /\ a <= reversed.1.2 < b) as (Hw2 & Hp2 & Hpivot2).
    { unfold reversed. destruct hint; cbn.
      - split; [apply within_refl|]. split; [done|lia].
      - split; [apply within_refl|]. split; [done|lia].
      - split; [apply reverseRange_within; lia|].
        split; [apply reverseRange_perm|lia]. }
    destruct reversed as [[data2 pivot2] hint2]. cbn [fst snd] in Hw2, Hp2, Hpivot2.
    assert (within a b data data2) as Hw02 by (by apply (within_trans _ _ _ data1)).
    assert (data2 ≡ₚ data) as Hp02 by (by rewrite Hp2).
    assert (length data2 = length data) as Hlen2 by apply Hw02.
    assert (leftBound cmp a b data2) as Hb2
        by (by apply (leftBound_within cmp a b data)).
    set (partial := if wasBalanced && wasPartitioned
                       && match hint2 with
                          | slices.increasingHint => true
                          | _ => false
                          end
                    then slices.partialInsertionSortCmpFunc cmp data2 a b
                    else (data2, false)).
    assert (within a b data2 partial.1 /\ partial.1 ≡ₚ data2
            /\ (partial.2 = true -> rangeSorted cmp a b partial.1))
      as (Hw3 & Hp3 & Hs3).
    { unfold partial. destruct (_ && _).
      - destruct (partialInsertionSort_spec cmp Hswo data2 a b) as [Hw Hs];
          [lia|lia|done|].
        split; [done|]. split; [apply partialInsertionSort_perm|done].
      - split; [apply within_refl|]. split; [done|]. cbn. done. }
    destruct partial as [data3 sorted]. cbn [fst snd] in Hw3, Hp3, Hs3.
    assert (within a b data data3) as Hw03 by (by apply (within_trans _ _ _ data2)).
    assert (data3 ≡ₚ data) as Hp03 by (by rewrite Hp3).
    assert (length data3 = length data) as Hlen3 by apply Hw03.
    assert (leftBound cmp a b data3) as Hb3
        by (by apply (leftBound_within cmp a b data)).
    destruct sorted; [by split; [|apply Hs3]|]. clear Hs3.
    destruct (lookup_lt_is_Some_2 data3 pivot2) as [p Hp]; [lia|].
    destruct ((0 <? a) && negb (slices.lessAt cmp data3 (a - 1) pivot2))
      eqn:Hequal.
    + (* nothing in the range is smaller than the pivot *)
      apply andb_true_iff in Hequal as [Ha Hless].
      apply Nat.ltb_lt in Ha. apply negb_true_iff in Hless.
      destruct (Hb3 Ha) as (z & Hz & Hall).
      rewrite (lessAt_eq cmp _ _ _ _ _ Hz Hp) in Hless.
      apply Z.ltb_nlt in Hless.
      assert (rangeAll (fun x => ~ (cmp x p < 0)%Z) a b data3) as Hge.
      { intros k x Hk Hkb Hx Hlt. apply (Hall k x Hk Hkb Hx).
        by apply (lt_leBy_trans cmp Hswo _ p). }
      destruct (slices.partitionEqualCmpFunc cmp data3 a b pivot2)
        as [data4 mid] eqn:Hpe.
      pose proof (partitionEqual_perm cmp data3 a b pivot2) as Hp4.
      rewrite Hpe in Hp4. cbn [fst] in Hp4.
      destruct (partitionEqual_spec cmp data3 a b pivot2 p data4 mid)
        as (Hmid & Hw4 & Hpa & Hle4 & Hgt4); [lia|lia|done|done|].
      assert (length data4 = length data3) as Hlen4 by apply Hw4.
      assert (rangeAll (fun x => ~ (cmp x p < 0)%Z) a b data4) as Hge4
          by (apply (within_rangeAll _ a b data3); try done; lia).
      assert (rangeAll (fun x => ~ (cmp p x < 0)%Z) a mid data4) as Hle4'.
      { intros k x Hk Hkm Hx. destruct (decide (k = a)) as [->|Hne].
        - rewrite Hpa in Hx. injection Hx as <-. apply (swo_irrefl _ Hswo).
        - apply (Hle4 k); [lia|lia|done]. }
      destruct (IH data4 mid b limit1 wasBalanced wasPartitioned)
        as [Hw5 Hs5].
      * lia.
      * lia.
      * intros _. destruct (lookup_lt_is_Some_2 data4 (mid - 1)) as [z' Hz'];
          [lia|].
        exists z'. split; [done|]. intros k x Hk Hkb Hx.
        apply lt_leBy; [done|].
        apply (leBy_lt_trans cmp Hswo _ p).
        -- apply (Hle4' (mid - 1)); [lia|lia|done].
        -- apply (Hgt4 k); [lia|lia|done].
      * set (data5 := slices.pdqsortCmpFunc cmp fuel data4 mid b limit1
                                            wasBalanced wasPartitioned) in *.
        assert (data5 ≡ₚ data4) as Hp5 by apply pdqsort_perm.
        split.
        -- apply (within_trans _ _ _ data3); [done|].
           apply (within_trans _ _ _ data4); [done|].
           eapply within_wider; [| |exact Hw5]; lia.
        -- apply (join_equal a mid b data5 p); try done.
           ++ eapply within_rangeAll_outside; [exact Hw5| |done]. lia.
           ++ eapply within_rangeAll_outside; [exact Hw5| |].
              ** lia.
              ** intros k x Hk Hkm. apply Hge4; lia.
           ++ apply (within_rangeAll _ mid b data4); try done. lia.
    + (* an ordinary partition, and the two parts *)
      clear Hequal.
      destruct (slices.partitionCmpFunc cmp data3 a b pivot2)
        as [[data4 mid] already] eqn:Hpart.
      pose proof (partition_perm cmp data3 a b pivot2) as Hp4.
      rewrite Hpart in Hp4. cbn [fst] in Hp4.
      destruct (partition_spec cmp data3 a b pivot2 p data4 mid already)
        as (Hmid & Hw4 & Hpm & Hlow4 & Hhigh4); [lia|lia|done|done|].
      assert (length data4 = length data3) as Hlen4 by apply Hw4.
      assert (leftBound cmp a b data4) as Hb4
          by (apply (leftBound_within cmp a b data3); try done; lia).
      assert (within a b data data4) as Hw04
          by (by apply (within_trans _ _ _ data3)).
      destruct (Nat.ltb_spec (mid - a) (b - mid)) as [_|_].
      * destruct (IH data4 a mid limit1 true true) as [Hw5 Hs5].
        { lia. } { lia. } { apply (leftBound_shrink a mid b); [lia|done]. }
        set (data5 := slices.pdqsortCmpFunc cmp fuel data4 a mid limit1
                                            true true) in *.
        assert (data5 ≡ₚ data4) as Hp5 by apply pdqsort_perm.
        assert (length data5 = length data4) as Hlen5 by apply Hw5.
        assert (data5 !! mid = Some p) as Hpm5
            by (rewrite (proj2 Hw5) by lia; done).
        assert (rangeAll (fun x => ~ (cmp x p < 0)%Z) (mid + 1) b data5)
          as Hhigh5
            by (eapply within_rangeAll_outside; [exact Hw5| |done]; lia).
        destruct (IH data5 (mid + 1) b limit1
                     ((b - a) / 8 <=? mid - a) already) as [Hw6 Hs6].
        { lia. } { lia. }
        { intros _. exists p. replace (mid + 1 - 1) with mid by lia.
          split; [done|]. done. }
        set (data6 := slices.pdqsortCmpFunc cmp fuel data5 (mid + 1) b limit1
                                            _ already) in *.
        assert (data6 ≡ₚ data5) as Hp6 by apply pdqsort_perm.
        split.
        -- apply (within_trans _ _ _ data4); [done|].
           apply (within_trans _ _ _ data5).
           ++ eapply within_wider; [| |exact Hw5]; lia.
           ++ eapply within_wider; [| |exact Hw6]; lia.
        -- apply (join_partition a mid b data6 p); try done.
           ++ rewrite (proj2 Hw6) by lia. done.
           ++ eapply within_rangeSorted_outside; [exact Hw6| |done]. lia.
           ++ eapply within_rangeAll_outside; [exact Hw6| |]; [lia|].
              apply (within_rangeAll _ a mid data4); try done. lia.
           ++ apply (within_rangeAll _ (mid + 1) b data5); try done. lia.
      * destruct (IH data4 (mid + 1) b limit1 true true) as [Hw5 Hs5].
        { lia. } { lia. }
        { intros _. exists p. replace (mid + 1 - 1) with mid by lia.
          split; [done|]. done. }
        set (data5 := slices.pdqsortCmpFunc cmp fuel data4 (mid + 1) b limit1
                                            true true) in *.
        assert (data5 ≡ₚ data4) as Hp5 by apply pdqsort_perm.
        assert (length data5 = length data4) as Hlen5 by apply Hw5.
        assert (data5 !! mid = Some p) as Hpm5
            by (rewrite (proj2 Hw5) by lia; done).
        assert (rangeAll (fun x => (cmp x p < 0)%Z) a mid data5) as Hlow5
            by (eapply within_rangeAll_outside; [exact Hw5| |done]; lia).
        destruct (IH data5 a mid limit1
                     ((b - a) / 8 <=? b - mid) already) as [Hw6 Hs6].
        { lia. } { lia. }
        { apply (leftBound_shrink a mid b); [lia|].
          apply (leftBound_within cmp a b data4); try done; [lia|].
          eapply within_wider; [| |exact Hw5]; lia. }
        set (data6 := slices.pdqsortCmpFunc cmp fuel data5 a mid limit1
                                            _ already) in *.
        assert (data6 ≡ₚ data5) as Hp6 by apply pdqsort_perm.
        split.
        -- apply (within_trans _ _ _ data4); [done|].
           apply (within_trans _ _ _ data5).
           ++ eapply within_wider; [| |exact Hw5]; lia.
           ++ eapply within_wider; [| |exact Hw6]; lia.
        -- apply (join_partition a mid b data6 p); try done.
           ++ rewrite (proj2 Hw6) by lia. done.
           ++ eapply within_rangeSorted_outside; [exact Hw6| |done]. lia.
           ++ apply (within_rangeAll _ a mid data5); try done. lia.
           ++ eapply within_rangeAll_outside; [exact Hw6| |]; [lia|].
              apply (within_rangeAll _ (mid + 1) b data4); try done. lia.
Qed.
End Pdqsort.

Lemma SortFunc_sortedBy {E} (cmp : E -> E -> Z) (l : list E) :
  StrictWeakOrder cmp -> sortedBy cmp (slices.SortFunc cmp l).
Proof.
  intros Hswo. apply sortedBy_rangeSorted.
  rewrite (Permutation_length (SortFunc_Permutation cmp l)).
  apply (pdqsort_spec cmp Hswo); [lia|lia|].
  intros Ha. lia.
Qed.

(** ** The restore decision *)

Section Decision.
Implicit Types (versions : list ObjectVersion).

Lemma scanVersions_split_from referenceTimestamp versions at0 latest0 :
  fold_left
    (fun '(versionAtTimestamp, latestVersion) v =>
       (if Timestamp v <? referenceTimestamp then v else versionAtTimestamp,
        if IsLatest v then v else latestVersion))
    versions (at0, latest0)
  = (fold_left (fun acc v => if Timestamp v <? referenceTimestamp
                             then v else acc) versions at0,
     fold_left (fun acc v => if IsLatest v then v else acc)
               versions latest0).
Proof.
  revert at0 latest0.
  induction versions as [|v versions IH]; intros at0 latest0; [done|].
  cbn [fold_left]. apply IH.
Qed.

Lemma fold_pick_last {A} (P : A -> bool) (l : list A) (d : A) :
  fold_left (fun acc v => if P v then v else acc) l d
  = default d (last (filter (fun v => P v = true) l)).
Proof.
  revert d. induction l as [|x l IH]; intros d; [done|].
  cbn [fold_left]. rewrite IH. rewrite filter_cons.
  destruct (P x) eqn:HP.
  - rewrite decide_True by done.
    destruct (filter _ l) as [|y l']; [done|].
    rewrite last_cons_cons.
    destruct (last (y :: l')) eqn:Hl; [done|].
    by apply last_None in Hl.
  - rewrite decide_False by congruence. done.
Qed.

Lemma filter_ext_in {A} (P Q : A -> Prop) `{!forall x, Decision (P x)}
      `{!forall x, Decision (Q x)} (l : list A) :
  (forall x, x ∈ l -> P x <-> Q x) -> filter P l = filter Q l.
Proof.
  induction l as [|x l IH]; intros Hext; [done|].
  rewrite !filter_cons.
  assert (P x <-> Q x) as Hx by (apply Hext; left).
  rewrite IH by (intros; apply Hext; by right).
  destruct (decide (P x)), (decide (Q x)); tauto.
Qed.

Lemma versionAtTimestamp_last referenceTimestamp versions :
  versionAtTimestamp referenceTimestamp versions
  = default ZeroObjectVersion
            (last (filter (before referenceTimestamp) versions)).
Proof.
  unfold versionAtTimestamp, scanVersions.
  rewrite scanVersions_split_from. cbn [fst].
  rewrite (fold_pick_last (fun v => Timestamp v <? referenceTimestamp)).
  f_equal. f_equal. apply filter_ext_in. intros v _. unfold before.
  rewrite Z.ltb_lt. done.
Qed.

Lemma latestVersion_last versions :
  latestVersion versions
  = default ZeroObjectVersion
            (last (filter (fun v => IsLatest v = true) versions)).
Proof.
  unfold latestVersion, scanVersions.
  rewrite scanVersions_split_from. cbn [snd].
  apply (fold_pick_last IsLatest).
Qed.

Lemma scanVersions_eq referenceTimestamp versions :
  scanVersions referenceTimestamp versions
  = (versionAtTimestamp referenceTimestamp versions,
     latestVersion versions).
Proof.
  unfold versionAtTimestamp, latestVersion, scanVersions.
  by rewrite !scanVersions_split_from.
Qed.

Lemma restoreKey_eq bucket referenceTimestamp key versions :
  restoreKey bucket referenceTimestamp key versions
  = let at_ := versionAtTimestamp referenceTimestamp versions in
    if String.eqb (ETag (latestVersion versions)) (ETag at_) then Skipping
    else if bool_decide (at_ = ZeroObjectVersion)
            || String.eqb (Operation at_) OperationTypeDelete
         then Deleting (Delete bucket key)
         else Restoring (Copy bucket bucket key (VersionID at_)).
Proof. unfold restoreKey. by rewrite scanVersions_eq. Qed.

Lemma last_filter_elem {A} (P : A -> Prop) `{!forall x, Decision (P x)}
      (l : list A) (x : A) :
  last (filter P l) = Some x -> x ∈ l /\ P x.
Proof.
  intros Hlast. apply last_Some in Hlast as [l' Hlast].
  assert (x ∈ filter P l) as Hin by (rewrite Hlast; set_solver).
  by apply list_elem_of_filter in Hin as [? ?].
Qed.

Lemma versionAtTimestamp_cases referenceTimestamp versions :
  (versionAtTimestamp referenceTimestamp versions = ZeroObjectVersion /\
   Forall (fun v => referenceTimestamp <= Timestamp v) versions)
  \/ (versionAtTimestamp referenceTimestamp versions ∈ versions /\
      before referenceTimestamp
             (versionAtTimestamp referenceTimestamp versions)).
Proof.
  rewrite versionAtTimestamp_last.
  destruct (last (filter (before referenceTimestamp) versions)) as [x|] eqn:H.
  - right. by apply last_filter_elem in H.
  - left. split; [done|]. apply last_None in H.
    apply Forall_forall. intros v Hv.
    destruct (decide (before referenceTimestamp v)) as [Hb|Hb].
    + assert (v ∈ filter (before referenceTimestamp) versions) as Hin
          by (by apply list_elem_of_filter).
      rewrite H in Hin. by apply not_elem_of_nil in Hin.
    + unfold before in Hb. lia.
Qed.

Lemma theLatest_latestVersion versions r :
  theLatest versions r -> latestVersion versions = r.
Proof.
  intros (Hin & Hl & Huniq). rewrite latestVersion_last.
  destruct (last (filter (fun v => IsLatest v = true) versions)) as [x|] eqn:H.
  - apply last_filter_elem in H as [Hx Hxl]. cbn. by apply Huniq.
  - apply last_None in H.
    assert (r ∈ filter (fun v => IsLatest v = true) versions) as Hr
        by (by apply list_elem_of_filter).
    rewrite H in Hr. by apply not_elem_of_nil in Hr.
Qed.

Lemma ascending_before_max referenceTimestamp versions v :
  ascending versions -> v ∈ versions -> before referenceTimestamp v ->
  Timestamp v <= Timestamp (versionAtTimestamp referenceTimestamp versions).
Proof.
  intros Hs Hv Hb. rewrite versionAtTimestamp_last.
  assert (v ∈ filter (before referenceTimestamp) versions) as Hin
      by (by apply list_elem_of_filter).
  assert (StronglySorted (fun a b => Timestamp a <= Timestamp b)
                         (filter (before referenceTimestamp) versions)) as Hsf.
  { clear -Hs. induction Hs as [|x l Hs IH Hx]; [rewrite filter_nil; constructor|].
    rewrite filter_cons. destruct (decide _); [|done].
    constructor; [done|]. apply Forall_forall. intros y Hy.
    apply list_elem_of_filter in Hy as [_ Hy].
    rewrite Forall_forall in Hx. by apply Hx. }
  destruct (filter (before referenceTimestamp) versions) as [|x l] using rev_ind.
  { by apply not_elem_of_nil in Hin. }
  rewrite last_snoc. cbn.
  apply elem_of_app in Hin as [Hin|Hin].
  - apply (StronglySorted_app_1_elem_of _ l [x] v x Hsf); set_solver.
  - apply list_elem_of_singleton in Hin as ->. lia.
Qed.
End Decision.

(** C2 -- the version at the reference time is the last record of the
    history whose timestamp is strictly before the reference timestamp, and
    the zero [ObjectVersion] when there is none; in a history in ascending
    order it is a record with the greatest timestamp before the reference
    time. *)
Theorem versionAtReference_is_last_before :
  forall (referenceTimestamp : Time) (versions : list ObjectVersion),
    ascending versions ->
    versionAtTimestamp referenceTimestamp versions
    = default ZeroObjectVersion
              (last (filter (before referenceTimestamp) versions))
    /\ (Forall (fun v => referenceTimestamp <= Timestamp v) versions ->
        versionAtTimestamp referenceTimestamp versions = ZeroObjectVersion)
    /\ (forall v, v ∈ versions -> before referenceTimestamp v ->
        versionAtTimestamp referenceTimestamp versions ∈ versions
        /\ before referenceTimestamp
                  (versionAtTimestamp referenceTimestamp versions)
        /\ Timestamp v
           <= Timestamp (versionAtTimestamp referenceTimestamp versions)).
Proof.
  intros referenceTimestamp versions Hasc.
  split; [apply versionAtTimestamp_last|]. split.
  - intros Hall.
    destruct (versionAtTimestamp_cases referenceTimestamp versions)
      as [[H _]|[Hin Hb]]; [done|].
    rewrite Forall_forall in Hall. apply Hall in Hin. unfold before in Hb. lia.
  - intros v Hv Hb.
    destruct (versionAtTimestamp_cases referenceTimestamp versions)
      as [[_ H]|[Hin Hb']].
    + rewrite Forall_forall in H. apply H in Hv. unfold before in Hb. lia.
    + split; [done|]. split; [done|]. by apply ascending_before_max.
Qed.

(** C3 -- no mutation is issued for a key when the etag of the record with
    [IsLatest] set equals the etag of the version at the reference time
    (the zero [ObjectVersion], with its empty etag, when the key did not
    exist yet); so it is when both are delete markers without etag. *)
Theorem skip_when_etags_agree :
  forall (bucket key : string) (referenceTimestamp : Time)
         (versions : list ObjectVersion) (r : ObjectVersion),
    theLatest versions r ->
    let atReference :=
      default ZeroObjectVersion
              (last (filter (before referenceTimestamp) versions)) in
    (ETag r = ETag atReference ->
     restoreKey bucket referenceTimestamp key versions = Skipping)
    /\ (Operation r = OperationTypeDelete -> ETag r = "" ->
        Operation atReference = OperationTypeDelete -> ETag atReference = "" ->
        restoreKey bucket referenceTimestamp key versions = Skipping)
    /\ (restoreKey bucket referenceTimestamp key versions = Skipping ->
        ETag r = ETag atReference)
    /\ ETag ZeroObjectVersion = "".
Proof.
  intros bucket key referenceTimestamp versions r Hr atReference.
  assert (ETag r = ETag atReference ->
          restoreKey bucket referenceTimestamp key versions = Skipping) as Hskip.
  { intros He. rewrite restoreKey_eq. cbn zeta.
    rewrite (theLatest_latestVersion _ _ Hr), versionAtTimestamp_last.
    fold atReference. rewrite He, String.eqb_refl. done. }
  split; [done|]. split; [|split; [|done]].
  - intros _ He _ He'. apply Hskip. congruence.
  - rewrite restoreKey_eq. cbn zeta.
    rewrite (theLatest_latestVersion _ _ Hr), versionAtTimestamp_last.
    fold atReference.
    destruct (String.eqb (ETag r) (ETag atReference)) eqn:He.
    + intros _. by apply String.eqb_eq.
    + by destruct (_ || _).
Qed.

Section Storage.
Implicit Types (versions : list ObjectVersion).

Lemma insertByTime_elem new versions v :
  v ∈ insertByTime new versions <-> v = new \/ v ∈ versions.
Proof.
  induction versions as [|x l IH]; cbn [insertByTime].
  - rewrite list_elem_of_singleton, elem_of_nil. tauto.
  - destruct (Timestamp new <? Timestamp x).
    + by rewrite elem_of_cons.
    + rewrite !elem_of_cons, IH. tauto.
Qed.

Lemma insertByTime_filter (P : ObjectVersion -> Prop)
      `{!forall v, Decision (P v)} new versions :
  ~ P new -> filter P (insertByTime new versions) = filter P versions.
Proof.
  intros Hn. induction versions as [|x l IH]; cbn [insertByTime].
  - rewrite filter_cons. by rewrite decide_False.
  - destruct (Timestamp new <? Timestamp x).
    + rewrite (filter_cons _ new). by rewrite decide_False.
    + rewrite !filter_cons. by rewrite IH.
Qed.

Lemma filter_none {A} (P : A -> Prop) `{!forall v, Decision (P v)}
      (l : list A) :
  Forall (fun v => ~ P v) l -> filter P l = [].
Proof.
  induction 1 as [|y l' Hy Hall IH]; [done|].
  rewrite filter_cons. by rewrite decide_False.
Qed.

Lemma insertByTime_filter_only (P : ObjectVersion -> Prop)
      `{!forall v, Decision (P v)} new versions :
  P new -> Forall (fun v => ~ P v) versions ->
  filter P (insertByTime new versions) = [new].
Proof.
  intros Hn Hall. induction Hall as [|x l Hx Hall IH]; cbn [insertByTime].
  - rewrite filter_cons. by rewrite decide_True.
  - destruct (Timestamp new <? Timestamp x).
    + rewrite (filter_cons _ new). rewrite decide_True by done.
      rewrite filter_none; [done|]. by constructor.
    + rewrite filter_cons. by rewrite decide_False.
Qed.

Lemma retire_filter_before referenceTimestamp versions :
  filter (before referenceTimestamp) (retire <$> versions)
  = retire <$> filter (before referenceTimestamp) versions.
Proof.
  induction versions as [|x l IH]; [done|]. rewrite fmap_cons.
  rewrite !filter_cons, IH. unfold before at 1 3. cbn.
  by destruct (decide _).
Qed.

Lemma retired_not_latest versions :
  Forall (fun v => ~ IsLatest v = true) (retire <$> versions).
Proof. apply Forall_forall. intros v Hv. apply list_elem_of_fmap in Hv as (w & -> & _). done. Qed.

Lemma retire_Zero : retire ZeroObjectVersion = ZeroObjectVersion.
Proof. done. Qed.

(** After a new latest version from a time not before the reference time
    has joined the history, the scan of [main] finds that version as the
    latest one and the same version as before at the reference time. *)
Lemma scan_after_mutation referenceTimestamp new versions :
  IsLatest new = true -> referenceTimestamp <= Timestamp new ->
  latestVersion (insertByTime new (retire <$> versions)) = new
  /\ versionAtTimestamp referenceTimestamp
                        (insertByTime new (retire <$> versions))
     = retire (versionAtTimestamp referenceTimestamp versions).
Proof.
  intros Hl Ht. split.
  - rewrite latestVersion_last.
    rewrite (insertByTime_filter_only (fun v => IsLatest v = true));
      [done..|apply retired_not_latest].
  - rewrite !versionAtTimestamp_last.
    rewrite insertByTime_filter by (unfold before; lia).
    rewrite retire_filter_before.
    rewrite fmap_last.
    by destruct (last _).
Qed.

Lemma NoDup_fmap_elem_eq {A B} (f : A -> B) (l : list A) x y :
  NoDup (f <$> l) -> x ∈ l -> y ∈ l -> f x = f y -> x = y.
Proof.
  induction l as [|z l IH]; intros Hnd Hx Hy Hf.
  - by apply not_elem_of_nil in Hx.
  - rewrite fmap_cons in Hnd. apply NoDup_cons in Hnd as [Hz Hnd].
    apply elem_of_cons in Hx as [->|Hx]; apply elem_of_cons in Hy as [->|Hy].
    + done.
    + exfalso. apply Hz. rewrite Hf. by apply list_elem_of_fmap_2.
    + exfalso. apply Hz. rewrite <- Hf. by apply list_elem_of_fmap_2.
    + by apply IH.
Qed.

Lemma copySource_inj bucket key v1 v2 :
  copySource bucket key v1 = copySource bucket key v2 -> v1 = v2.
Proof.
  unfold copySource. intros H.
  by repeat apply String.app_inj in H.
Qed.

(** The service resolves the source of the copy that [main] asks for to
    the version [main] meant. *)
Lemma copyObject_source bucket key st versions src :
  NoDup (VersionID <$> versions) -> src ∈ versions ->
  copyObject (Copy bucket bucket key (VersionID src)) st versions
  = Some (insertByTime (copyOf st src) (retire <$> versions)).
Proof.
  intros Hnd Hsrc. unfold copyObject, Copy. cbn.
  destruct (find _ versions) as [x|] eqn:Hfind.
  - apply find_some in Hfind as [Hx Heq].
    apply String.eqb_eq, copySource_inj in Heq.
    apply list_elem_of_In in Hx.
    by rewrite (NoDup_fmap_elem_eq VersionID versions x src).
  - apply list_elem_of_In in Hsrc.
    apply (find_none _ _ Hfind src) in Hsrc.
    by rewrite String.eqb_refl in Hsrc.
Qed.
End Storage.

Lemma atReference_absent referenceTimestamp (versions : list ObjectVersion) :
  Forall (fun v => referenceTimestamp <= Timestamp v) versions ->
  versionAtTimestamp referenceTimestamp versions = ZeroObjectVersion.
Proof.
  intros Hall.
  destruct (versionAtTimestamp_cases referenceTimestamp versions)
    as [[H _]|[Hin Hb]]; [done|].
  rewrite Forall_forall in Hall. apply Hall in Hin. unfold before in Hb. lia.
Qed.

Lemma atReference_present referenceTimestamp (versions : list ObjectVersion) :
  ~ Forall (fun v => referenceTimestamp <= Timestamp v) versions ->
  versionAtTimestamp referenceTimestamp versions ∈ versions.
Proof.
  intros Hn.
  by destruct (versionAtTimestamp_cases referenceTimestamp versions)
    as [[_ H]|[Hin _]].
Qed.

Lemma putOrDelete_not_Zero v : putOrDelete v -> v <> ZeroObjectVersion.
Proof. by intros [H|H] ->. Qed.

Lemma insertByTime_length new (versions : list ObjectVersion) :
  length (insertByTime new versions) = S (length versions).
Proof.
  induction versions as [|x l IH]; [done|]. cbn [insertByTime].
  destruct (_ <? _); cbn; by rewrite ?IH.
Qed.

(** C4 -- when the etag of the latest record differs from the etag of the
    version at the reference time, [main] calls [Delete] (a [DeleteObject]
    without version id) if the key was absent or deleted at that time, and
    otherwise [Copy] with that version of the key as the source and the key
    itself as the destination; whichever request it sends, every version
    the key had is still there afterwards. *)
Theorem mutation_choice :
  forall (bucket key : string) (referenceTimestamp : Time)
         (versions : list ObjectVersion),
    Forall putOrDelete versions ->
    let atReference :=
      default ZeroObjectVersion
              (last (filter (before referenceTimestamp) versions)) in
    let absent :=
      Forall (fun v => referenceTimestamp <= Timestamp v) versions in
    ETag (latestVersion versions) <> ETag atReference ->
    (absent \/ Operation atReference = OperationTypeDelete ->
     restoreKey bucket referenceTimestamp key versions
     = Deleting {| doBucket := bucket; doKey := key; doVersionId := None |})
    /\ (~ absent -> Operation atReference <> OperationTypeDelete ->
        restoreKey bucket referenceTimestamp key versions
        = Restoring {| CopySource := bucket +:+ "/" +:+ key +:+ "?versionId="
                                     +:+ VersionID atReference;
                       coBucket := bucket; coKey := key |})
    /\ (forall st versions',
          applyMutation (restoreKey bucket referenceTimestamp key versions)
                        st versions = Some versions' ->
          (forall v, v ∈ versions -> retire v ∈ versions')
          /\ length versions' = S (length versions)).
Proof.
  intros bucket key referenceTimestamp versions Hops atReference absent Hne.
  assert (restoreKey bucket referenceTimestamp key versions
          = if bool_decide (atReference = ZeroObjectVersion)
               || String.eqb (Operation atReference) OperationTypeDelete
            then Deleting (Delete bucket key)
            else Restoring (Copy bucket bucket key (VersionID atReference)))
    as Hrk.
  { rewrite restoreKey_eq. cbn zeta. rewrite versionAtTimestamp_last.
    fold atReference.
    destruct (String.eqb _ _) eqn:He; [|done].
    by apply String.eqb_eq in He. }
  assert (atReference = versionAtTimestamp referenceTimestamp versions) as Hat
      by (by rewrite versionAtTimestamp_last).
  split; [|split].
  - intros [Habs|Hop]; rewrite Hrk.
    + rewrite Hat, (atReference_absent _ _ Habs). done.
    + rewrite Hop. cbn. by rewrite orb_true_r.
  - intros Hpres Hop. rewrite Hrk.
    assert (atReference ∈ versions) as Hin
        by (rewrite Hat; by apply atReference_present).
    rewrite Forall_forall in Hops.
    rewrite bool_decide_eq_false_2
      by (apply putOrDelete_not_Zero; by apply Hops).
    destruct (String.eqb _ _) eqn:He; [by apply String.eqb_eq in He|done].
  - intros st versions'. rewrite Hrk.
    destruct (_ || _); cbn.
    + intros [= <-]. split; [|by rewrite insertByTime_length, length_fmap].
      intros v Hv. apply insertByTime_elem. right.
      by apply list_elem_of_fmap_2.
    + unfold copyObject. destruct (find _ _); [|done].
      intros [= <-]. split; [|by rewrite insertByTime_length, length_fmap].
      intros v Hv. apply insertByTime_elem. right.
      by apply list_elem_of_fmap_2.
Qed.

(** ** The two orders the iterator sorts by *)

Section Orders.
Lemma ascii_compare_N (a b : Ascii.ascii) :
  Ascii.compare a b = N.compare (Ascii.N_of_ascii a) (Ascii.N_of_ascii b).
Proof. done. Qed.

Lemma ascii_compare_eq (a b : Ascii.ascii) : Ascii.compare a b = Eq <-> a = b.
Proof.
  split; [apply Ascii.compare_eq_iff|]. intros ->.
  rewrite ascii_compare_N. apply N.compare_refl.
Qed.

Lemma string_compare_refl (s : string) : String.compare s s = Eq.
Proof.
  induction s as [|a s IH]; [done|]. cbn.
  by rewrite (proj2 (ascii_compare_eq a a) eq_refl).
Qed.

Lemma string_compare_eq (s1 s2 : string) :
  String.compare s1 s2 = Eq <-> s1 = s2.
Proof.
  split; [apply String.compare_eq_iff|]. intros ->.
  apply string_compare_refl.
Qed.

Lemma string_compare_lt_trans (s1 s2 s3 : string) :
  String.compare s1 s2 = Lt -> String.compare s2 s3 = Lt ->
  String.compare s1 s3 = Lt.
Proof.
  revert s2 s3. induction s1 as [|a s1 IH]; intros [|b s2] [|c s3]; cbn;
    try done.
  rewrite !ascii_compare_N.
  destruct (N.compare_spec (Ascii.N_of_ascii a) (Ascii.N_of_ascii b)) as [Hab|Hab|Hab];
    destruct (N.compare_spec (Ascii.N_of_ascii b) (Ascii.N_of_ascii c)) as [Hbc|Hbc|Hbc];
    try done; intros H1 H2.
  - rewrite Hab, Hbc, N.compare_refl. by apply (IH s2).
  - rewrite Hab. by apply N.compare_lt_iff in Hbc as ->.
  - rewrite <- Hbc. by apply N.compare_lt_iff in Hab as ->.
  - assert (Ascii.N_of_ascii a < Ascii.N_of_ascii c)%N as Hac by lia.
    by apply N.compare_lt_iff in Hac as ->.
Qed.

Lemma keyLt_irrefl k : ~ keyLt k k.
Proof. unfold keyLt. by rewrite string_compare_refl. Qed.

Lemma keyLt_trans k1 k2 k3 : keyLt k1 k2 -> keyLt k2 k3 -> keyLt k1 k3.
Proof. apply string_compare_lt_trans. Qed.

Lemma keyLe_alt k k' : keyLe k k' <-> ~ keyLt k' k.
Proof.
  unfold keyLe, keyLt. rewrite (String.compare_antisym k k').
  destruct (String.compare k' k); cbn; split; congruence.
Qed.

Lemma keyLe_lt_eq k k' : keyLe k k' <-> keyLt k k' \/ k = k'.
Proof.
  unfold keyLe, keyLt. rewrite <- string_compare_eq.
  destruct (String.compare k k'); split; try tauto; try congruence.
  intros [?|?]; congruence.
Qed.

Lemma keyLt_le k k' : keyLt k k' -> keyLe k k'.
Proof. rewrite keyLe_lt_eq. tauto. Qed.

Lemma keyLe_refl k : keyLe k k.
Proof. rewrite keyLe_lt_eq. tauto. Qed.

Lemma keyLt_le_trans k1 k2 k3 : keyLt k1 k2 -> keyLe k2 k3 -> keyLt k1 k3.
Proof.
  rewrite keyLe_lt_eq. intros H12 [H23| <-]; [|done].
  by apply (keyLt_trans _ k2).
Qed.

Lemma keyLe_lt_trans k1 k2 k3 : keyLe k1 k2 -> keyLt k2 k3 -> keyLt k1 k3.
Proof.
  rewrite keyLe_lt_eq. intros [H12| ->] H23; [|done].
  by apply (keyLt_trans _ k2).
Qed.

Lemma keyLe_trans k1 k2 k3 : keyLe k1 k2 -> keyLe k2 k3 -> keyLe k1 k3.
Proof.
  rewrite (keyLe_lt_eq k1 k2). intros [H12| ->] H23; [|done].
  apply keyLt_le. by apply (keyLt_le_trans _ k2).
Qed.

Lemma keyLt_not_eq k k' : keyLt k k' -> k <> k'.
Proof. intros H ->. by apply keyLt_irrefl in H. Qed.

Lemma keyLe_neq_lt k k' : keyLe k k' -> k <> k' -> keyLt k k'.
Proof. rewrite keyLe_lt_eq. tauto. Qed.

Lemma cmpString_lt k k' : cmpString k k' < 0 <-> keyLt k k'.
Proof.
  unfold cmpString, keyLt. destruct (String.compare k k'); split; try done; lia.
Qed.

Lemma cmpString_swo : StrictWeakOrder cmpString.
Proof.
  split.
  - intros x. rewrite cmpString_lt. apply keyLt_irrefl.
  - intros x y z. rewrite !cmpString_lt. apply keyLt_trans.
  - intros x y z. rewrite !cmpString_lt, <- !keyLe_alt.
    intros H1 H2. by apply (keyLe_trans _ y).
Qed.

Lemma byTimestamp_lt a b : byTimestamp a b < 0 <-> Timestamp a < Timestamp b.
Proof.
  unfold byTimestamp.
  destruct (Z.ltb_spec (Timestamp a) (Timestamp b)); [lia|].
  destruct (Timestamp a =? Timestamp b); lia.
Qed.

Lemma byTimestamp_swo : StrictWeakOrder byTimestamp.
Proof. split; intros *; rewrite !byTimestamp_lt; lia. Qed.

Lemma sortedBy_byTimestamp l : sortedBy byTimestamp l <-> ascending l.
Proof.
  unfold sortedBy, ascending.
  induction l as [|x l IH]; [split; constructor|].
  rewrite !StronglySorted_cons, IH.
  assert (Forall (fun y => ~ byTimestamp y x < 0) l
          <-> Forall (fun y => Timestamp x <= Timestamp y) l) as ->; [|done].
  apply Forall_proper; [|done]. intros y. rewrite byTimestamp_lt. lia.
Qed.

Lemma sortedBy_cmpString l :
  sortedBy cmpString l <-> StronglySorted keyLe l.
Proof.
  unfold sortedBy.
  induction l as [|x l IH]; [split; constructor|].
  rewrite !StronglySorted_cons, IH.
  assert (Forall (fun y => ~ cmpString y x < 0) l
          <-> Forall (keyLe x) l) as ->; [|done].
  apply Forall_proper; [|done]. intros y.
  by rewrite cmpString_lt, keyLe_alt.
Qed.
End Orders.

(** ** [Add] and the pages stored in the pending map *)

Section Adding.
Implicit Types (ovm : gmap string (list ObjectVersion))
         (es : list (string * ObjectVersion)).

Lemma addEntry_eq ovm e :
  addEntry ovm e
  = <[e.1 := appendSorted (default [] (ovm !! e.1)) e.2]> ovm.
Proof.
  unfold addEntry, Add, appendSorted. destruct e as [k [id op t l tag]]. cbn.
  by destruct (ovm !! k).
Qed.

Lemma addEntry_lookup ovm e k :
  addEntry ovm e !! k = grown (ovm !! k) (arrivals k [e]).
Proof.
  rewrite addEntry_eq. unfold arrivals. rewrite filter_cons, filter_nil.
  destruct (decide (e.1 = k)) as [<-|Hne].
  - by rewrite lookup_insert_eq.
  - by rewrite lookup_insert_ne.
Qed.

Lemma arrivals_app key es1 es2 :
  arrivals key (es1 ++ es2) = arrivals key es1 ++ arrivals key es2.
Proof. unfold arrivals. by rewrite filter_app, fmap_app. Qed.

Lemma grown_app found r1 r2 :
  grown found (r1 ++ r2) = grown (grown found r1) r2.
Proof.
  destruct r1 as [|x r1]; [done|]. destruct r2 as [|y r2].
  - by rewrite app_nil_r.
  - cbn [app grown]. cbn [default]. f_equal.
    change (x :: r1 ++ y :: r2) with ((x :: r1) ++ y :: r2).
    by rewrite fold_left_app.
Qed.

Lemma addEntries_lookup es ovm k :
  fold_left addEntry es ovm !! k = grown (ovm !! k) (arrivals k es).
Proof.
  revert ovm. induction es as [|e es IH]; intros ovm; [done|].
  cbn [fold_left]. rewrite IH, addEntry_lookup.
  change (e :: es) with ([e] ++ es). by rewrite arrivals_app, grown_app.
Qed.

Lemma fold_left_over_fmap {A B C} (f : A -> B -> A) (g : C -> B)
      (l : list C) (a : A) :
  fold_left f (g <$> l) a = fold_left (fun a x => f a (g x)) l a.
Proof. revert a. induction l as [|x l IH]; intros a; [done|]. apply IH. Qed.

Lemma storePage_entries p ovm :
  storePage p ovm = fold_left addEntry (pageEntries p) ovm.
Proof.
  unfold storePage, storeDeleteMarkers, storeVersions, pageEntries.
  rewrite fold_left_app, !fold_left_over_fmap. done.
Qed.

Lemma entries_cons p pages :
  entries (p :: pages) = pageEntries p ++ entries pages.
Proof. done. Qed.

Lemma entries_app pages1 pages2 :
  entries (pages1 ++ pages2) = entries pages1 ++ entries pages2.
Proof. unfold entries. by rewrite fmap_app, concat_app. Qed.

Lemma entryCount_entries pages : entryCount pages = length (entries pages).
Proof.
  induction pages as [|p pages IH]; [done|].
  rewrite entries_cons, length_app, <- IH. unfold entryCount. cbn.
  unfold pageEntries. by rewrite length_app, !length_fmap.
Qed.

Lemma arrivals_nil_iff key es : arrivals key es = [] <-> key ∉ es.*1.
Proof.
  unfold arrivals. induction es as [|e es IH].
  { split; [intros _; apply not_elem_of_nil|done]. }
  rewrite filter_cons, fmap_cons, not_elem_of_cons.
  destruct (decide (e.1 = key)) as [He|He].
  - split; [done|]. intros [Hne _]. by destruct Hne.
  - rewrite IH. split; [|tauto]. intros Hn. split; [congruence|done].
Qed.

Lemma grown_is_Some found records :
  is_Some (grown found records) <-> is_Some found \/ records <> [].
Proof.
  destruct records; cbn.
  - split; [tauto|]. by intros [?|?].
  - split; [by right|]. by eexists.
Qed.

Lemma addEntry_size ovm e :
  (size ovm <= size (addEntry ovm e) <= S (size ovm))%nat.
Proof.
  rewrite addEntry_eq, map_size_insert. destruct (ovm !! e.1); cbn; lia.
Qed.

Lemma addEntries_size es ovm :
  (size ovm <= size (fold_left addEntry es ovm)
   <= size ovm + length es)%nat.
Proof.
  revert ovm. induction es as [|e es IH]; intros ovm; cbn [fold_left length]; [lia|].
  specialize (IH (addEntry ovm e)). pose proof (addEntry_size ovm e). lia.
Qed.
End Adding.

(** ** [firstMapKey], the loading loop and [Next] *)

Section Iterating.
Implicit Types (it : ListIterator) (pages : list ListObjectVersionsOutput).

Lemma firstMapKey_least {V} (m : gmap string V) :
  m <> ∅ ->
  exists k, firstMapKey m = Some k /\ is_Some (m !! k)
            /\ forall k', is_Some (m !! k') -> keyLe k k'.
Proof.
  intros Hne. unfold firstMapKey.
  assert (size m <> 0%nat) as Hsz by (by apply map_size_non_empty_iff).
  destruct (Nat.eqb_spec (size m) 0) as [|_]; [done|].
  pose proof (SortFunc_Permutation cmpString (map_to_list m).*1) as Hperm.
  pose proof (SortFunc_sortedBy cmpString (map_to_list m).*1 cmpString_swo)
    as Hsorted.
  apply sortedBy_cmpString in Hsorted. unfold slices_Sort.
  destruct (slices.SortFunc cmpString (map_to_list m).*1) as [|k rest].
  { apply Permutation_nil in Hperm. apply fmap_nil_inv in Hperm.
    by apply map_to_list_empty_iff in Hperm. }
  exists k. split; [done|].
  assert (forall k', k' ∈ k :: rest <-> is_Some (m !! k')) as Hkeys.
  { intros k'. rewrite Hperm, list_elem_of_fmap. split.
    - intros ([k'' v] & -> & Hin). apply elem_of_map_to_list in Hin. by eexists.
    - intros [v Hv]. exists (k', v). split; [done|].
      by apply elem_of_map_to_list. }
  split; [apply Hkeys; left|].
  intros k' Hk'. apply Hkeys in Hk'.
  apply StronglySorted_cons in Hsorted as [Hall _].
  apply elem_of_cons in Hk' as [->|Hk']; [apply keyLe_refl|].
  rewrite Forall_forall in Hall. by apply Hall.
Qed.

Lemma loadPages_spec pages it :
  c it = pages -> cursorOK it ->
  exists fetched loaded,
    loadPages pages it = Some loaded
    /\ pages = fetched ++ c loaded
    /\ cursorOK loaded
    /\ pageObjectsWithVersions loaded
       = fold_left addEntry (entries fetched) (pageObjectsWithVersions it)
    /\ (loadMore loaded = false
        \/ (2 <= size (pageObjectsWithVersions loaded))%nat)
    /\ bucket loaded = bucket it /\ prefix loaded = prefix it.
Proof.
  revert it. induction pages as [|p rest IH]; intros it Hc Hcur;
    cbn [loadPages].
  - destruct (loadMore it) eqn:Hmore.
    { unfold cursorOK in Hcur. by rewrite Hmore, Hc in Hcur. }
    cbn. exists [], it. rewrite Hc. by repeat split; auto.
  - destruct (loadMore it && (size (pageObjectsWithVersions it) <=? 1)%nat)
      eqn:Hcond.
    + apply andb_true_iff in Hcond as [Hmore _].
      unfold cursorOK in Hcur. rewrite Hmore, Hc in Hcur.
      edestruct (IH {| c := rest; bucket := bucket it; prefix := prefix it;
                      loadMore := IsTruncated p;
                      keyMarker := NextKeyMarker p;
                      versionIdMarker := NextVersionIdMarker p;
                      pageObjectsWithVersions :=
                        storePage p (pageObjectsWithVersions it) |})
        as (fetched & loaded & Hload & Hsplit & Hcur' & Hmap & Hexit & Hb & Hp).
      { done. }
      { unfold cursorOK. cbn. cbn in Hcur. destruct rest.
        - by rewrite Hcur.
        - destruct Hcur as [-> ?]. done. }
      exists (p :: fetched), loaded. rewrite Hload.
      split; [done|]. split; [by rewrite Hsplit at 1|].
      split; [done|]. split; [|by auto].
      rewrite Hmap. cbn [pageObjectsWithVersions].
      by rewrite entries_cons, fold_left_app, storePage_entries.
    + exists [], it. rewrite Hc. split; [done|]. split; [done|].
      split; [done|]. split; [done|]. split; [|done].
      apply andb_false_iff in Hcond as [?|Hsz]; [by left|right].
      apply Nat.leb_gt in Hsz. lia.
Qed.
End Iterating.

Section Invariant.
Implicit Types (it : ListIterator) (pages : list ListObjectVersionsOutput).

Lemma keyOrdered_app pages1 pages2 k k' :
  keyOrdered (pages1 ++ pages2) ->
  k ∈ (entries pages1).*1 -> k' ∈ (entries pages2).*1 -> keyLe k k'.
Proof.
  induction pages1 as [|p pages1 IH]; intros Hord Hk Hk'.
  { by apply not_elem_of_nil in Hk. }
  cbn in Hord. destruct Hord as [Hp Hord].
  rewrite entries_cons, fmap_app, elem_of_app in Hk.
  destruct Hk as [Hk|Hk]; [|by apply IH].
  apply Hp; [done|]. rewrite entries_app, fmap_app, elem_of_app. by right.
Qed.

Lemma arrivals_key_elem key es : arrivals key es <> [] <-> key ∈ es.*1.
Proof.
  rewrite arrivals_nil_iff. destruct (decide (key ∈ es.*1)); tauto.
Qed.

Lemma grown_None_history records :
  grown None records
  = match records with [] => None | _ :: _ => Some (history records) end.
Proof. by destruct records. Qed.

Lemma other_key {V} (m : gmap string V) k :
  (2 <= size m)%nat -> exists k2, k2 <> k /\ is_Some (m !! k2).
Proof.
  intros Hsz.
  assert (size (delete k m) <> 0%nat) as Hne.
  { rewrite map_size_delete. destruct (m !! k); cbn; lia. }
  apply map_size_ne_0_lookup_1 in Hne as [k2 Hk2].
  exists k2. destruct (decide (k2 = k)) as [->|Hne].
  - rewrite lookup_delete_eq in Hk2. by destruct Hk2.
  - by rewrite lookup_delete_ne in Hk2.
Qed.

(** Loading pages keeps the invariant. *)
Lemma loaded_inv pages emitted it fetched loaded :
  iterInv pages emitted it ->
  c it = fetched ++ c loaded -> cursorOK loaded ->
  pageObjectsWithVersions loaded
  = fold_left addEntry (entries fetched) (pageObjectsWithVersions it) ->
  iterInv pages emitted loaded.
Proof.
  intros (Hcur & (consumed & Hsplit & Hmap) & Hem) Hc Hcur' Hstore.
  assert (forall k, k ∈ emitted -> k ∉ (entries fetched).*1) as Hfresh.
  { intros k Hk Hin. apply (keyLt_irrefl k), Hem; [done|]. left.
    rewrite Hc, entries_app, fmap_app, elem_of_app. by left. }
  split; [done|]. split.
  - exists (consumed ++ fetched). split.
    { by rewrite Hsplit, Hc, (assoc_L (++)). }
    intros k. rewrite Hstore, addEntries_lookup, Hmap.
    destruct (decide (k ∈ emitted)) as [Hk|Hk].
    + apply Hfresh, arrivals_nil_iff in Hk. by rewrite Hk.
    + by rewrite entries_app, arrivals_app, grown_app.
  - intros e k' He [Hk'|Hk']; apply Hem; try done.
    + left. rewrite Hc, entries_app, fmap_app, elem_of_app. by right.
    + rewrite Hstore, addEntries_lookup in Hk'.
      apply grown_is_Some in Hk' as [Hk'|Hk']; [by right|left].
      apply arrivals_key_elem in Hk'.
      rewrite Hc, entries_app, fmap_app, elem_of_app. by left.
Qed.

(** With the invariant, the smallest pending key is complete once the
    loading loop is over. *)
Lemma least_key_complete pages emitted loaded key :
  keyOrdered pages -> iterInv pages emitted loaded ->
  (loadMore loaded = false
   \/ (2 <= size (pageObjectsWithVersions loaded))%nat) ->
  is_Some (pageObjectsWithVersions loaded !! key) ->
  (forall k', is_Some (pageObjectsWithVersions loaded !! k') ->
              keyLe key k') ->
  forall k', k' ∈ (entries (c loaded)).*1 -> keyLt key k'.
Proof.
  intros Hord (Hcur & (consumed & Hsplit & Hmap) & Hem) Hexit Hkey Hleast
         k' Hk'.
  unfold cursorOK in Hcur. destruct Hexit as [Hmore|Hsz].
  { rewrite Hmore in Hcur. rewrite Hcur in Hk'.
    by apply not_elem_of_nil in Hk'. }
  destruct (other_key _ key Hsz) as (k2 & Hne & Hk2).
  apply (keyLt_le_trans _ k2).
  - apply keyLe_neq_lt; [by apply Hleast|done].
  - apply (keyOrdered_app consumed (c loaded)); [by rewrite <- Hsplit| |done].
    rewrite Hmap in Hk2. destruct (decide (k2 ∈ emitted)).
    + by destruct Hk2.
    + apply arrivals_key_elem. intros Hnil. rewrite Hnil in Hk2.
      by destruct Hk2.
Qed.
End Invariant.

Section NextStep.
Implicit Types (it : ListIterator) (pages : list ListObjectVersionsOutput).

(** One call of [Next] on an iterator with the invariant: what it loads,
    and that it either hands out the smallest pending key, with its whole
    history, or signals the end with nothing pending and no page left. *)
Lemma Next_inv pages emitted it :
  keyOrdered pages -> iterInv pages emitted it ->
  exists fetched loaded,
    loadPages (c it) it = Some loaded
    /\ c it = fetched ++ c loaded
    /\ iterInv pages emitted loaded
    /\ ((Next it = (NextEOF, loaded)
         /\ pageObjectsWithVersions loaded = ∅
         /\ c loaded = [] /\ loadMore loaded = false
         /\ forall k, k ∈ (entries pages).*1 -> k ∈ emitted)
        \/ (exists key versions it',
              Next it = (NextOk key versions, it')
              /\ pageObjectsWithVersions loaded !! key = Some versions
              /\ (forall k', is_Some (pageObjectsWithVersions loaded !! k')
                             -> keyLe key k')
              /\ ((2 <= size (pageObjectsWithVersions loaded))%nat
                  \/ (c loaded = [] /\ loadMore loaded = false))
              /\ c it' = c loaded
              /\ loadMore it' = loadMore loaded
              /\ pageObjectsWithVersions it'
                 = delete key (pageObjectsWithVersions loaded)
              /\ (key ∉ (entries (c it')).*1)
              /\ versions = history (arrivals key (entries pages))
              /\ key ∈ (entries pages).*1
              /\ (key ∉ emitted)
              /\ (forall e, e ∈ emitted -> keyLt e key)
              /\ iterInv pages (key :: emitted) it'
              /\ (enoughFuel it' < enoughFuel it)%nat)).
Proof.
  intros Hord Hinv.
  destruct (loadPages_spec (c it) it eq_refl (proj1 Hinv))
    as (fetched & loaded & Hload & Hc & Hcur & Hstore & Hexit & _ & _).
  exists fetched, loaded. split; [done|]. split; [done|].
  pose proof (loaded_inv _ _ _ _ _ Hinv Hc Hcur Hstore) as Hinv'.
  split; [done|].
  destruct Hinv' as (_ & (consumed & Hsplit & Hmap) & Hem).
  unfold Next. rewrite Hload.
  destruct (Nat.eqb_spec (size (pageObjectsWithVersions loaded)) 0)
    as [Hz|Hnz].
  - left. apply map_size_empty_iff in Hz as Hempty.
    assert (loadMore loaded = false) as Hmore
        by (destruct Hexit as [?|?]; [done|lia]).
    assert (c loaded = []) as Hnil
        by (unfold cursorOK in Hcur; by rewrite Hmore in Hcur).
    repeat split; try done.
    intros k Hk. destruct (decide (k ∈ emitted)) as [|Hn]; [done|exfalso].
    specialize (Hmap k). rewrite Hempty, lookup_empty, decide_False in Hmap
      by done.
    rewrite Hsplit, Hnil, app_nil_r in Hk.
    apply arrivals_key_elem in Hk.
    destruct (arrivals k (entries consumed)); done.
  - right. apply map_size_non_empty_iff in Hnz as Hne.
    destruct (firstMapKey_least _ Hne) as (key & Hfirst & [versions Hkey] & Hleast).
    rewrite Hfirst, Hkey. cbn [default].
    eexists key, versions, _. split; [done|]. cbn.
    assert (key ∉ emitted) as Hfresh.
    { intros Hin. specialize (Hmap key). rewrite decide_True in Hmap by done.
      congruence. }
    assert (forall k', k' ∈ (entries (c loaded)).*1 -> keyLt key k') as Hbelow.
    { eapply least_key_complete; eauto.
      split; [done|]. split; [by exists consumed|done]. }
    assert (key ∉ (entries (c loaded)).*1) as Hgone.
    { intros Hin. by apply Hbelow, keyLt_irrefl in Hin. }
    assert (arrivals key (entries pages)
            = arrivals key (entries consumed)) as Hall.
    { rewrite Hsplit, entries_app, arrivals_app.
      apply arrivals_nil_iff in Hgone. by rewrite Hgone, app_nil_r. }
    specialize (Hmap key) as Hmk. rewrite decide_False, Hkey in Hmk by done.
    rewrite grown_None_history, <- Hall in Hmk.
    split; [done|]. split; [done|]. split.
    { destruct Hexit as [Hmore|?]; [right|by left]. split; [|done].
      unfold cursorOK in Hcur. by rewrite Hmore in Hcur. }
    split; [done|]. split; [done|]. split; [done|]. split; [done|].
    split. { destruct (arrivals key (entries pages)); congruence. }
    split. { apply arrivals_key_elem. intros Hnil. by rewrite Hnil in Hmk. }
    split; [done|]. split. { intros e He. apply Hem; [done|]. right. by eexists. }
    split.
    + split; [done|]. split.
      * exists consumed. split; [done|]. intros k. cbn.
        destruct (decide (k = key)) as [->|Hk].
        -- rewrite lookup_delete_eq, decide_True; [done|left].
        -- rewrite lookup_delete_ne by done. rewrite Hmap.
           destruct (decide (k ∈ emitted)) as [Hin|Hin].
           ++ rewrite decide_True; [done|by right].
           ++ rewrite decide_False; [done|].
              rewrite not_elem_of_cons. done.
      * intros e k' He Hk'. cbn in Hk'.
        apply elem_of_cons in He as [->|He].
        -- destruct Hk' as [Hk'|Hk']; [by apply Hbelow|].
           destruct (decide (k' = key)) as [->|Hne'].
           ++ rewrite lookup_delete_eq in Hk'. by destruct Hk'.
           ++ rewrite lookup_delete_ne in Hk' by done.
              apply keyLe_neq_lt; [by apply Hleast|done].
        -- apply Hem; [done|]. destruct Hk' as [Hk'|Hk']; [by left|right].
           destruct (decide (k' = key)) as [->|Hne'].
           ++ by eexists.
           ++ by rewrite lookup_delete_ne in Hk'.
    + unfold enoughFuel. cbn [c pageObjectsWithVersions].
      rewrite map_size_delete, Hkey. cbn beta iota.
      pose proof (addEntries_size (entries fetched)
                                  (pageObjectsWithVersions it)) as Hsize.
      rewrite <- Hstore in Hsize.
      rewrite Hc, !entryCount_entries, entries_app, length_app. lia.
Qed.
End NextStep.

Section Draining.
Implicit Types (it : ListIterator) (pages : list ListObjectVersionsOutput).

Lemma List_inv (cl : Client) bucket prefix :
  wellTruncated (cl bucket prefix) ->
  iterInv (cl bucket prefix) [] (List cl bucket prefix).
Proof.
  intros Hwt. split; [done|]. split.
  - exists []. split; [done|]. intros k. cbn. by rewrite lookup_empty.
  - intros e k' He. by apply not_elem_of_nil in He.
Qed.

Lemma afterCalls_S n it :
  afterCalls (S n) it = snd (Next (afterCalls n it)).
Proof. done. Qed.

Lemma afterCalls_inv pages it n :
  keyOrdered pages -> iterInv pages [] it ->
  exists emitted, iterInv pages emitted (afterCalls n it).
Proof.
  intros Hord Hinv. induction n as [|n [emitted IH]]; [by exists []|].
  rewrite afterCalls_S.
  destruct (Next_inv _ _ _ Hord IH)
    as (fetched & loaded & _ & _ & Hl & [(-> & _)|Hemit]).
  - by exists emitted.
  - destruct Hemit as (key & versions & it' & -> & Hrest).
    exists (key :: emitted). cbn. apply Hrest.
Qed.

Lemma drain_spec pages fuel it emitted :
  keyOrdered pages -> iterInv pages emitted it ->
  (enoughFuel it <= fuel)%nat ->
  exists out,
    drain fuel it = (out, Exhausted)
    /\ StronglySorted keyLt out.*1
    /\ (forall k, k ∈ out.*1 ->
                  k ∈ (entries pages).*1
                  /\ forall e, e ∈ emitted -> keyLt e k)
    /\ Forall (fun kh => kh.2 = history (arrivals kh.1 (entries pages))) out
    /\ (forall k, k ∈ (entries pages).*1 -> k ∈ emitted \/ k ∈ out.*1).
Proof.
  intros Hord. revert it emitted.
  induction fuel as [|fuel IH]; intros it emitted Hinv Hfuel.
  { unfold enoughFuel in Hfuel. lia. }
  cbn [drain].
  destruct (Next_inv _ _ _ Hord Hinv)
    as (fetched & loaded & _ & _ & _ & [(-> & _ & _ & _ & Hall)|Hemit]).
  - exists []. split; [done|]. split; [constructor|].
    split; [by intros k Hk; apply not_elem_of_nil in Hk|].
    split; [constructor|]. intros k Hk. left. by apply Hall.
  - destruct Hemit as (key & versions & it' & -> & _ & _ & _ & _ & _ & _ & _
                       & Hhist & Hkey & _ & Hlt & Hinv' & Hless).
    destruct (IH it' (key :: emitted) Hinv') as (out & -> & Hs & Hk & Hh & Hc);
      [lia|].
    exists ((key, versions) :: out). split; [done|].
    split; [|split; [|split]].
    + cbn. constructor; [done|]. apply Forall_forall. intros k Hin.
      apply Hk; [done|left].
    + intros k Hin. cbn in Hin. apply elem_of_cons in Hin as [->|Hin].
      * by split.
      * split; [by apply Hk|]. intros e He. apply Hk; [done|by right].
    + by constructor.
    + intros k Hin. destruct (Hc k Hin) as [Hk'|Hk'].
      * apply elem_of_cons in Hk' as [->|?]; [right; left|by left].
      * right. cbn. by right.
Qed.

Lemma StronglySorted_keyLt_NoDup (l : list string) :
  StronglySorted keyLt l -> NoDup l.
Proof.
  induction 1 as [|k l Hs IH Hall]; constructor; [|done].
  intros Hin. rewrite Forall_forall in Hall.
  by apply Hall, keyLt_irrefl in Hin.
Qed.
End Draining.

(** C6 -- on a page stream whose keys do not decrease from page to page,
    [Next] called until the end hands out every key of the stream exactly
    once, each with the slice built from all the records of the key, so
    never while a page still to come holds records for it; it hands out
    the smallest pending key, only when two keys are pending or no page is
    left, and it signals the end exactly when nothing is pending and no
    page is left. *)
Theorem iterator_complete_no_early_emission :
  forall (cl : Client) (bucket : string) (prefix : option string),
    let pages := cl bucket prefix in
    let it0 := List cl bucket prefix in
    wellTruncated pages -> keyOrdered pages ->
    exists out,
      drain (enoughFuel it0) it0 = (out, Exhausted)
      /\ NoDup out.*1
      /\ (forall k, k ∈ out.*1 <-> k ∈ (entries pages).*1)
      /\ (forall k h, (k, h) ∈ out ->
                      h = history (arrivals k (entries pages)))
      /\ forall n, exists loaded,
           let it := afterCalls n it0 in
           loadPages (c it) it = Some loaded
           /\ (fst (Next it) = NextEOF
               <-> pageObjectsWithVersions loaded = ∅ /\ c loaded = [])
           /\ match Next it with
              | (NextOk key versions, it') =>
                  pageObjectsWithVersions loaded !! key = Some versions
                  /\ (forall k', is_Some (pageObjectsWithVersions loaded !! k')
                                 -> keyLe key k')
                  /\ ((2 <= size (pageObjectsWithVersions loaded))%nat
                      \/ (c loaded = [] /\ loadMore loaded = false))
                  /\ c it' = c loaded
                  /\ (key ∉ (entries (c it')).*1)
              | (NextEOF, _) =>
                  pageObjectsWithVersions loaded = ∅
                  /\ c loaded = [] /\ loadMore loaded = false
              | (_, _) => False
              end.
Proof.
  intros cl bucket prefix pages it0 Hwt Hord.
  pose proof (List_inv cl bucket prefix Hwt) as Hinv. fold pages it0 in Hinv.
  destruct (drain_spec pages (enoughFuel it0) it0 [] Hord Hinv (le_n _))
    as (out & Hdrain & Hsorted & Hkeys & Hhist & Hall).
  exists out. split; [done|].
  split; [by apply StronglySorted_keyLt_NoDup|]. split; [|split].
  - intros k. split; [by intros Hk; apply Hkeys|].
    intros Hk. destruct (Hall k Hk) as [He|?]; [|done].
    by apply not_elem_of_nil in He.
  - intros k h Hin. rewrite Forall_forall in Hhist. by apply (Hhist (k, h)).
  - intros n. destruct (afterCalls_inv pages it0 n Hord Hinv) as [emitted Hn].
    destruct (Next_inv _ _ _ Hord Hn)
      as (fetched & loaded & Hload & _ & _ & [Heof|Hemit]).
    + destruct Heof as (HN & Hempty & Hnil & Hmore & _).
      exists loaded. cbn zeta. rewrite HN. by repeat split.
    + destruct Hemit as (key & versions & it' & HN & Hkey & Hleast & Hexit
                         & Hc & _ & _ & Hgone & _).
      exists loaded. cbn zeta. rewrite HN. split; [done|]. split.
      * cbn. split; [done|]. intros [Hempty _].
        by rewrite Hempty, lookup_empty in Hkey.
      * by repeat split.
Qed.

(** ** The slices of the pending map *)

Section Slices.
Implicit Types (ovm : gmap string (list ObjectVersion))
         (records sl : list ObjectVersion).

Lemma appendSorted_perm sl v : appendSorted sl v ≡ₚ sl ++ [v].
Proof. apply SortFunc_Permutation. Qed.

Lemma appendSorted_ascending sl v : ascending (appendSorted sl v).
Proof. apply sortedBy_byTimestamp, SortFunc_sortedBy, byTimestamp_swo. Qed.

Lemma fold_appendSorted_perm records sl :
  fold_left appendSorted records sl ≡ₚ sl ++ records.
Proof.
  revert sl. induction records as [|v records IH]; intros sl; cbn [fold_left].
  - by rewrite app_nil_r.
  - rewrite IH, appendSorted_perm. by rewrite <- (assoc_L (++)).
Qed.

Lemma fold_appendSorted_ascending records sl :
  ascending sl -> ascending (fold_left appendSorted records sl).
Proof.
  revert sl. induction records as [|v records IH]; intros sl Hsl; [done|].
  cbn [fold_left]. apply IH, appendSorted_ascending.
Qed.

Lemma history_perm records : history records ≡ₚ records.
Proof. apply (fold_appendSorted_perm records []). Qed.

Lemma history_ascending records : ascending (history records).
Proof. apply fold_appendSorted_ascending. constructor. Qed.

Lemma grown_Forall (P : list ObjectVersion -> Prop) found records sl :
  (forall sl0, found = Some sl0 -> P sl0) ->
  (forall sl0, (found = None -> sl0 = []) ->
               (forall sl1, found = Some sl1 -> sl0 = sl1) ->
               records <> [] -> P (fold_left appendSorted records sl0)) ->
  grown found records = Some sl -> P sl.
Proof.
  intros Hfound Hgrow. destruct records as [|v records]; cbn.
  - apply Hfound.
  - intros [= <-]. apply Hgrow; [|by intros ? ->|done].
    by intros ->.
Qed.

Lemma addEntries_ascending es ovm :
  (forall k sl, ovm !! k = Some sl -> ascending sl) ->
  forall k sl, fold_left addEntry es ovm !! k = Some sl -> ascending sl.
Proof.
  intros Hovm k sl. rewrite addEntries_lookup.
  apply grown_Forall; [apply Hovm|].
  intros sl0 Hnone Hsome _. apply fold_appendSorted_ascending.
  destruct (ovm !! k) as [sl1|] eqn:Hk.
  - rewrite (Hsome sl1 eq_refl). by apply (Hovm k).
  - rewrite Hnone by done. constructor.
Qed.

Lemma addEntries_Forall (P : ObjectVersion -> Prop) es ovm :
  Forall (fun e => P e.2) es ->
  (forall k sl, ovm !! k = Some sl -> Forall P sl) ->
  forall k sl, fold_left addEntry es ovm !! k = Some sl -> Forall P sl.
Proof.
  intros Hes Hovm k sl. rewrite addEntries_lookup.
  apply grown_Forall; [apply Hovm|].
  intros sl0 Hnone Hsome _. rewrite fold_appendSorted_perm.
  apply Forall_app. split.
  - destruct (ovm !! k) as [sl1|] eqn:Hk.
    + rewrite (Hsome sl1 eq_refl). by apply (Hovm k).
    + by rewrite Hnone.
  - unfold arrivals. apply Forall_fmap, Forall_forall. intros e He.
    apply list_elem_of_filter in He as [_ He].
    rewrite Forall_forall in Hes. by apply Hes.
Qed.
End Slices.

(** C8 -- after any sequence of calls of [Add], in any order, the slice
    stored for each key is in ascending order of time; [Add] and the
    [delete] of [Next] keep every slice of the map in that order. *)
Theorem Add_keeps_slices_sorted :
  forall (calls : list (string * ObjectVersion)),
    (forall k sl, fold_left addEntry calls ∅ !! k = Some sl -> ascending sl)
    /\ (forall ovm,
          (forall k sl, ovm !! k = Some sl -> ascending sl) ->
          (forall k sl, fold_left addEntry calls ovm !! k = Some sl ->
                        ascending sl)
          /\ (forall key versionID operation timestamp isLatest etag k sl,
                Add ovm key versionID operation timestamp isLatest etag !! k
                = Some sl -> ascending sl)
          /\ (forall key k sl, delete key ovm !! k = Some sl -> ascending sl)).
Proof.
  intros calls. split.
  - apply addEntries_ascending. intros k sl. by rewrite lookup_empty.
  - intros ovm Hovm. split; [by apply addEntries_ascending|]. split.
    + intros key versionID operation timestamp isLatest etag k sl.
      apply (addEntries_ascending
               [(key, {| VersionID := versionID; Operation := operation;
                         Timestamp := timestamp; IsLatest := isLatest;
                         ETag := etag |})] ovm Hovm).
    + intros key k sl. destruct (decide (k = key)) as [->|Hne].
      * by rewrite lookup_delete_eq.
      * rewrite lookup_delete_ne by done. apply Hovm.
Qed.

(** ** The same records on different pages *)

Section Pagination.
Implicit Types (pages : list ListObjectVersionsOutput).

Lemma sorted_keys_unique (l1 l2 : list string) :
  StronglySorted keyLt l1 -> StronglySorted keyLt l2 ->
  (forall k, k ∈ l1 <-> k ∈ l2) -> l1 = l2.
Proof.
  intros H1 H2 Hsame.
  apply (StronglySorted_unique_strong keyLt); try done.
  - intros x1 x2 _ _ H12 H21. exfalso.
    apply (keyLt_irrefl x1). by apply (keyLt_trans _ x2).
  - apply NoDup_Permutation; try done;
      by apply StronglySorted_keyLt_NoDup.
Qed.

Lemma drained_histories pages (out : list (string * list ObjectVersion)) :
  Forall (fun kh => kh.2 = history (arrivals kh.1 (entries pages))) out ->
  out = histories out.*1 pages.
Proof.
  unfold histories. induction 1 as [|[k h] out Hkh Hall IH]; [done|].
  cbn in *. by rewrite <- IH, Hkh.
Qed.

Lemma arrivals_Permutation key es1 es2 :
  es1 ≡ₚ es2 -> arrivals key es1 ≡ₚ arrivals key es2.
Proof. unfold arrivals. by intros ->. Qed.

Lemma ascending_unique (l1 l2 : list ObjectVersion) :
  NoDup (Timestamp <$> l1) -> ascending l1 -> ascending l2 -> l1 ≡ₚ l2 ->
  l1 = l2.
Proof.
  intros Hnd H1 H2 Hperm.
  apply (StronglySorted_unique_strong
           (fun a b => Timestamp a <= Timestamp b)); try done.
  intros x1 x2 Hx1 Hx2 H12 H21. rewrite <- Hperm in Hx2.
  apply (NoDup_fmap_elem_eq Timestamp l1); try done. lia.
Qed.

Lemma history_unique (r1 r2 : list ObjectVersion) :
  NoDup (Timestamp <$> r1) -> r1 ≡ₚ r2 -> history r1 = history r2.
Proof.
  intros Hnd Hperm. apply ascending_unique.
  - by rewrite history_perm.
  - apply history_ascending.
  - apply history_ascending.
  - by rewrite !history_perm.
Qed.

Lemma drain_as_histories (cl : Client) bucket prefix :
  wellTruncated (cl bucket prefix) -> keyOrdered (cl bucket prefix) ->
  exists keys,
    drain (enoughFuel (List cl bucket prefix)) (List cl bucket prefix)
    = (histories keys (cl bucket prefix), Exhausted)
    /\ StronglySorted keyLt keys
    /\ forall k, k ∈ keys <-> k ∈ (entries (cl bucket prefix)).*1.
Proof.
  intros Hwt Hord.
  destruct (drain_spec (cl bucket prefix) _ _ [] Hord
                       (List_inv cl bucket prefix Hwt) (le_n _))
    as (out & Hdrain & Hsorted & Hkeys & Hhist & Hall).
  exists out.*1. rewrite Hdrain, <- (drained_histories _ _ Hhist).
  split; [done|]. split; [done|].
  intros k. split; [by intros Hk; apply Hkeys|].
  intros Hk. destruct (Hall k Hk) as [He|?]; [|done].
  by apply not_elem_of_nil in He.
Qed.
End Pagination.

(** C7 (as amended) -- two page streams with the same records, both with
    keys that do not decrease from page to page, make the iterator hand
    out the same keys in the same order, and for each key two ascending
    slices with the same records; the two slices are the same sequence
    when no two records of a key are from the same instant. *)
Theorem pagination_safety :
  forall (cl1 cl2 : Client) (bucket1 bucket2 : string)
         (prefix1 prefix2 : option string),
    let pages1 := cl1 bucket1 prefix1 in
    let pages2 := cl2 bucket2 prefix2 in
    wellTruncated pages1 -> keyOrdered pages1 ->
    wellTruncated pages2 -> keyOrdered pages2 ->
    entries pages1 ≡ₚ entries pages2 ->
    exists keys,
      drain (enoughFuel (List cl1 bucket1 prefix1)) (List cl1 bucket1 prefix1)
      = (histories keys pages1, Exhausted)
      /\ drain (enoughFuel (List cl2 bucket2 prefix2))
               (List cl2 bucket2 prefix2)
         = (histories keys pages2, Exhausted)
      /\ (forall key,
            history (arrivals key (entries pages1))
            ≡ₚ history (arrivals key (entries pages2))
            /\ ascending (history (arrivals key (entries pages1)))
            /\ ascending (history (arrivals key (entries pages2))))
      /\ (distinctTimes (entries pages1) ->
          histories keys pages1 = histories keys pages2).
Proof.
  intros cl1 cl2 bucket1 bucket2 prefix1 prefix2 pages1 pages2
         Hwt1 Hord1 Hwt2 Hord2 Hperm.
  destruct (drain_as_histories cl1 bucket1 prefix1 Hwt1 Hord1)
    as (keys1 & Hd1 & Hs1 & Hk1).
  destruct (drain_as_histories cl2 bucket2 prefix2 Hwt2 Hord2)
    as (keys2 & Hd2 & Hs2 & Hk2).
  fold pages1 in Hd1, Hk1. fold pages2 in Hd2, Hk2.
  assert (keys1 = keys2) as <-.
  { apply sorted_keys_unique; try done. intros k.
    by rewrite Hk1, Hk2, Hperm. }
  exists keys1. split; [done|]. split; [done|]. split.
  - intros key. split; [|split; apply history_ascending].
    rewrite !history_perm. by apply arrivals_Permutation.
  - intros Hdistinct. unfold histories. apply list_fmap_ext.
    intros _ k _. f_equal.
    apply history_unique; [apply Hdistinct|by apply arrivals_Permutation].
Qed.

(** ** The second run *)

Section SecondRun.
Variable referenceTimestamp : Time.
Implicit Types (versions listed : list ObjectVersion).

Lemma insertByTime_ascending new versions :
  ascending versions -> ascending (insertByTime new versions).
Proof.
  unfold ascending. induction 1 as [|v rest Hrest IH Hv]; cbn.
  - by repeat constructor.
  - destruct (Z.ltb_spec (Timestamp new) (Timestamp v)) as [Hlt|Hge].
    + constructor; [by constructor|]. constructor; [lia|].
      eapply Forall_impl; [exact Hv|]. intros u Hu. cbn in Hu. lia.
    + constructor; [done|]. apply Forall_forall. intros u Hu.
      apply insertByTime_elem in Hu as [->|Hu]; [done|].
      rewrite Forall_forall in Hv. by apply Hv.
Qed.

Lemma retire_ascending versions :
  ascending versions -> ascending (retire <$> versions).
Proof.
  unfold ascending. induction 1 as [|v rest Hrest IH Hv]; cbn.
  - constructor.
  - constructor; [done|]. apply Forall_fmap.
    eapply Forall_impl; [exact Hv|]. by intros u Hu.
Qed.

(** The scan of a slice in ascending order finds a newest record among
    those from before the reference time. *)
Lemma scan_finds_newest listed :
  ascending listed ->
  ~ Forall (fun v => referenceTimestamp <= Timestamp v) listed ->
  newestBefore referenceTimestamp listed
               (versionAtTimestamp referenceTimestamp listed).
Proof.
  intros Hasc Hsome.
  destruct (versionAtTimestamp_cases referenceTimestamp listed)
    as [[_ Hnone]|[Hin Hbefore]]; [done|].
  split; [done|]. split; [done|].
  intros u Hu Hub. by apply ascending_before_max.
Qed.

(** What the scan finds in a second listing of the records, when each
    record [w] of the first comes back as [f w] with its time. *)
Lemma scan_of_relisted (f : ObjectVersion -> ObjectVersion)
      versions listed :
  (forall w, Timestamp (f w) = Timestamp w) ->
  f ZeroObjectVersion = ZeroObjectVersion ->
  ascending versions -> untiedAt referenceTimestamp versions ->
  ascending listed ->
  (forall x, x ∈ listed /\ before referenceTimestamp x
             <-> exists w, w ∈ versions /\ before referenceTimestamp w
                           /\ x = f w) ->
  versionAtTimestamp referenceTimestamp listed
  = f (versionAtTimestamp referenceTimestamp versions).
Proof.
  intros Htime Hzero Hasc Huntied Hasc' Hsame.
  destruct (decide (Forall (fun v => referenceTimestamp <= Timestamp v)
                           versions)) as [Hnone|Hsome].
  - rewrite (atReference_absent _ _ Hnone), Hzero.
    apply atReference_absent, Forall_forall. intros x Hx.
    destruct (Z.le_gt_cases referenceTimestamp (Timestamp x))
      as [|Hbefore]; [done|].
    destruct (proj1 (Hsame x)) as (w & Hw & Hwb & _);
      [split; [done|unfold before; lia]|].
    rewrite Forall_forall in Hnone. specialize (Hnone w Hw).
    unfold before in Hwb. lia.
  - pose proof (scan_finds_newest versions Hasc Hsome)
      as (Hin & Hbefore & Hmax).
    set (at1 := versionAtTimestamp referenceTimestamp versions) in *.
    assert (f at1 ∈ listed /\ before referenceTimestamp (f at1))
      as [Hin' Hbefore'] by (apply Hsame; by exists at1).
    assert (~ Forall (fun v => referenceTimestamp <= Timestamp v) listed)
      as Hsome'.
    { rewrite Forall_forall. intros Hall. specialize (Hall _ Hin').
      unfold before in Hbefore'. lia. }
    pose proof (scan_finds_newest listed Hasc' Hsome')
      as (Hin2 & Hbefore2 & Hmax2).
    destruct (proj1 (Hsame _) (conj Hin2 Hbefore2)) as (w & Hw & Hwb & Heq).
    rewrite Heq in Hmax2 |- *.
    f_equal. apply Huntied; [|done].
    split; [done|]. split; [done|].
    intros u Hu Hub. specialize (Hmax2 _ Hin' Hbefore').
    rewrite !Htime in Hmax2. specialize (Hmax u Hu Hub). lia.
Qed.

Lemma latest_of_relisted versions listed :
  soleLatest versions -> listed ≡ₚ versions ->
  latestVersion listed = latestVersion versions.
Proof.
  intros Hsole Hperm. rewrite !latestVersion_last.
  destruct (last (filter (fun v => IsLatest v = true) listed))
    as [x|] eqn:Hx,
    (last (filter (fun v => IsLatest v = true) versions))
    as [y|] eqn:Hy; cbn.
  - apply last_filter_elem in Hx as [Hx ?], Hy as [Hy ?].
    apply Hsole; [by rewrite <- Hperm|done..].
  - apply last_filter_elem in Hx as [Hx Hl]. apply last_None in Hy.
    rewrite Hperm in Hx.
    assert (x ∈ filter (fun v => IsLatest v = true) versions) as Hin
        by (by apply list_elem_of_filter).
    rewrite Hy in Hin. by apply elem_of_nil in Hin.
  - apply last_filter_elem in Hy as [Hy Hl]. apply last_None in Hx.
    rewrite <- Hperm in Hy.
    assert (y ∈ filter (fun v => IsLatest v = true) listed) as Hin
        by (by apply list_elem_of_filter).
    rewrite Hx in Hin. by apply elem_of_nil in Hin.
  - done.
Qed.

(** The two variables of the scan, for any listing in ascending order of
    the records that a mutation leaves. *)
Lemma scan_after_relisting new versions listed :
  IsLatest new = true -> referenceTimestamp <= Timestamp new ->
  ascending versions -> untiedAt referenceTimestamp versions ->
  listed ≡ₚ insertByTime new (retire <$> versions) -> ascending listed ->
  latestVersion listed = new
  /\ versionAtTimestamp referenceTimestamp listed
     = retire (versionAtTimestamp referenceTimestamp versions).
Proof.
  intros Hl Ht Hasc Huntied Hperm Hasc'. split.
  - rewrite latestVersion_last.
    assert (filter (fun v => IsLatest v = true) listed = [new]) as ->;
      [|done].
    apply Permutation_singleton_r. rewrite Hperm.
    rewrite (insertByTime_filter_only (fun v => IsLatest v = true));
      [done..|apply retired_not_latest].
  - apply scan_of_relisted; try done.
    intros x. rewrite Hperm, insertByTime_elem. split.
    + intros [[->|Hx] Hxb]; [unfold before in Hxb; lia|].
      apply list_elem_of_fmap in Hx as (w & -> & Hw). by exists w.
    + intros (w & Hw & Hwb & ->). split; [|done].
      right. apply list_elem_of_fmap. by exists w.
Qed.
End SecondRun.

Lemma one_key_ordered (pages : list ListObjectVersionsOutput) :
  Forall (fun k => k = "k") (entries pages).*1 -> keyOrdered pages.
Proof.
  induction pages as [|p pages IH]; intros Hall; [done|].
  rewrite entries_cons, fmap_app in Hall. apply Forall_app in Hall as [Hp Hrest].
  split; [|by apply IH]. intros k k' Hk Hk'.
  rewrite Forall_forall in Hp, Hrest.
  rewrite (Hp k Hk), (Hrest k' Hk'). apply keyLe_refl.
Qed.

(** C1 (as stated) fails: a put and a delete marker of one key are from the
    same instant 5, before the reference time 7, and a later put is
    current.  The first run reads them as put, marker, later put, finds the
    marker for the reference time and sends a delete.  The second run lists
    the same records and the new delete marker on two pages, [Next] hands
    them out as marker, put, later put, new marker, and [main] copies the put
    instead of skipping the key. *)
Lemma second_run_copies_a_tied_version :
  let versions := [tiedPut; tiedDelete; laterPut true] in
  let st := {| stampVersionID := "d2"; stampTime := 20 |} in
  let versions' := [tiedPut; tiedDelete; laterPut false; newDelete] in
  let listed := [tiedDelete; tiedPut; laterPut false; newDelete] in
  drain (enoughFuel (List tiedHistory "b" None)) (List tiedHistory "b" None)
  = ([("k", versions)], Exhausted)
  /\ Forall markerWithoutETag versions
  /\ NoDup (VersionID <$> versions)
  /\ 7 < stampTime st
  /\ restoreKey "b" 7 "k" versions = Deleting (Delete "b" "k")
  /\ applyMutation (Deleting (Delete "b" "k")) st versions = Some versions'
  /\ restoreKey "b" 7 "k" versions' = Skipping
  /\ wellTruncated (tiedHistoryAfterDelete "b" None)
  /\ keyOrdered (tiedHistoryAfterDelete "b" None)
  /\ (entries (tiedHistoryAfterDelete "b" None)).*2 ≡ₚ versions'
  /\ drain (enoughFuel (List tiedHistoryAfterDelete "b" None))
           (List tiedHistoryAfterDelete "b" None)
     = ([("k", listed)], Exhausted)
  /\ restoreKey "b" 7 "k" listed = Restoring (Copy "b" "b" "k" "v1")
  /\ main false "" "b" 7 tiedHistoryAfterDelete (fun _ => true)
     = ([("k", Restoring (Copy "b" "b" "k" "v1"))], Exit 0).
Proof.
  cbv zeta.
  split; [by vm_compute|].
  split; [repeat constructor; by intros ?|].
  split; [apply (bool_decide_unpack _); by vm_compute|].
  split; [cbn; lia|].
  split; [by vm_compute|].
  split; [by vm_compute|].
  split; [by vm_compute|].
  split; [done|].
  split; [apply one_key_ordered; by repeat constructor|].
  split.
  { cbn. unfold tiedPut, tiedDelete, laterPut, newDelete, putRecord,
           deleteRecord. cbn.
    etrans; [apply (Permutation_app_comm [_; _] [_; _])|].
    apply Permutation_swap. }
  split; [by vm_compute|].
  split; by vm_compute.
Qed.

(** C1 (amended) -- a second run for the same reference time skips the key,
    whatever the order and the pages in which the service lists the records
    that the first run has left, when the slice of the first run is in
    ascending order and holds one newest record from before the reference
    time (no second record of that instant) and at most one record marked
    as latest, and the version that the first run creates is from a time
    after the reference time: the decision of the second run is to skip on
    every slice in ascending order that holds those records, and so on the
    slice that [Add] builds from them in any order of arrival. *)
Theorem restore_twice_is_skip :
  forall (bucket key : string) (referenceTimestamp : Time)
         (versions : list ObjectVersion) (st : Stamp),
    ascending versions ->
    untiedAt referenceTimestamp versions ->
    soleLatest versions ->
    Forall markerWithoutETag versions ->
    NoDup (VersionID <$> versions) ->
    referenceTimestamp < stampTime st ->
    exists versions',
      applyMutation (restoreKey bucket referenceTimestamp key versions)
                    st versions = Some versions'
      /\ ascending versions'
      /\ (forall listed,
            listed ≡ₚ versions' -> ascending listed ->
            restoreKey bucket referenceTimestamp key listed = Skipping)
      /\ (forall arrival,
            arrival ≡ₚ versions' ->
            restoreKey bucket referenceTimestamp key (history arrival)
            = Skipping).
Proof.
  intros bucket key referenceTimestamp versions st Hasc Huntied Hsole
         Hmarkers Hids Hlater.
  enough (exists versions',
             applyMutation (restoreKey bucket referenceTimestamp key versions)
                           st versions = Some versions'
             /\ ascending versions'
             /\ forall listed,
                  listed ≡ₚ versions' -> ascending listed ->
                  restoreKey bucket referenceTimestamp key listed = Skipping)
    as (versions' & Happly & Hasc' & Hskip).
  { exists versions'. split; [done|]. split; [done|]. split; [done|].
    intros arrival Harrival. apply Hskip.
    - by rewrite history_perm.
    - apply history_ascending. }
  pose proof (restoreKey_eq bucket referenceTimestamp key versions) as Hrk.
  cbn zeta in Hrk.
  set (at_ := versionAtTimestamp referenceTimestamp versions) in *.
  destruct (String.eqb (ETag (latestVersion versions)) (ETag at_)) eqn:Hsame.
  { exists versions. rewrite Hrk. split; [done|]. split; [done|].
    intros listed Hperm Hasc'. rewrite restoreKey_eq. cbn zeta.
    rewrite (latest_of_relisted _ _ Hsole Hperm).
    rewrite (scan_of_relisted referenceTimestamp id versions listed);
      try done.
    - unfold id. fold at_. by rewrite Hsame.
    - intros x. rewrite Hperm. split.
      + intros [Hx Hxb]. by exists x.
      + by intros (w & Hw & Hwb & ->). }
  destruct (bool_decide (at_ = ZeroObjectVersion)
            || String.eqb (Operation at_) OperationTypeDelete) eqn:Hdel.
  - exists (insertByTime (deleteMarker st) (retire <$> versions)).
    rewrite Hrk. split; [done|].
    split; [by apply insertByTime_ascending, retire_ascending|].
    intros listed Hperm Hasc'. rewrite restoreKey_eq. cbn zeta.
    destruct (scan_after_relisting referenceTimestamp (deleteMarker st)
                                   versions listed)
      as [-> ->]; [done|cbn; lia|done..|]. fold at_.
    assert (ETag at_ = "") as Hempty.
    { apply orb_true_iff in Hdel as [Hz|Hop].
      - apply bool_decide_eq_true in Hz. by rewrite Hz.
      - apply String.eqb_eq in Hop.
        destruct (versionAtTimestamp_cases referenceTimestamp versions)
          as [[Hz _]|[Hin _]].
        + fold at_ in Hz. by rewrite Hz.
        + rewrite Forall_forall in Hmarkers. by apply Hmarkers. }
    cbn. by rewrite Hempty.
  - apply orb_false_iff in Hdel as [Hz _].
    apply bool_decide_eq_false in Hz.
    assert (at_ ∈ versions) as Hin.
    { by destruct (versionAtTimestamp_cases referenceTimestamp versions)
        as [[? _]|[? _]]. }
    exists (insertByTime (copyOf st at_) (retire <$> versions)).
    rewrite Hrk. split; [by apply copyObject_source|].
    split; [by apply insertByTime_ascending, retire_ascending|].
    intros listed Hperm Hasc'. rewrite restoreKey_eq. cbn zeta.
    destruct (scan_after_relisting referenceTimestamp (copyOf st at_)
                                   versions listed)
      as [-> ->]; [done|cbn; lia|done..|]. fold at_.
    cbn. by rewrite String.eqb_refl.
Qed.

(** C7 (as stated) fails: a version and a delete marker of one key from the
    same instant come out in a different order when the listing is cut
    into two pages between them. *)
Lemma pagination_reorders_ties :
  wellTruncated (tiedOnOnePage "b" None)
  /\ keyOrdered (tiedOnOnePage "b" None)
  /\ wellTruncated (tiedOnTwoPages "b" None)
  /\ keyOrdered (tiedOnTwoPages "b" None)
  /\ entries (tiedOnOnePage "b" None) ≡ₚ entries (tiedOnTwoPages "b" None)
  /\ drain (enoughFuel (List tiedOnOnePage "b" None))
           (List tiedOnOnePage "b" None)
     = ([("k", [putRecord tiedVersion; deleteRecord tiedMarker])], Exhausted)
  /\ drain (enoughFuel (List tiedOnTwoPages "b" None))
           (List tiedOnTwoPages "b" None)
     = ([("k", [deleteRecord tiedMarker; putRecord tiedVersion])], Exhausted)
  /\ fst (drain (enoughFuel (List tiedOnOnePage "b" None))
                (List tiedOnOnePage "b" None))
     <> fst (drain (enoughFuel (List tiedOnTwoPages "b" None))
                   (List tiedOnTwoPages "b" None)).
Proof.
  assert (forall k k' : string, k ∈ ["k"] -> k' ∈ ["k"] -> keyLe k k') as Hk.
  { intros k k' ->%list_elem_of_singleton ->%list_elem_of_singleton.
    apply keyLe_refl. }
  split; [done|]. split.
  { split; [|done]. intros k k' _ Hk'. by apply not_elem_of_nil in Hk'. }
  split; [done|]. split.
  { split; [apply Hk|]. split; [|done].
    intros k k' _ Hk'. by apply not_elem_of_nil in Hk'. }
  split; [apply Permutation_swap|].
  split; [by vm_compute|]. split; [by vm_compute|].
  vm_compute. discriminate.
Qed.

(** C5 -- the run of [main] does not depend on the [-prefix] flag: the
    iterator is made with no prefix.  With [-prefix logs/] on a bucket that
    holds [data/x] and [logs/y], both written after the reference time,
    [main] deletes [data/x] as well, where a listing with the prefix would
    have held [logs/y] alone. *)
Theorem prefix_flag_is_ignored :
  (forall verbose prefix bucket referenceTimestamp s3Client accepted,
      main verbose prefix bucket referenceTimestamp s3Client accepted
      = main verbose "" bucket referenceTimestamp s3Client accepted)
  /\ main false "logs/" "b" 10 twoFolders (fun _ => true)
     = ([("data/x", Deleting (Delete "b" "data/x"));
         ("logs/y", Deleting (Delete "b" "logs/y"))], Exit 0)
  /\ restoreLoop (enoughFuel (List twoFolders "b" (Some "logs/"))) "b" 10
                 (fun _ => true) (List twoFolders "b" (Some "logs/"))
     = ([("logs/y", Deleting (Delete "b" "logs/y"))], Exit 0).
Proof.
  split; [done|]. split; by vm_compute.
Qed.

(** ** Delete markers in the histories handed out *)

Section Markers.
Implicit Types (it : ListIterator) (pages : list ListObjectVersionsOutput).

Lemma pageEntries_markers p :
  Forall (fun e => markerWithoutETag e.2) (pageEntries p).
Proof.
  unfold pageEntries. apply Forall_app. split; apply Forall_fmap, Forall_forall.
  - intros v _. done.
  - intros v _. done.
Qed.

Lemma loadPages_markers pages it loaded :
  markersBare (pageObjectsWithVersions it) ->
  loadPages pages it = Some loaded ->
  markersBare (pageObjectsWithVersions loaded).
Proof.
  revert it. induction pages as [|p rest IH]; intros it Hm; cbn [loadPages].
  - destruct (_ && _); [done|]. by intros [= <-].
  - destruct (_ && _); [|by intros [= <-]].
    apply IH. cbn. rewrite storePage_entries. intros k sl.
    apply addEntries_Forall; [apply pageEntries_markers|done].
Qed.

Lemma Next_markers it key versions it' :
  markersBare (pageObjectsWithVersions it) ->
  Next it = (NextOk key versions, it') ->
  Forall markerWithoutETag versions
  /\ markersBare (pageObjectsWithVersions it').
Proof.
  intros Hm. unfold Next.
  destruct (loadPages (c it) it) as [loaded|] eqn:Hload; [|done].
  apply (loadPages_markers _ _ _ Hm) in Hload.
  destruct (_ =? _)%nat; [done|].
  destruct (firstMapKey _) as [k|]; [|done].
  intros [= <- <- <-]. split.
  - destruct (pageObjectsWithVersions loaded !! k) as [sl|] eqn:Hk; cbn.
    + by apply (Hload k).
    + constructor.
  - intros k' sl. cbn. destruct (decide (k' = k)) as [->|Hne].
    + by rewrite lookup_delete_eq.
    + rewrite lookup_delete_ne by done. apply Hload.
Qed.
End Markers.

(** C10 -- a key that is deleted now, and that was absent or deleted at the
    reference time, is skipped: in a history handed out by [Next] a delete
    marker has the empty etag, which is also the etag of the zero
    [ObjectVersion] that stands for an absent key. *)
Theorem absent_and_deleted_alike :
  forall (it it' : ListIterator) (bucket key : string)
         (versions : list ObjectVersion) (referenceTimestamp : Time)
         (r : ObjectVersion),
    (forall k sl, pageObjectsWithVersions it !! k = Some sl ->
                  Forall markerWithoutETag sl) ->
    Next it = (NextOk key versions, it') ->
    theLatest versions r -> Operation r = OperationTypeDelete ->
    let atReference :=
      default ZeroObjectVersion
              (last (filter (before referenceTimestamp) versions)) in
    Forall (fun v => referenceTimestamp <= Timestamp v) versions
    \/ Operation atReference = OperationTypeDelete ->
    restoreKey bucket referenceTimestamp key versions = Skipping
    /\ ETag r = "" /\ ETag atReference = ""
    /\ (forall k sl, pageObjectsWithVersions it' !! k = Some sl ->
                     Forall markerWithoutETag sl).
Proof.
  intros it it' bucket key versions referenceTimestamp r Hm HN Hr Hop
         atReference Hat.
  destruct (Next_markers _ _ _ _ Hm HN) as [Hbare Hm'].
  rewrite Forall_forall in Hbare.
  assert (ETag r = "") as Hempty by (apply Hbare; [apply Hr|done]).
  assert (atReference = versionAtTimestamp referenceTimestamp versions) as Heq
      by (by rewrite versionAtTimestamp_last).
  assert (ETag atReference = "") as Hempty'.
  { destruct Hat as [Habs|Hdel].
    - by rewrite Heq, (atReference_absent _ _ Habs).
    - destruct (versionAtTimestamp_cases referenceTimestamp versions)
        as [[Hz _]|[Hin _]]; rewrite <- Heq in *.
      + by rewrite Hz.
      + by apply Hbare. }
  split; [|done].
  rewrite restoreKey_eq. cbn zeta.
  rewrite (theLatest_latestVersion _ _ Hr), <- Heq, Hempty, Hempty'. done.
Qed.

(** ** Records from the same instant *)

Section Ties.
Implicit Types (sl records : list ObjectVersion) (v : ObjectVersion).

Lemma pdqsort_small {E} (cmp : E -> E -> Z) fuel (data : list E) a b limit
      wasBalanced wasPartitioned :
  (b - a <= 12)%nat ->
  slices.pdqsortCmpFunc cmp fuel data a b limit wasBalanced wasPartitioned
  = slices.insertionSortCmpFunc cmp data a b.
Proof.
  intros Hsmall. destruct fuel; cbn [slices.pdqsortCmpFunc]; cbn zeta;
    by destruct (Nat.leb_spec (b - a) slices.maxInsertion) as [_|Hbig];
      [|unfold slices.maxInsertion in Hbig; lia].
Qed.

(** Up to twelve elements [slices.SortFunc] is an insertion sort. *)
Lemma SortFunc_small {E} (cmp : E -> E -> Z) (l : list E) :
  (length l <= 12)%nat -> slices.SortFunc cmp l = insertionSorted cmp l.
Proof.
  intros Hsmall. unfold slices.SortFunc. rewrite pdqsort_small by lia.
  pose proof (insertionSort_segment cmp [] l []) as H.
  cbn [app length] in H. rewrite !app_nil_r in H. apply H.
Qed.

Lemma insertionSorted_snoc {E} (cmp : E -> E -> Z) (l : list E) x :
  insertionSorted cmp (l ++ [x]) = insertLast cmp x (insertionSorted cmp l).
Proof. unfold insertionSorted. by rewrite fold_left_app. Qed.

Lemma insertionSorted_id {E} (cmp : E -> E -> Z) (l : list E) :
  sortedBy cmp l -> insertionSorted cmp l = l.
Proof.
  induction l as [|x l IH] using rev_ind; intros Hs; [done|].
  rewrite insertionSorted_snoc.
  apply StronglySorted_app in Hs as (Hcross & Hl & _).
  rewrite (IH Hl).
  destruct l as [|y l _] using rev_ind; [done|].
  rewrite insertLast_snoc.
  assert (~ cmp x y < 0) as Hxy.
  { apply Hcross; [|by apply list_elem_of_singleton].
    apply elem_of_app. right. by apply list_elem_of_singleton. }
  apply Z.ltb_nlt in Hxy as ->. by rewrite <- (assoc_L (++)).
Qed.

Lemma insertByTime_after l1 l2 v :
  Forall (fun y => ~ Timestamp v < Timestamp y) l1 ->
  insertByTime v (l1 ++ l2) = l1 ++ insertByTime v l2.
Proof.
  induction 1 as [|y l1 Hy Hall IH]; [done|]. cbn.
  apply Z.ltb_nlt in Hy as ->. by rewrite IH.
Qed.

Lemma insertByTime_before l2 v :
  Forall (fun y => Timestamp v < Timestamp y) l2 ->
  insertByTime v l2 = v :: l2.
Proof.
  intros Hall. destruct Hall as [|y l2 Hy Hall]; [done|]. cbn.
  by apply Z.ltb_lt in Hy as ->.
Qed.

(** On a slice in ascending order, the insertion of the sort puts the new
    record after the records that are not younger. *)
Lemma insertLast_byTimestamp sl v :
  ascending sl -> insertLast byTimestamp v sl = insertByTime v sl.
Proof.
  intros Hs.
  destruct (insertLast_split byTimestamp v sl)
    as (l1 & l2 & -> & -> & Hall & Hlast).
  rewrite insertByTime_after, insertByTime_before; [done| |].
  - eapply Forall_impl; [done|]. intros y. by rewrite byTimestamp_lt.
  - apply StronglySorted_app in Hs as (_ & Hs1 & _).
    destruct l1 as [|z l1 _] using rev_ind; [constructor|].
    specialize (Hlast z). rewrite last_snoc in Hlast.
    specialize (Hlast eq_refl). rewrite byTimestamp_lt in Hlast.
    apply StronglySorted_app in Hs1 as (Hcross & _ & _).
    apply Forall_app. split; [|constructor; [done|constructor]].
    apply Forall_forall. intros y Hy.
    specialize (Hcross y z Hy). rewrite list_elem_of_singleton in Hcross.
    specialize (Hcross eq_refl). lia.
Qed.

Lemma appendSorted_small sl v :
  ascending sl -> (length sl < 12)%nat ->
  appendSorted sl v = insertByTime v sl.
Proof.
  intros Hs Hlen. unfold appendSorted.
  rewrite SortFunc_small by (rewrite length_app; cbn; lia).
  rewrite insertionSorted_snoc, insertionSorted_id
    by (by apply sortedBy_byTimestamp).
  by apply insertLast_byTimestamp.
Qed.

Lemma appendSorted_length sl v :
  length (appendSorted sl v) = S (length sl).
Proof.
  rewrite (Permutation_length (appendSorted_perm sl v)), length_app.
  cbn. lia.
Qed.

Lemma insertByTime_ties sl v t :
  ascending sl ->
  filter (fun x => Timestamp x = t) (insertByTime v sl)
  = filter (fun x => Timestamp x = t) (sl ++ [v]).
Proof.
  intros Hs. induction Hs as [|y sl Hs IH Hy]; [done|]. cbn [insertByTime].
  destruct (Z.ltb_spec (Timestamp v) (Timestamp y)) as [Hlt|Hge].
  - change ((y :: sl) ++ [v]) with ([y] ++ sl ++ [v]).
    change (v :: y :: sl) with ([v] ++ [y] ++ sl).
    rewrite !filter_app.
    destruct (decide (Timestamp v = t)) as [Hvt|Hvt].
    + rewrite (filter_none _ [y]), (filter_none _ sl); [by rewrite app_nil_r| |].
      * eapply Forall_impl; [done|]. cbn. lia.
      * constructor; [lia|constructor].
    + rewrite (filter_none _ [v]); [by rewrite app_nil_r|].
      constructor; [done|constructor].
  - cbn [app]. by rewrite !filter_cons, IH.
Qed.

(** A history of at most twelve records keeps the records of one instant
    in the order of their arrival. *)
Lemma short_history_stable records t :
  (length records <= 12)%nat ->
  filter (fun x => Timestamp x = t) (history records)
  = filter (fun x => Timestamp x = t) records.
Proof.
  unfold history.
  induction records as [|v records IH] using rev_ind; intros Hlen; [done|].
  rewrite length_app in Hlen. cbn in Hlen.
  rewrite fold_left_app. cbn [fold_left].
  pose proof (history_ascending records) as Hasc.
  pose proof (Permutation_length (history_perm records)) as Hl.
  unfold history in Hasc, Hl.
  rewrite appendSorted_small by (try done; lia).
  rewrite insertByTime_ties by done.
  rewrite !filter_app, IH by lia. done.
Qed.
End Ties.

(** C9 (as stated) fails: with slices.SortFunc the thirteenth record of a
    key, when it is older than twelve records from one instant, changes the
    order of the twelve. *)
Lemma thirteenth_record_reorders_ties :
  fold_left addEntry thirteenCalls ∅ !! "k"
  = Some (snd <$> [ putAt "m" 1; putAt "g" 5; putAt "c" 5; putAt "d" 5;
                    putAt "e" 5; putAt "f" 5; putAt "a" 5; putAt "h" 5;
                    putAt "i" 5; putAt "j" 5; putAt "k" 5; putAt "l" 5;
                    putAt "b" 5 ])
  /\ filter (fun v => Timestamp v = 5)
            (default [] (fold_left addEntry thirteenCalls ∅ !! "k"))
     <> filter (fun v => Timestamp v = 5) (arrivals "k" thirteenCalls).
Proof.
  split; [by vm_compute|]. vm_compute. discriminate.
Qed.

(** C9 (as amended) -- the slice of a key is a function of the records that
    arrived for the key, in their order; as long as it has at most twelve
    records, those from the same instant are in the order of their
    arrival. *)
Theorem ties_keep_arrival_order_up_to_twelve :
  forall (calls : list (string * ObjectVersion)) (key : string)
         (sl : list ObjectVersion),
    fold_left addEntry calls ∅ !! key = Some sl ->
    sl = history (arrivals key calls)
    /\ ((length sl <= 12)%nat ->
        forall t, filter (fun v => Timestamp v = t) sl
                  = filter (fun v => Timestamp v = t) (arrivals key calls)).
Proof.
  intros calls key sl. rewrite addEntries_lookup, lookup_empty.
  rewrite grown_None_history.
  destruct (arrivals key calls) as [|v records] eqn:Harr; [done|].
  intros [= <-]. split; [done|]. intros Hlen t.
  apply short_history_stable.
  by rewrite <- (Permutation_length (history_perm (v :: records))).
Qed.

(** ** The properties at concrete histories and listings *)

Lemma two_puts_ascending : ascending [firstPut; secondPut].
Proof. repeat constructor. by cbn. Qed.

Lemma secondPut_theLatest : theLatest [firstPut; secondPut] secondPut.
Proof.
  split; [right; left|]. split; [done|].
  intros r' Hin Hl. apply elem_of_cons in Hin as [->|Hin]; [done|].
  by apply list_elem_of_singleton in Hin.
Qed.

Lemma samePut_theLatest : theLatest [firstPut; samePut] samePut.
Proof.
  split; [right; left|]. split; [done|].
  intros r' Hin Hl. apply elem_of_cons in Hin as [->|Hin]; [done|].
  by apply list_elem_of_singleton in Hin.
Qed.

Lemma distinctTimes_all (es : list (string * ObjectVersion)) :
  NoDup ((fun e => Timestamp e.2) <$> es) -> distinctTimes es.
Proof.
  intros Hnd key. unfold arrivals.
  induction es as [|e es IH]; [constructor|].
  rewrite fmap_cons in Hnd. apply NoDup_cons in Hnd as [Hnew Hnd].
  rewrite filter_cons. destruct (decide (e.1 = key)); [|by apply IH].
  rewrite !fmap_cons. apply NoDup_cons. split; [|by apply IH].
  intros Hin. apply Hnew.
  apply list_elem_of_fmap in Hin as (v & Hv & Hin).
  apply list_elem_of_fmap in Hin as (e' & -> & Hin).
  apply list_elem_of_filter in Hin as [_ Hin].
  apply list_elem_of_fmap. by exists e'.
Qed.

Lemma two_puts_untied : untiedAt 3 [firstPut; secondPut].
Proof.
  assert (forall v, newestBefore 3 [firstPut; secondPut] v -> v = firstPut)
    as Hfirst.
  { intros v (Hv & Hb & _).
    apply elem_of_cons in Hv as [->|Hv]; [done|].
    apply list_elem_of_singleton in Hv as ->. unfold before in Hb.
    cbn in Hb. lia. }
  intros v w Hv Hw. by rewrite (Hfirst v Hv), (Hfirst w Hw).
Qed.

Lemma two_puts_soleLatest : soleLatest [firstPut; secondPut].
Proof.
  assert (forall r, r ∈ [firstPut; secondPut] -> IsLatest r = true ->
                    r = secondPut) as Hsecond.
  { intros r Hr Hl.
    apply elem_of_cons in Hr as [->|Hr]; [done|].
    by apply list_elem_of_singleton in Hr as ->. }
  intros r r' Hr Hr' Hl Hl'. by rewrite (Hsecond r Hr Hl), (Hsecond r' Hr' Hl').
Qed.

Lemma restore_twice_is_skip_witness :
  ascending [firstPut; secondPut]
  /\ untiedAt 3 [firstPut; secondPut]
  /\ soleLatest [firstPut; secondPut]
  /\ Forall markerWithoutETag [firstPut; secondPut]
  /\ NoDup (VersionID <$> [firstPut; secondPut])
  /\ 3 < 20
  /\ exists versions',
       applyMutation (restoreKey "b" 3 "k" [firstPut; secondPut])
                     {| stampVersionID := "v3"; stampTime := 20 |}
                     [firstPut; secondPut] = Some versions'
       /\ restoreKey "b" 3 "k" (history (reverse versions')) = Skipping.
Proof.
  assert (Forall markerWithoutETag [firstPut; secondPut]) as Hm
      by (repeat constructor; by intros ?).
  assert (NoDup (VersionID <$> [firstPut; secondPut])) as Hn
      by (apply (bool_decide_unpack _); by vm_compute).
  assert (3 < 20) as Hlt by lia.
  split; [exact two_puts_ascending|]. split; [exact two_puts_untied|].
  split; [exact two_puts_soleLatest|].
  split; [done|]. split; [done|]. split; [done|].
  destruct (restore_twice_is_skip
              "b" "k" 3 [firstPut; secondPut]
              {| stampVersionID := "v3"; stampTime := 20 |}
              two_puts_ascending two_puts_untied two_puts_soleLatest
              Hm Hn Hlt)
    as (versions' & Happly & _ & _ & Hhistory).
  exists versions'. split; [done|].
  apply Hhistory. apply reverse_Permutation.
Defined.

Lemma versionAtReference_is_last_before_witness :
  ascending [firstPut; secondPut]
  /\ versionAtTimestamp 3 [firstPut; secondPut] = firstPut.
Proof.
  split; [exact two_puts_ascending|].
  destruct (versionAtReference_is_last_before
              3 [firstPut; secondPut] two_puts_ascending) as [-> _].
  reflexivity.
Defined.

Lemma skip_when_etags_agree_witness :
  theLatest [firstPut; samePut] samePut
  /\ restoreKey "b" 3 "k" [firstPut; samePut] = Skipping.
Proof.
  split; [exact samePut_theLatest|].
  destruct (skip_when_etags_agree "b" "k" 3 [firstPut; samePut] samePut
                                  samePut_theLatest) as [Hskip _].
  apply Hskip. reflexivity.
Defined.

Lemma mutation_choice_witness :
  Forall putOrDelete [firstPut; secondPut]
  /\ ETag (latestVersion [firstPut; secondPut]) <> ETag firstPut
  /\ restoreKey "b" 3 "k" [firstPut; secondPut]
     = Restoring {| CopySource := "b/k?versionId=v1";
                    coBucket := "b"; coKey := "k" |}.
Proof.
  assert (Forall putOrDelete [firstPut; secondPut]) as Hops
      by (repeat constructor; by left).
  assert (ETag (latestVersion [firstPut; secondPut]) <> ETag firstPut) as Hne
      by (by vm_compute).
  split; [done|]. split; [done|].
  destruct (mutation_choice "b" "k" 3 [firstPut; secondPut] Hops Hne)
    as (_ & Hcopy & _).
  apply Hcopy.
  - intros Habs. apply Forall_inv in Habs. cbn in Habs. lia.
  - by vm_compute.
Defined.

Lemma iterator_complete_no_early_emission_witness :
  wellTruncated (spreadOnTwoPages "b" None)
  /\ keyOrdered (spreadOnTwoPages "b" None)
  /\ exists out,
       drain (enoughFuel (List spreadOnTwoPages "b" None))
             (List spreadOnTwoPages "b" None) = (out, Exhausted)
       /\ NoDup out.*1
       /\ forall k, k ∈ out.*1 <-> k ∈ (entries (spreadOnTwoPages "b" None)).*1.
Proof.
  assert (wellTruncated (spreadOnTwoPages "b" None)) as Hwt by done.
  assert (keyOrdered (spreadOnTwoPages "b" None)) as Hord
      by (apply one_key_ordered; by repeat constructor).
  split; [done|]. split; [done|].
  destruct (iterator_complete_no_early_emission
              spreadOnTwoPages "b" None Hwt Hord)
    as (out & Hdrain & Hnodup & Hkeys & _).
  by exists out.
Defined.

Lemma pagination_safety_witness :
  wellTruncated (spreadOnOnePage "b" None)
  /\ keyOrdered (spreadOnOnePage "b" None)
  /\ wellTruncated (spreadOnTwoPages "b" None)
  /\ keyOrdered (spreadOnTwoPages "b" None)
  /\ entries (spreadOnOnePage "b" None) ≡ₚ entries (spreadOnTwoPages "b" None)
  /\ distinctTimes (entries (spreadOnOnePage "b" None))
  /\ fst (drain (enoughFuel (List spreadOnOnePage "b" None))
                (List spreadOnOnePage "b" None))
     = fst (drain (enoughFuel (List spreadOnTwoPages "b" None))
                  (List spreadOnTwoPages "b" None)).
Proof.
  assert (keyOrdered (spreadOnOnePage "b" None)) as Hord1
      by (apply one_key_ordered; by repeat constructor).
  assert (keyOrdered (spreadOnTwoPages "b" None)) as Hord2
      by (apply one_key_ordered; by repeat constructor).
  assert (entries (spreadOnOnePage "b" None)
          ≡ₚ entries (spreadOnTwoPages "b" None)) as Hperm
      by apply Permutation_swap.
  assert (distinctTimes (entries (spreadOnOnePage "b" None))) as Hdistinct.
  { apply distinctTimes_all. apply (bool_decide_unpack _). by vm_compute. }
  assert (wellTruncated (spreadOnOnePage "b" None)) as Hwt1 by done.
  assert (wellTruncated (spreadOnTwoPages "b" None)) as Hwt2 by done.
  split; [done|]. split; [done|]. split; [done|]. split; [done|].
  split; [done|]. split; [done|].
  destruct (pagination_safety spreadOnOnePage spreadOnTwoPages "b" "b"
                              None None Hwt1 Hord1 Hwt2 Hord2 Hperm)
    as (keys & -> & -> & _ & Hsame).
  cbn [fst]. by apply Hsame.
Defined.

Lemma Add_keeps_slices_sorted_witness :
  (forall k sl, ({["k" := [firstPut]]} : gmap string (list ObjectVersion)) !! k
                = Some sl -> ascending sl)
  /\ forall k sl,
       fold_left addEntry [putAt "m" 1; putAt "a" 5; putAt "b" 3]
                 ({["k" := [firstPut]]} : gmap string (list ObjectVersion))
       !! k = Some sl -> ascending sl.
Proof.
  assert (forall k sl,
             ({["k" := [firstPut]]} : gmap string (list ObjectVersion)) !! k
             = Some sl -> ascending sl) as Hovm.
  { intros k sl Hk. apply lookup_singleton_Some in Hk as [_ <-].
    repeat constructor. }
  split; [done|].
  destruct (Add_keeps_slices_sorted
              [putAt "m" 1; putAt "a" 5; putAt "b" 3]) as [_ Hkeep].
  exact (proj1 (Hkeep _ Hovm)).
Defined.

Lemma ties_keep_arrival_order_up_to_twelve_witness :
  fold_left addEntry [putAt "a" 5; putAt "m" 1; putAt "b" 5] ∅ !! "k"
  = Some (snd <$> [putAt "m" 1; putAt "a" 5; putAt "b" 5])
  /\ filter (fun v => Timestamp v = 5)
            (snd <$> [putAt "m" 1; putAt "a" 5; putAt "b" 5])
     = filter (fun v => Timestamp v = 5)
              (arrivals "k" [putAt "a" 5; putAt "m" 1; putAt "b" 5]).
Proof.
  assert (fold_left addEntry [putAt "a" 5; putAt "m" 1; putAt "b" 5] ∅ !! "k"
          = Some (snd <$> [putAt "m" 1; putAt "a" 5; putAt "b" 5])) as Hsl
      by (by vm_compute).
  split; [done|].
  destruct (ties_keep_arrival_order_up_to_twelve _ _ _ Hsl) as [_ Hstable].
  apply Hstable. cbn. lia.
Defined.

Lemma absent_and_deleted_alike_witness :
  Next (List tiedOnOnePage "b" None)
  = (NextOk "k" [putRecord tiedVersion; deleteRecord tiedMarker],
     snd (Next (List tiedOnOnePage "b" None)))
  /\ theLatest [putRecord tiedVersion; deleteRecord tiedMarker]
               (deleteRecord tiedMarker)
  /\ restoreKey "b" 3 "k" [putRecord tiedVersion; deleteRecord tiedMarker]
     = Skipping.
Proof.
  assert (Next (List tiedOnOnePage "b" None)
          = (NextOk "k" [putRecord tiedVersion; deleteRecord tiedMarker],
             snd (Next (List tiedOnOnePage "b" None)))) as HN
      by (by vm_compute).
  assert (theLatest [putRecord tiedVersion; deleteRecord tiedMarker]
                    (deleteRecord tiedMarker)) as Hl.
  { split; [right; left|]. split; [done|].
    intros r' Hin Hr'. apply elem_of_cons in Hin as [->|Hin]; [done|].
    by apply list_elem_of_singleton in Hin. }
  split; [done|]. split; [done|].
  refine (proj1 (absent_and_deleted_alike
                   (List tiedOnOnePage "b" None) _ "b" "k" _ 3 _
                   _ HN Hl eq_refl _)).
  - intros k sl Hk. cbn in Hk. by rewrite lookup_empty in Hk.
  - left. repeat constructor; cbn; lia.
Defined.

(** ** Further properties of [s3/client.go] *)

(** *** [ObjectVersionMap.Add] *)

(** X1 -- [Add] files the new record under its key, in order of time: the slice of
    the key afterwards holds the records it held before and the new one,
    each as often as before, and is ascending whatever order it had; for a
    key that was not in the map it is the new record alone.  No other key is
    touched, and the key is in the map afterwards. *)
Theorem Add_inserts_in_order :
  forall (ovm : gmap string (list ObjectVersion)) (key versionID : string)
         (operation : OperationType) (timestamp : Time) (isLatest : bool)
         (etag : string),
    let added := Add ovm key versionID operation timestamp isLatest etag in
    exists sl,
      added !! key = Some sl
      /\ sl ≡ₚ default [] (ovm !! key)
               ++ [ {| VersionID := versionID; Operation := operation;
                       Timestamp := timestamp; IsLatest := isLatest;
                       ETag := etag |} ]
      /\ ascending sl
      /\ (ovm !! key = None ->
          sl = [ {| VersionID := versionID; Operation := operation;
                    Timestamp := timestamp; IsLatest := isLatest;
                    ETag := etag |} ])
      /\ (forall k, k <> key -> added !! k = ovm !! k)
      /\ dom added = {[key]} ∪ dom ovm.
Proof.
  intros ovm key versionID operation timestamp isLatest etag added.
  set (new := {| VersionID := versionID; Operation := operation;
                 Timestamp := timestamp; IsLatest := isLatest;
                 ETag := etag |}).
  assert (added = <[key := appendSorted (default [] (ovm !! key)) new]> ovm)
    as Hadded.
  { subst added. unfold Add, appendSorted. by destruct (ovm !! key). }
  exists (appendSorted (default [] (ovm !! key)) new).
  rewrite Hadded. split; [by rewrite lookup_insert_eq|].
  split; [apply appendSorted_perm|].
  split; [apply appendSorted_ascending|].
  split.
  { intros ->. apply Permutation_singleton_r, appendSorted_perm. }
  split.
  - intros k Hk. by rewrite lookup_insert_ne.
  - by rewrite dom_insert_L.
Qed.

(** X2 -- two calls of [Add] for different keys can be swapped. *)
Theorem Add_commutes_across_keys :
  forall (ovm : gmap string (list ObjectVersion))
         (e1 e2 : string * ObjectVersion),
    e1.1 <> e2.1 ->
    addEntry (addEntry ovm e1) e2 = addEntry (addEntry ovm e2) e1.
Proof.
  intros ovm e1 e2 Hne. rewrite !addEntry_eq.
  rewrite lookup_insert_ne by done.
  rewrite (lookup_insert_ne _ e2.1 e1.1) by done.
  by apply insert_insert_ne.
Qed.

(** X3 -- when no key gets two records of the same instant, the map that a
    sequence of calls of [Add] builds does not depend on the order of the
    calls. *)
Theorem Add_order_is_immaterial :
  forall (calls1 calls2 : list (string * ObjectVersion)),
    calls1 ≡ₚ calls2 -> distinctTimes calls1 ->
    fold_left addEntry calls1 ∅ = fold_left addEntry calls2 ∅.
Proof.
  intros calls1 calls2 Hperm Hdistinct. apply map_eq. intros k.
  rewrite !addEntries_lookup, !lookup_empty, !grown_None_history.
  pose proof (arrivals_Permutation k _ _ Hperm) as Hk.
  destruct (arrivals k calls1) as [|r rs] eqn:H1,
           (arrivals k calls2) as [|r' rs'] eqn:H2.
  - done.
  - by apply Permutation_nil_cons in Hk.
  - symmetry in Hk. by apply Permutation_nil_cons in Hk.
  - f_equal. apply history_unique; [|done].
    rewrite <- H1. apply Hdistinct.
Qed.

(** X4 -- the comparison that [Add] hands to [slices.SortFunc] is what the sort
    asks for: a strict weak ordering, negative exactly when the first record
    is older, zero exactly when both are of the same instant, and swapping
    the arguments flips the sign. *)
Theorem byTimestamp_is_a_comparison :
  StrictWeakOrder byTimestamp
  /\ forall a b,
       (byTimestamp a b < 0 <-> Timestamp a < Timestamp b)
       /\ (byTimestamp a b = 0 <-> Timestamp a = Timestamp b)
       /\ byTimestamp a b = - byTimestamp b a.
Proof.
  split; [apply byTimestamp_swo|].
  intros a b. unfold byTimestamp.
  destruct (Z.ltb_spec (Timestamp a) (Timestamp b)),
           (Z.eqb_spec (Timestamp a) (Timestamp b)),
           (Z.ltb_spec (Timestamp b) (Timestamp a)),
           (Z.eqb_spec (Timestamp b) (Timestamp a)); lia.
Qed.

(** *** [slices.SortFunc] *)

(** X5 -- the sort that [Add] and [firstMapKey] call returns its input in
    ascending order: for every comparison that is a strict weak ordering the
    result holds the same elements, each as often, and no element is smaller
    than one before it. *)
Theorem SortFunc_sorts :
  forall (E : Type) (cmp : E -> E -> Z) (x : list E),
    StrictWeakOrder cmp ->
    slices.SortFunc cmp x ≡ₚ x /\ sortedBy cmp (slices.SortFunc cmp x).
Proof.
  intros E cmp x Hswo. split.
  - apply SortFunc_Permutation.
  - by apply SortFunc_sortedBy.
Qed.

(** *** [firstMapKey] *)

(** X6 -- [firstMapKey] panics on the empty map and on no other; on every other
    map it returns a key of the map that no key of the map is smaller
    than. *)
Theorem firstMapKey_is_least_key :
  forall (V : Type) (m : gmap string V),
    (firstMapKey m = None <-> m = ∅)
    /\ forall key, firstMapKey m = Some key ->
                   is_Some (m !! key)
                   /\ forall k, is_Some (m !! k) -> keyLe key k.
Proof.
  intros V m. split.
  - split.
    + intros Hnone. destruct (decide (m = ∅)) as [|Hne]; [done|].
      destruct (firstMapKey_least m Hne) as (k & Hk & _). congruence.
    + intros ->. done.
  - intros key Hkey.
    assert (m <> ∅) as Hne by (intros ->; done).
    destruct (firstMapKey_least m Hne) as (k & Hk & Hin & Hleast).
    assert (k = key) as -> by congruence. done.
Qed.

(** *** [ListIterator.Next] *)

Section Fetching.
Implicit Types (it loaded : ListIterator).
Implicit Types (pages fetched : list ListObjectVersionsOutput).

Lemma loadPages_idle pages it :
  loadMore it = false \/ (2 <= size (pageObjectsWithVersions it))%nat ->
  loadPages pages it = Some it.
Proof.
  intros Hidle.
  assert (loadMore it && (size (pageObjectsWithVersions it) <=? 1)%nat
          = false) as Hcond.
  { destruct Hidle as [->|Hsize]; [done|].
    apply andb_false_iff. right. apply Nat.leb_gt. lia. }
  destruct pages; cbn [loadPages]; by rewrite Hcond.
Qed.

Lemma cursorAfter_cons p fetched it mid loaded :
  loadMore mid = IsTruncated p ->
  keyMarker mid = NextKeyMarker p ->
  versionIdMarker mid = NextVersionIdMarker p ->
  cursorAfter fetched mid loaded ->
  cursorAfter (p :: fetched) it loaded.
Proof.
  unfold cursorAfter. intros H1 H2 H3. rewrite last_cons.
  destruct (last fetched); [done|]. by intros ->.
Qed.

(** What the loading loop of [Next] has done when it ends without an
    error: it has read some of the pages, in order, each one while at most
    one key was pending and the last response said there is more. *)
Lemma loadPages_fetched pages it loaded :
  c it = pages -> loadPages pages it = Some loaded ->
  exists fetched,
    pages = fetched ++ c loaded
    /\ pageObjectsWithVersions loaded
       = fold_left addEntry (entries fetched) (pageObjectsWithVersions it)
    /\ (loadMore loaded = false
        \/ (2 <= size (pageObjectsWithVersions loaded))%nat)
    /\ bucket loaded = bucket it /\ prefix loaded = prefix it
    /\ cursorAfter fetched it loaded
    /\ (fetched <> [] ->
        loadMore it = true
        /\ (size (pageObjectsWithVersions it) <= 1)%nat)
    /\ (forall before p after,
          fetched = before ++ p :: after ->
          (size (fold_left addEntry (entries before)
                           (pageObjectsWithVersions it)) <= 1)%nat).
Proof.
  revert it. induction pages as [|p rest IH]; intros it Hc; cbn [loadPages].
  - destruct (loadMore it && _) eqn:Hcond; [done|]. intros [= <-].
    exists []. rewrite Hc. repeat split; try done.
    + apply andb_false_iff in Hcond as [Hcond|Hcond]; [by left|right].
      apply Nat.leb_gt in Hcond. lia.
    + intros before q after Heq. by destruct before.
  - destruct (loadMore it && _) eqn:Hcond.
    + intros Hload. apply andb_true_iff in Hcond as [Hmore Hsize].
      apply Nat.leb_le in Hsize.
      apply IH in Hload as (fetched & Hpages & Hmap & Hstop & Hb & Hp
                            & Hcur & _ & Hone); [|done].
      cbn in Hmap, Hb, Hp, Hone.
      exists (p :: fetched). split; [by rewrite Hpages|].
      split; [by rewrite entries_cons, fold_left_app, <- storePage_entries|].
      split; [done|]. split; [done|]. split; [done|].
      split; [by eapply cursorAfter_cons; [| | |exact Hcur]|].
      split; [done|].
      intros before q after Heq. destruct before as [|p' before].
      * done.
      * injection Heq as <- Heq.
        rewrite entries_cons, fold_left_app, <- storePage_entries.
        by apply (Hone before q after).
    + intros [= <-]. exists []. rewrite Hc. repeat split; try done.
      * apply andb_false_iff in Hcond as [Hcond|Hcond]; [by left|right].
        apply Nat.leb_gt in Hcond. lia.
      * intros before q after Heq. by destruct before.
Qed.

(** The four ways a call of [Next] can end. *)
Lemma Next_cases it :
  match Next it with
  | (NextErr, _) => loadPages (c it) it = None
  | (NextPanic, _) => False
  | (NextEOF, loaded) =>
      loadPages (c it) it = Some loaded
      /\ pageObjectsWithVersions loaded = ∅
  | (NextOk key versions, it') =>
      exists loaded,
        loadPages (c it) it = Some loaded
        /\ pageObjectsWithVersions loaded !! key = Some versions
        /\ (forall k, is_Some (pageObjectsWithVersions loaded !! k) ->
                      keyLe key k)
        /\ pageObjectsWithVersions it'
           = delete key (pageObjectsWithVersions loaded)
        /\ c it' = c loaded /\ bucket it' = bucket loaded
        /\ prefix it' = prefix loaded /\ loadMore it' = loadMore loaded
        /\ keyMarker it' = keyMarker loaded
        /\ versionIdMarker it' = versionIdMarker loaded
  end.
Proof.
  unfold Next. destruct (loadPages (c it) it) as [loaded|]; [|done].
  destruct (Nat.eqb_spec (size (pageObjectsWithVersions loaded)) 0)
    as [Hzero|Hsome].
  - split; [done|]. by apply map_size_empty_iff.
  - assert (pageObjectsWithVersions loaded <> ∅) as Hne
        by (by rewrite <- map_size_empty_iff).
    destruct (firstMapKey_least _ Hne) as (key & -> & [sl Hsl] & Hleast).
    exists loaded. rewrite Hsl. done.
Qed.
End Fetching.

(** X7 -- a call of [Next] never runs into the panic of [firstMapKey]: the map is
    looked at for its first key only after it was found to have one. *)
Theorem Next_never_panics :
  forall (it : ListIterator), fst (Next it) <> NextPanic.
Proof.
  intros it Hpanic. pose proof (Next_cases it) as Hcases.
  destruct (Next it) as [[] it']; done.
Qed.

(** X8 -- once [Next] has returned [io.EOF] it does so on every later call, and
    without a request to the service: the iterator stays as it is. *)
Theorem Next_stays_at_EOF :
  forall (it it' : ListIterator),
    Next it = (NextEOF, it') ->
    Next it' = (NextEOF, it')
    /\ loadMore it' = false /\ pageObjectsWithVersions it' = ∅.
Proof.
  intros it it' HN. pose proof (Next_cases it) as Hcases.
  rewrite HN in Hcases. destruct Hcases as [Hload Hempty].
  apply loadPages_fetched in Hload as (_ & _ & _ & Hstop & _); [|done].
  assert (loadMore it' = false) as Hmore.
  { destruct Hstop as [|Hsize]; [done|].
    rewrite Hempty, map_size_empty in Hsize. lia. }
  split; [|done]. unfold Next.
  rewrite loadPages_idle by (by left). by rewrite Hempty.
Qed.

(** X9 -- [Next] asks the service for a page only when it has to: with two keys
    pending, or after the last page, it reads no page and cannot fail; it
    hands out the least pending key with its slice and takes it off the map,
    or returns [io.EOF] when nothing is pending. *)
Theorem Next_asks_only_when_needed :
  forall (it : ListIterator),
    loadMore it = false
    \/ (2 <= size (pageObjectsWithVersions it))%nat ->
    loadPages (c it) it = Some it
    /\ match Next it with
       | (NextOk key versions, it') =>
           pageObjectsWithVersions it !! key = Some versions
           /\ (forall k, is_Some (pageObjectsWithVersions it !! k) ->
                         keyLe key k)
           /\ pageObjectsWithVersions it'
              = delete key (pageObjectsWithVersions it)
           /\ c it' = c it /\ loadMore it' = loadMore it
           /\ keyMarker it' = keyMarker it
           /\ versionIdMarker it' = versionIdMarker it
       | (NextEOF, it') => pageObjectsWithVersions it = ∅ /\ it' = it
       | (_, _) => False
       end.
Proof.
  intros it Hidle. pose proof (loadPages_idle (c it) it Hidle) as Hload.
  split; [done|]. pose proof (Next_cases it) as Hcases.
  destruct (Next it) as [[key versions| | |] it'].
  - destruct Hcases as (loaded & Hload' & Hcases).
    assert (loaded = it) as -> by congruence. tauto.
  - destruct Hcases as [Hload' Hempty].
    assert (it' = it) as -> by congruence. done.
  - congruence.
  - done.
Qed.

(** X10 -- the requests of one iterator follow each other: a call of [Next] that
    does not fail reads the next pages of the listing in order, each one
    only while at most one key is pending, and leaves the cursor (the two
    markers and the flag that more is to come) as the last response it read
    gave them; bucket and prefix are never changed. *)
Theorem Next_follows_the_listing :
  forall (it it' : ListIterator) (r : NextResult),
    Next it = (r, it') -> r <> NextErr ->
    bucket it' = bucket it /\ prefix it' = prefix it
    /\ exists fetched,
         c it = fetched ++ c it'
         /\ match last fetched with
            | None => loadMore it' = loadMore it
                      /\ keyMarker it' = keyMarker it
                      /\ versionIdMarker it' = versionIdMarker it
            | Some p => loadMore it' = IsTruncated p
                        /\ keyMarker it' = NextKeyMarker p
                        /\ versionIdMarker it' = NextVersionIdMarker p
            end
         /\ forall before p after,
              fetched = before ++ p :: after ->
              (size (fold_left addEntry (entries before)
                               (pageObjectsWithVersions it)) <= 1)%nat.
Proof.
  intros it it' r HN Hr. pose proof (Next_cases it) as Hcases.
  rewrite HN in Hcases.
  assert (exists loaded,
            loadPages (c it) it = Some loaded
            /\ c it' = c loaded /\ bucket it' = bucket loaded
            /\ prefix it' = prefix loaded /\ loadMore it' = loadMore loaded
            /\ keyMarker it' = keyMarker loaded
            /\ versionIdMarker it' = versionIdMarker loaded)
    as (loaded & Hload & Hc & Hb & Hp & Hm & Hk & Hv).
  { destruct r as [key versions| | |]; [| |done|done].
    - destruct Hcases as (loaded & Hload & _ & _ & _ & Hrest).
      by exists loaded.
    - destruct Hcases as [Hload _]. by exists it'. }
  apply loadPages_fetched in Hload
      as (fetched & Hpages & _ & _ & Hb' & Hp' & Hcur & _ & Hone); [|done].
  split; [congruence|]. split; [congruence|].
  exists fetched. split; [congruence|]. split; [|done].
  unfold cursorAfter in Hcur. destruct (last fetched).
  - rewrite Hm, Hk, Hv. done.
  - subst loaded. done.
Qed.

Section RealRecords.
Implicit Types (it : ListIterator) (ovm : gmap string (list ObjectVersion)).

Lemma pageEntries_real p :
  Forall (fun e => putOrDelete e.2) (pageEntries p).
Proof.
  unfold pageEntries. apply Forall_app.
  split; apply Forall_fmap, Forall_forall; intros v _; [by left|by right].
Qed.

Lemma appended_not_empty records sl :
  records <> [] -> fold_left appendSorted records sl <> [].
Proof.
  intros Hrecords Hnil.
  pose proof (fold_appendSorted_perm records sl) as Hperm.
  rewrite Hnil in Hperm. apply Permutation_nil_l in Hperm.
  symmetry in Hperm. by apply app_eq_nil in Hperm as [_ ?].
Qed.

Lemma addEntries_real es ovm :
  Forall (fun e => putOrDelete e.2) es -> realRecords ovm ->
  realRecords (fold_left addEntry es ovm).
Proof.
  intros Hes Hreal k sl Hk. split.
  - rewrite addEntries_lookup in Hk. revert Hk.
    apply (grown_Forall (fun sl => sl <> [])).
    + intros sl0 Hsl0. by apply (Hreal k).
    + intros sl0 _ _. apply appended_not_empty.
  - revert Hk. apply addEntries_Forall; [done|].
    intros k' sl' Hk'. by apply (Hreal k').
Qed.

Lemma loadPages_real pages it loaded :
  realRecords (pageObjectsWithVersions it) ->
  loadPages pages it = Some loaded ->
  realRecords (pageObjectsWithVersions loaded).
Proof.
  revert it. induction pages as [|p rest IH]; intros it Hreal;
    cbn [loadPages].
  - destruct (_ && _); [done|]. by intros [= <-].
  - destruct (_ && _); [|by intros [= <-]].
    apply IH. cbn. rewrite storePage_entries.
    apply addEntries_real; [apply pageEntries_real|done].
Qed.

Lemma realRecords_delete ovm key :
  realRecords ovm -> realRecords (delete key ovm).
Proof.
  intros Hreal k sl. destruct (decide (k = key)) as [->|Hne].
  - by rewrite lookup_delete_eq.
  - rewrite lookup_delete_ne by done. apply Hreal.
Qed.

Lemma Next_real it key versions it' :
  realRecords (pageObjectsWithVersions it) ->
  Next it = (NextOk key versions, it') ->
  versions <> [] /\ Forall putOrDelete versions
  /\ realRecords (pageObjectsWithVersions it').
Proof.
  intros Hreal HN. pose proof (Next_cases it) as Hcases.
  rewrite HN in Hcases.
  destruct Hcases as (loaded & Hload & Hkey & _ & -> & _).
  apply (loadPages_real _ _ _ Hreal) in Hload.
  destruct (Hload key versions Hkey) as [Hne Hops].
  split; [done|]. split; [done|]. by apply realRecords_delete.
Qed.
End RealRecords.

(** X11 -- whatever the service lists, the slices that an iterator made by [List]
    hands out have a record each, and their records are puts and deletes:
    this holds of the empty map that [List] starts with and is kept by
    every call of [Next] that hands out a key.  So none of the records is
    the zero [ObjectVersion], and [main] finds the zero value after its
    scan exactly when no record is from before the reference time. *)
Theorem Next_hands_out_real_records :
  (forall (cl : Client) (bucket : string) (prefix : option string),
      realRecords (pageObjectsWithVersions (List cl bucket prefix)))
  /\ forall (it it' : ListIterator) (key : string)
            (versions : list ObjectVersion),
       realRecords (pageObjectsWithVersions it) ->
       Next it = (NextOk key versions, it') ->
       versions <> []
       /\ Forall putOrDelete versions
       /\ (ZeroObjectVersion ∉ versions)
       /\ (forall referenceTimestamp,
             versionAtTimestamp referenceTimestamp versions
             = ZeroObjectVersion
             <-> Forall (fun v => referenceTimestamp <= Timestamp v) versions)
       /\ realRecords (pageObjectsWithVersions it').
Proof.
  split.
  { intros cl bucket prefix k sl. cbn. by rewrite lookup_empty. }
  intros it it' key versions Hreal HN.
  destruct (Next_real _ _ _ _ Hreal HN) as (Hne & Hops & Hreal').
  assert (ZeroObjectVersion ∉ versions) as Hzero.
  { intros Hin. rewrite Forall_forall in Hops.
    by apply (putOrDelete_not_Zero _ (Hops _ Hin)). }
  split; [done|]. split; [done|]. split; [done|]. split; [|done].
  intros referenceTimestamp. split.
  - intros Hat.
    destruct (decide (Forall (fun v => referenceTimestamp <= Timestamp v)
                             versions)) as [|Hsome]; [done|].
    apply atReference_present in Hsome. by rewrite Hat in Hsome.
  - apply atReference_absent.
Qed.

Section Conservation.
Implicit Types (it : ListIterator) (ovm : gmap string (list ObjectVersion)).

Lemma held_delete ovm key sl :
  ovm !! key = Some sl -> held ovm ≡ₚ sl ++ held (delete key ovm).
Proof.
  intros Hkey. unfold held.
  by rewrite <- (map_to_list_delete ovm key sl Hkey).
Qed.

Lemma held_insert_fresh ovm key sl :
  ovm !! key = None -> held (<[key := sl]> ovm) ≡ₚ sl ++ held ovm.
Proof.
  intros Hkey. unfold held. by rewrite (map_to_list_insert ovm key sl Hkey).
Qed.

Lemma held_addEntry ovm e : held (addEntry ovm e) ≡ₚ held ovm ++ [e.2].
Proof.
  rewrite addEntry_eq.
  destruct (ovm !! e.1) as [sl|] eqn:Hkey; cbn [default from_option id].
  - rewrite <- insert_delete_eq.
    rewrite held_insert_fresh by (by rewrite lookup_delete_eq).
    rewrite (held_delete ovm e.1 sl Hkey), appendSorted_perm.
    rewrite <- !(assoc_L (++)). apply Permutation_app_head.
    apply Permutation_app_comm.
  - rewrite held_insert_fresh by done.
    rewrite appendSorted_perm. cbn. apply Permutation_cons_append.
Qed.

Lemma held_addEntries es ovm :
  held (fold_left addEntry es ovm) ≡ₚ held ovm ++ es.*2.
Proof.
  revert ovm. induction es as [|e es IH]; intros ovm; cbn.
  - by rewrite app_nil_r.
  - rewrite IH, held_addEntry, <- (assoc_L (++)). done.
Qed.

(** A call of [Next] that hands out a key brings the end of the listing
    nearer. *)
Lemma Next_nearer it key versions it' :
  Next it = (NextOk key versions, it') ->
  (enoughFuel it' < enoughFuel it)%nat.
Proof.
  intros HN. pose proof (Next_cases it) as Hcases. rewrite HN in Hcases.
  destruct Hcases as (loaded & Hload & Hkey & _ & Hmap & Hc & _).
  apply loadPages_fetched in Hload as (fetched & Hpages & Hloaded & _);
    [|done].
  unfold enoughFuel. rewrite Hmap, Hc, Hpages.
  rewrite map_size_delete_Some by done.
  rewrite !entryCount_entries, entries_app, length_app.
  pose proof (addEntries_size (entries fetched)
                              (pageObjectsWithVersions it)) as Hsize.
  rewrite <- Hloaded in Hsize.
  assert (size (pageObjectsWithVersions loaded) <> 0%nat) as Hpos.
  { rewrite map_size_non_empty_iff. intros Hempty.
    by rewrite Hempty, lookup_empty in Hkey. }
  lia.
Qed.

(** A drain of an iterator whose cursor agrees with the pages to come ends
    with [io.EOF], and hands out what was pending and what the pages
    held, record by record. *)
Lemma drain_conserves fuel it :
  cursorOK it -> (enoughFuel it <= fuel)%nat ->
  exists out,
    drain fuel it = (out, Exhausted)
    /\ handedOut out
       ≡ₚ held (pageObjectsWithVersions it) ++ (entries (c it)).*2.
Proof.
  revert it. induction fuel as [|fuel IH]; intros it Hcur Hfuel.
  { unfold enoughFuel in Hfuel. lia. }
  cbn [drain]. pose proof (Next_cases it) as Hcases.
  destruct (loadPages_spec (c it) it eq_refl Hcur)
    as (fetched & loaded & Hload & Hpages & Hcur' & Hmap & Hstop & _).
  destruct (Next it) as [[key versions| | |] it'] eqn:HN.
  - destruct Hcases as (loaded' & Hload' & Hkey & _ & Hmap' & Hc & _ & _
                        & Hmore & _).
    assert (loaded' = loaded) as -> by congruence.
    assert (cursorOK it') as Hcur''.
    { unfold cursorOK in *. by rewrite Hmore, Hc. }
    pose proof (Next_nearer _ _ _ _ HN) as Hnear.
    destruct (IH it' Hcur'' ltac:(lia)) as (out & -> & Hout).
    eexists. split; [done|].
    unfold handedOut in *. cbn. rewrite Hout, Hmap', Hc.
    rewrite (assoc_L (++)), <- (held_delete _ _ _ Hkey).
    rewrite Hmap, held_addEntries, Hpages, entries_app, fmap_app.
    by rewrite (assoc_L (++)).
  - destruct Hcases as [Hload' Hempty].
    assert (it' = loaded) as -> by congruence.
    exists []. split; [done|].
    assert (c loaded = []) as Hnil.
    { unfold cursorOK in Hcur'. destruct Hstop as [Hmore|Hsize].
      - by rewrite Hmore in Hcur'.
      - rewrite Hempty, map_size_empty in Hsize. lia. }
    rewrite Hnil, app_nil_r in Hpages.
    pose proof (held_addEntries (entries fetched)
                                (pageObjectsWithVersions it)) as Hheld.
    rewrite <- Hmap, Hempty in Hheld. rewrite Hpages. done.
  - congruence.
  - done.
Qed.
End Conservation.

(** X12 -- whatever the order of the keys in the listing, the iterator loses no
    record and hands out none twice: draining it over a listing that is
    read to its last page ends with [io.EOF], and the slices handed out
    hold the records of the pages, each as often as the pages do. *)
Theorem iterator_conserves_records :
  forall (cl : Client) (bucket : string) (prefix : option string),
    wellTruncated (cl bucket prefix) ->
    exists out,
      drain (enoughFuel (List cl bucket prefix)) (List cl bucket prefix)
      = (out, Exhausted)
      /\ handedOut out ≡ₚ (entries (cl bucket prefix)).*2.
Proof.
  intros cl bucket prefix Hwell.
  destruct (drain_conserves (enoughFuel (List cl bucket prefix))
                            (List cl bucket prefix) Hwell (le_n _))
    as (out & Hdrain & Hout).
  exists out. split; [done|]. by rewrite Hout.
Qed.

(** ** Further properties of [main.go] *)

Section Running.
Variables (bucket : string) (referenceTimestamp : Time).
Variable accepted : Mutation -> bool.
Implicit Types (it : ListIterator) (fuel : nat).

Lemma restoreLoop_ends fuel it :
  (enoughFuel it <= fuel)%nat ->
  (restoreLoop fuel bucket referenceTimestamp accepted it).2 = Exit 0
  \/ (restoreLoop fuel bucket referenceTimestamp accepted it).2 = Exit 1.
Proof.
  revert it. induction fuel as [|fuel IH]; intros it Hfuel.
  { unfold enoughFuel in Hfuel. lia. }
  cbn [restoreLoop]; cbv zeta. pose proof (Next_cases it) as Hcases.
  destruct (Next it) as [[key versions| | |] it'] eqn:HN.
  - pose proof (Next_nearer _ _ _ _ HN) as Hnear.
    set (m0 := restoreKey bucket referenceTimestamp key versions).
    destruct (match m0 with Skipping => true | _ => accepted m0 end); [|by right].
    specialize (IH it' ltac:(lia)).
    by destruct (restoreLoop fuel bucket referenceTimestamp accepted it').
  - by left.
  - by right.
  - done.
Qed.

Lemma loadPages_brokenOff it loaded :
  loadMore it = true -> brokenOff (c it) ->
  loadPages (c it) it = Some loaded ->
  loadMore loaded = true /\ brokenOff (c loaded)
  /\ (2 <= size (pageObjectsWithVersions loaded))%nat.
Proof.
  intros Hmore Hbroken Hload.
  apply loadPages_fetched in Hload
      as (fetched & Hpages & _ & Hstop & _ & _ & Hcur & _); [|done].
  unfold brokenOff in *. rewrite Hpages in Hbroken.
  apply Forall_app in Hbroken as [Hfetched Hrest].
  assert (loadMore loaded = true) as Hmore'.
  { unfold cursorAfter in Hcur.
    destruct (last fetched) as [p|] eqn:Hlast.
    - destruct Hcur as [-> _]. apply last_Some_elem_of in Hlast.
      rewrite Forall_forall in Hfetched. by apply Hfetched.
    - by subst loaded. }
  split; [done|]. split; [done|].
  destruct Hstop as [Hstop|]; [congruence|done].
Qed.

Lemma restoreLoopWith_false fuel it :
  restoreLoopWith false fuel bucket referenceTimestamp accepted it
  = restoreLoop fuel bucket referenceTimestamp accepted it.
Proof.
  revert it. induction fuel as [|fuel IH]; intros it; [done|].
  cbn [restoreLoop restoreLoopWith]; cbv zeta.
  destruct (Next it) as [[key versions| | |] it']; try done.
  by rewrite IH.
Qed.

Lemma restoreLoopWith_brokenOff eofInChain fuel it :
  loadMore it = true -> brokenOff (c it) -> (enoughFuel it <= fuel)%nat ->
  (eofInChain = false ->
   (restoreLoopWith eofInChain fuel bucket referenceTimestamp accepted
                    it).2 = Exit 1)
  /\ (eofInChain = true -> (forall m, accepted m = true) ->
      (restoreLoopWith eofInChain fuel bucket referenceTimestamp accepted
                       it).2 = Exit 0).
Proof.
  revert it. induction fuel as [|fuel IH]; intros it Hmore Hbroken Hfuel.
  { unfold enoughFuel in Hfuel. lia. }
  cbn [restoreLoopWith]; cbv zeta. pose proof (Next_cases it) as Hcases.
  destruct (Next it) as [[key versions| | |] it'] eqn:HN.
  - destruct Hcases as (loaded & Hload & _ & _ & _ & Hc & _ & _ & Hm & _).
    destruct (loadPages_brokenOff _ _ Hmore Hbroken Hload)
      as (Hmore' & Hbroken' & _).
    pose proof (Next_nearer _ _ _ _ HN) as Hnear.
    destruct (IH it' ltac:(congruence) ltac:(by rewrite Hc) ltac:(lia))
      as [IHfalse IHtrue].
    set (m0 := restoreKey bucket referenceTimestamp key versions).
    destruct (match m0 with Skipping => true | _ => accepted m0 end)
      eqn:Hok.
    + destruct (restoreLoopWith eofInChain fuel bucket referenceTimestamp
                                accepted it').
      done.
    + split; [done|]. intros _ Hall.
      destruct m0; [done|by rewrite Hall in Hok..].
  - destruct Hcases as [Hload Hempty].
    destruct (loadPages_brokenOff _ _ Hmore Hbroken Hload)
      as (_ & _ & Hsize).
    rewrite Hempty, map_size_empty in Hsize. lia.
  - by destruct eofInChain.
  - done.
Qed.

Lemma restoreLoop_accepting fuel it out :
  (forall m, accepted m = true) ->
  drain fuel it = (out, Exhausted) ->
  restoreLoop fuel bucket referenceTimestamp accepted it
  = (handled bucket referenceTimestamp <$> out, Exit 0).
Proof.
  intros Hall. revert it out.
  induction fuel as [|fuel IH]; intros it out; [done|].
  cbn [drain restoreLoop]; cbv zeta.
  destruct (Next it) as [[key versions| | |] it']; try done.
  - destruct (drain fuel it') as [out' e] eqn:Hdrain.
    intros [= <- ->]. rewrite (IH _ _ Hdrain).
    set (m0 := restoreKey bucket referenceTimestamp key versions).
    assert (match m0 with Skipping => true | _ => accepted m0 end = true)
      as ->; [|done].
    by destruct m0.
  - by intros [= <-].
Qed.

Lemma restoreLoop_refused fuel it log out i k m :
  restoreLoop fuel bucket referenceTimestamp accepted it = (log, out) ->
  log !! i = Some (k, m) -> refused accepted m ->
  S i = length log /\ out = Exit 1.
Proof.
  revert it log out i. induction fuel as [|fuel IH]; intros it log out i.
  { by intros [= <- <-]. }
  cbn [restoreLoop]; cbv zeta.
  destruct (Next it) as [[key versions| | |] it']; try by intros [= <- <-].
  set (m0 := restoreKey bucket referenceTimestamp key versions).
  destruct (match m0 with Skipping => true | _ => accepted m0 end) eqn:Hok.
  - destruct (restoreLoop fuel bucket referenceTimestamp accepted it')
      as [done' out'] eqn:Hloop.
    intros [= <- <-]. destruct i as [|i]; cbn.
    + intros [= <- <-] [Hsent Hno]. destruct m0; congruence.
    + intros Hi Hm. destruct (IH _ _ _ _ Hloop Hi Hm) as [<- ->]. done.
  - intros [= <- <-]. destruct i as [|i]; [done|].
    by rewrite lookup_cons.
Qed.

Lemma restoreKey_aimed key versions :
  aimedAt bucket key (restoreKey bucket referenceTimestamp key versions).
Proof.
  rewrite restoreKey_eq. cbn zeta. unfold aimedAt.
  destruct (String.eqb _ _); [by left|].
  destruct (_ || _); [by right; left|].
  right; right. by eexists.
Qed.

Lemma restoreLoop_aimed fuel it :
  Forall (fun km => aimedAt bucket km.1 km.2)
         (restoreLoop fuel bucket referenceTimestamp accepted it).1.
Proof.
  revert it. induction fuel as [|fuel IH]; intros it; [constructor|].
  cbn [restoreLoop]; cbv zeta.
  destruct (Next it) as [[key versions| | |] it']; try constructor.
  pose proof (restoreKey_aimed key versions) as Haimed.
  set (m0 := restoreKey bucket referenceTimestamp key versions).
  destruct (match m0 with Skipping => true | _ => accepted m0 end).
  - specialize (IH it').
    destruct (restoreLoop fuel bucket referenceTimestamp accepted it').
    by constructor.
  - constructor; [exact Haimed|constructor].
Qed.

Lemma restoreLoop_prefix fuel it :
  (restoreLoop fuel bucket referenceTimestamp accepted it).1
  `prefix_of` handled bucket referenceTimestamp <$> (drain fuel it).1.
Proof.
  revert it. induction fuel as [|fuel IH]; intros it; [apply prefix_nil|].
  cbn [restoreLoop drain]; cbv zeta.
  destruct (Next it) as [[key versions| | |] it']; try apply prefix_nil.
  specialize (IH it').
  destruct (drain fuel it') as [out e].
  set (m0 := restoreKey bucket referenceTimestamp key versions).
  destruct (match m0 with Skipping => true | _ => accepted m0 end).
  - destruct (restoreLoop fuel bucket referenceTimestamp accepted it').
    by apply prefix_cons.
  - apply prefix_cons, prefix_nil.
Qed.
End Running.

(** X13 -- the loop of [main] ends, whatever the service lists and whatever it
    answers: with code 0 or with code 1, never in the panic of
    [firstMapKey] and never without an end. *)
Theorem main_always_ends :
  forall (verbose : bool) (prefix bucket : string) (referenceTimestamp : Time)
         (s3Client : Client) (accepted : Mutation -> bool),
    (main verbose prefix bucket referenceTimestamp s3Client accepted).2
    = Exit 0
    \/ (main verbose prefix bucket referenceTimestamp s3Client accepted).2
       = Exit 1.
Proof.
  intros. unfold main. by apply restoreLoop_ends.
Qed.

(** X14 -- when the listing breaks off (the service fails before it has
    sent a page that is not truncated), what [main] does depends on the
    error of the failed request.  [main] leaves with code 1, unless the
    error has [io.EOF] in its chain: then [errors.Is(err, io.EOF)] holds of
    the wrapped error, [main] takes the failure for the end of the listing
    and, when no request was turned down, leaves with code 0 without having
    seen the whole bucket.  [main] above is the first of the two cases. *)
Theorem main_exit_when_listing_breaks_off :
  forall (eofInChain verbose : bool) (prefix bucket : string)
         (referenceTimestamp : Time) (s3Client : Client)
         (accepted : Mutation -> bool),
    brokenOff (s3Client bucket None) ->
    (eofInChain = false ->
     (mainWith eofInChain verbose prefix bucket referenceTimestamp s3Client
               accepted).2 = Exit 1)
    /\ (eofInChain = true -> (forall m, accepted m = true) ->
        (mainWith eofInChain verbose prefix bucket referenceTimestamp
                  s3Client accepted).2 = Exit 0)
    /\ mainWith false verbose prefix bucket referenceTimestamp s3Client
                accepted
       = main verbose prefix bucket referenceTimestamp s3Client accepted.
Proof.
  intros eofInChain verbose prefix bucket referenceTimestamp s3Client
         accepted Hbroken.
  unfold mainWith, main.
  destruct (restoreLoopWith_brokenOff
              bucket referenceTimestamp accepted eofInChain
              (enoughFuel (List s3Client bucket None))
              (List s3Client bucket None) eq_refl Hbroken (le_n _))
    as [Hfalse Htrue].
  split; [done|]. split; [done|]. apply restoreLoopWith_false.
Qed.

(** X15 -- over a listing in key order that is read to its last page, and with a
    service that accepts every request, [main] handles every key of the
    listing once, in ascending order of the keys, decides for each from the
    slice of all its records, and leaves with code 0. *)
Theorem main_handles_every_key_once :
  forall (verbose : bool) (prefix bucket : string) (referenceTimestamp : Time)
         (s3Client : Client) (accepted : Mutation -> bool),
    let pages := s3Client bucket None in
    wellTruncated pages -> keyOrdered pages ->
    (forall m, accepted m = true) ->
    exists keys,
      StronglySorted keyLt keys
      /\ (forall k, k ∈ keys <-> k ∈ (entries pages).*1)
      /\ main verbose prefix bucket referenceTimestamp s3Client accepted
         = ((fun k => (k, restoreKey bucket referenceTimestamp k
                            (history (arrivals k (entries pages)))))
              <$> keys,
            Exit 0).
Proof.
  intros verbose prefix bucket referenceTimestamp s3Client accepted pages
         Hwell Hordered Hall.
  destruct (drain_as_histories s3Client bucket None Hwell Hordered)
    as (keys & Hdrain & Hsorted & Hkeys).
  exists keys. split; [done|]. split; [done|].
  unfold main.
  rewrite (restoreLoop_accepting _ _ _ _ _ _ Hall Hdrain).
  unfold histories. by rewrite <- list_fmap_compose.
Qed.

(** X16 -- a request that the service turns down is the last thing [main] does:
    nothing is done for a later key, and the exit code is 1. *)
Theorem main_stops_at_first_refusal :
  forall (verbose : bool) (prefix bucket : string) (referenceTimestamp : Time)
         (s3Client : Client) (accepted : Mutation -> bool)
         (log : list (string * Mutation)) (out : Outcome)
         (i : nat) (k : string) (m : Mutation),
    main verbose prefix bucket referenceTimestamp s3Client accepted
    = (log, out) ->
    log !! i = Some (k, m) -> refused accepted m ->
    S i = length log /\ out = Exit 1.
Proof.
  intros verbose prefix bucket referenceTimestamp s3Client accepted log out
         i k m Hmain.
  by apply (restoreLoop_refused _ _ _ _ _ _ _ _ _ _ Hmain).
Qed.

(** X17 -- whatever the listing holds, every request of [main] is for the bucket
    of the command line and for the key at hand: a delete names no version
    (so it adds a delete marker and removes nothing for good), and a copy
    has a source string of that bucket and that key, and the key itself in
    that bucket as its target. *)
Theorem main_requests_are_aimed :
  forall (verbose : bool) (prefix bucket : string) (referenceTimestamp : Time)
         (s3Client : Client) (accepted : Mutation -> bool)
         (k : string) (m : Mutation),
    (k, m) ∈ (main verbose prefix bucket referenceTimestamp s3Client
                   accepted).1 ->
    aimedAt bucket k m.
Proof.
  intros verbose prefix bucket referenceTimestamp s3Client accepted k m Hin.
  pose proof (restoreLoop_aimed bucket referenceTimestamp accepted
                (enoughFuel (List s3Client bucket None))
                (List s3Client bucket None)) as Haimed.
  rewrite Forall_forall in Haimed. by apply (Haimed (k, m)).
Qed.

(** X18 -- a refusal cuts the run short and changes nothing else: over a listing
    in key order that is read to its last page, what [main] does is, for
    every answer of the service, a beginning of what it does when every
    request is accepted -- one decision for each key, in ascending order of
    the keys. *)
Theorem main_log_is_a_prefix :
  forall (verbose : bool) (prefix bucket : string) (referenceTimestamp : Time)
         (s3Client : Client) (accepted : Mutation -> bool),
    let pages := s3Client bucket None in
    wellTruncated pages -> keyOrdered pages ->
    exists keys,
      StronglySorted keyLt keys
      /\ (forall k, k ∈ keys <-> k ∈ (entries pages).*1)
      /\ (main verbose prefix bucket referenceTimestamp s3Client accepted).1
         `prefix_of`
         (fun k => (k, restoreKey bucket referenceTimestamp k
                         (history (arrivals k (entries pages)))))
           <$> keys.
Proof.
  intros verbose prefix bucket referenceTimestamp s3Client accepted pages
         Hwell Hordered.
  destruct (drain_as_histories s3Client bucket None Hwell Hordered)
    as (keys & Hdrain & Hsorted & Hkeys).
  exists keys. split; [done|]. split; [done|].
  pose proof (restoreLoop_prefix bucket referenceTimestamp accepted
                (enoughFuel (List s3Client bucket None))
                (List s3Client bucket None)) as Hprefix.
  rewrite Hdrain in Hprefix. unfold histories in Hprefix. cbn [fst] in Hprefix.
  by rewrite <- list_fmap_compose in Hprefix.
Qed.

Lemma filter_all {A} (P : A -> Prop) `{!forall x, Decision (P x)}
      (l : list A) :
  Forall P l -> filter P l = l.
Proof.
  induction 1 as [|x l Hx Hl IH]; [done|].
  by rewrite filter_cons_True, IH.
Qed.

(** X19 -- a reference time later than every record of a key changes nothing when
    the newest record of the slice is the current one: the version found
    for the reference time is then the current version itself. *)
Theorem reference_after_all_records_skips :
  forall (bucket key : string) (referenceTimestamp : Time)
         (versions : list ObjectVersion) (r : ObjectVersion),
    Forall (before referenceTimestamp) versions ->
    last versions = Some r -> IsLatest r = true ->
    versionAtTimestamp referenceTimestamp versions = r
    /\ latestVersion versions = r
    /\ restoreKey bucket referenceTimestamp key versions = Skipping.
Proof.
  intros bucket key referenceTimestamp versions r Hall Hlast Hlatest.
  assert (versionAtTimestamp referenceTimestamp versions = r) as Hat.
  { rewrite versionAtTimestamp_last.
    rewrite filter_all by done.
    by rewrite Hlast. }
  assert (latestVersion versions = r) as Hcur.
  { rewrite latestVersion_last.
    apply last_Some in Hlast as [front ->].
    rewrite filter_app, filter_cons_True, filter_nil by done.
    by rewrite last_snoc. }
  split; [done|]. split; [done|].
  rewrite restoreKey_eq. cbn zeta.
  by rewrite Hat, Hcur, String.eqb_refl.
Qed.

(** X20 -- the exit codes of [main]: code 2 is the usage error and nothing else
    (the arguments after the flags are not two), every other run ends with
    code 0 or 1; and a request is sent only after the two arguments were
    there, the timestamp was read and the client was made. *)
Theorem mainArgs_exit_codes :
  forall (parseRFC3339 : string -> option Time) (newClient : option Client)
         (verbose : bool) (prefix : string) (args : list string)
         (accepted : Mutation -> bool),
    let run := mainArgs parseRFC3339 newClient verbose prefix args accepted in
    (run.2 = Exit 2 <-> length args <> 2%nat)
    /\ (run.2 = Exit 0 \/ run.2 = Exit 1 \/ run.2 = Exit 2)
    /\ (run.1 <> [] ->
        exists bucket timestamp referenceTimestamp s3Client,
          args = [bucket; timestamp]
          /\ parseRFC3339 timestamp = Some referenceTimestamp
          /\ newClient = Some s3Client
          /\ run = main verbose prefix bucket referenceTimestamp s3Client
                        accepted).
Proof.
  intros parseRFC3339 newClient verbose prefix args accepted run.
  subst run. unfold mainArgs.
  destruct args as [|bucket [|timestamp [|more args]]]; cbn [length snd fst].
  - split; [split; [lia|done]|]. split; [tauto|done].
  - split; [split; [lia|done]|]. split; [tauto|done].
  - destruct (parseRFC3339 timestamp) as [referenceTimestamp|] eqn:Hparse;
      [destruct newClient as [s3Client|]|].
    + pose proof (restoreLoop_ends bucket referenceTimestamp accepted
                    (enoughFuel (List s3Client bucket None))
                    (List s3Client bucket None) (le_n _)) as Hends.
      fold (main verbose prefix bucket referenceTimestamp s3Client accepted)
        in Hends.
      split; [|split; [tauto|]].
      * split; [|done]. intros Htwo. destruct Hends as [H|H]; congruence.
      * intros _. by exists bucket, timestamp, referenceTimestamp, s3Client.
    + split; [split; [done|lia]|]. split; [tauto|done].
    + split; [split; [done|lia]|]. split; [tauto|done].
  - split; [split; [lia|done]|]. split; [tauto|done].
Qed.

(** *** [Client.Copy] *)

Section CopySource.
Lemma chars_append (s1 s2 : string) :
  String.list_ascii_of_string (s1 +:+ s2)
  = String.list_ascii_of_string s1 ++ String.list_ascii_of_string s2.
Proof.
  induction s1 as [|a s1 IH]; [done|].
  change (String a s1 +:+ s2) with (String a (s1 +:+ s2)).
  cbn [String.list_ascii_of_string app]. by rewrite IH.
Qed.

Lemma chars_inj (s1 s2 : string) :
  String.list_ascii_of_string s1 = String.list_ascii_of_string s2 ->
  s1 = s2.
Proof.
  intros Heq. rewrite <- (String.string_of_list_ascii_of_string s1),
                      <- (String.string_of_list_ascii_of_string s2).
  by rewrite Heq.
Qed.

Lemma split_at_first {A} (a : A) (l1 l2 r1 r2 : list A) :
  ~ In a l1 -> ~ In a l2 -> l1 ++ a :: r1 = l2 ++ a :: r2 ->
  l1 = l2 /\ r1 = r2.
Proof.
  revert l2. induction l1 as [|x l1 IH]; intros [|y l2] H1 H2; cbn.
  - by intros [= ->].
  - intros [= -> _]. destruct H2. by left.
  - intros [= -> _]. destruct H1. by left.
  - intros [= -> Heq].
    destruct (IH l2) as [-> ->]; [| |done|done].
    + intros Hin. apply H1. by right.
    + intros Hin. apply H2. by right.
Qed.

Lemma split_at_last {A} (a : A) (l1 l2 r1 r2 : list A) :
  ~ In a r1 -> ~ In a r2 -> l1 ++ a :: r1 = l2 ++ a :: r2 ->
  l1 = l2 /\ r1 = r2.
Proof.
  intros H1 H2 Heq. apply (f_equal (@rev A)) in Heq.
  rewrite !rev_app_distr in Heq. cbn in Heq.
  rewrite <- !app_assoc in Heq. cbn in Heq.
  apply split_at_first in Heq as [Hr Hl];
    [|by rewrite <- in_rev|by rewrite <- in_rev].
  split.
  - by rewrite <- (rev_involutive l1), Hl, rev_involutive.
  - by rewrite <- (rev_involutive r1), Hr, rev_involutive.
Qed.
End CopySource.

(** X21 -- the source string that [Copy] builds names one version of one key of
    one bucket, as long as bucket names have no slash and version
    identifiers have no question mark: two calls with the same source
    string have the same bucket, the same key and the same version, even
    for keys that hold slashes or question marks themselves. *)
Theorem copySource_names_one_version :
  forall (srcBucket key version srcBucket' key' version' : string),
    lacks slash srcBucket -> lacks slash srcBucket' ->
    lacks questionMark version -> lacks questionMark version' ->
    CopySource (Copy srcBucket srcBucket key version)
    = CopySource (Copy srcBucket' srcBucket' key' version') ->
    srcBucket = srcBucket' /\ key = key' /\ version = version'.
Proof.
  intros b k v b' k' v' Hb Hb' Hv Hv'. cbn [CopySource Copy].
  unfold copySource, lacks in *. intros Heq.
  apply (f_equal String.list_ascii_of_string) in Heq.
  rewrite !chars_append in Heq. cbn [String.list_ascii_of_string app] in Heq.
  apply split_at_first in Heq as [Hbb Heq]; [|done|done].
  apply split_at_last in Heq as [Hkk Hvv].
  - apply chars_inj in Hbb, Hkk.
    apply (app_inv_head
             (String.list_ascii_of_string "versionId=")) in Hvv.
    apply chars_inj in Hvv. done.
  - intros [Hin|Hin]%(in_app_or (String.list_ascii_of_string "versionId="));
      [|done].
    revert Hin. cbn. intros H. repeat (destruct H as [H|H]; [done|]). done.
  - intros [Hin|Hin]%(in_app_or (String.list_ascii_of_string "versionId="));
      [|done].
    revert Hin. cbn. intros H. repeat (destruct H as [H|H]; [done|]). done.
Qed.

(** X22 -- the decision for a key looks at the records from before the reference
    time and at the current record only: records that are neither can be
    left out of the slice without changing what [main] does for the key. *)
Theorem restoreKey_ignores_later_versions :
  forall (bucket key : string) (referenceTimestamp : Time)
         (versions : list ObjectVersion),
    restoreKey bucket referenceTimestamp key
               (filter (fun v => before referenceTimestamp v
                                 \/ IsLatest v = true) versions)
    = restoreKey bucket referenceTimestamp key versions.
Proof.
  intros bucket key referenceTimestamp versions.
  rewrite !restoreKey_eq. cbn zeta.
  rewrite !versionAtTimestamp_last, !latestVersion_last.
  rewrite !list_filter_filter.
  rewrite (filter_ext_in
             (fun v => before referenceTimestamp v
                       /\ (before referenceTimestamp v \/ IsLatest v = true))
             (before referenceTimestamp)) by (intros v _; tauto).
  rewrite (filter_ext_in
             (fun v => IsLatest v = true
                       /\ (before referenceTimestamp v \/ IsLatest v = true))
             (fun v => IsLatest v = true)) by (intros v _; tauto).
  done.
Qed.

(** ** The further properties at concrete maps, listings and runs *)

Lemma one_page_ordered (p : ListObjectVersionsOutput) : keyOrdered [p].
Proof.
  split; [|done]. intros k k' _ Hk'. cbn in Hk'. by apply elem_of_nil in Hk'.
Qed.

Lemma Add_inserts_in_order_witness :
  Add ∅ "k" "v1" OperationTypePut 1 false "a" !! "k" = Some [firstPut].
Proof.
  destruct (Add_inserts_in_order ∅ "k" "v1" OperationTypePut 1 false "a")
    as (sl & Hsl & _ & _ & Hnew & _).
  rewrite Hsl. f_equal. apply Hnew. reflexivity.
Defined.

Lemma Add_commutes_across_keys_witness :
  addEntry (addEntry ∅ ("a", firstPut)) ("b", secondPut)
  = addEntry (addEntry ∅ ("b", secondPut)) ("a", firstPut).
Proof.
  apply (Add_commutes_across_keys ∅ ("a", firstPut) ("b", secondPut)).
  discriminate.
Defined.

Lemma Add_order_is_immaterial_witness :
  fold_left addEntry [("k", firstPut); ("k", secondPut)] ∅
  = fold_left addEntry [("k", secondPut); ("k", firstPut)] ∅.
Proof.
  apply Add_order_is_immaterial.
  - apply Permutation_swap.
  - apply distinctTimes_all. apply (bool_decide_unpack _). by vm_compute.
Defined.

Lemma byTimestamp_is_a_comparison_witness :
  byTimestamp firstPut secondPut < 0.
Proof.
  destruct byTimestamp_is_a_comparison as [_ Hcmp].
  destruct (Hcmp firstPut secondPut) as [Hlt _].
  apply Hlt. cbn. lia.
Defined.

Lemma SortFunc_sorts_witness :
  StrictWeakOrder byTimestamp
  /\ slices.SortFunc byTimestamp [secondPut; firstPut]
     ≡ₚ [secondPut; firstPut]
  /\ sortedBy byTimestamp (slices.SortFunc byTimestamp [secondPut; firstPut]).
Proof.
  split; [exact byTimestamp_swo|].
  exact (SortFunc_sorts ObjectVersion byTimestamp [secondPut; firstPut]
                        byTimestamp_swo).
Defined.

Lemma firstMapKey_is_least_key_witness :
  firstMapKey (<["b" := 1]> (<["a" := 2]> (∅ : gmap string Z))) = Some "a"
  /\ is_Some ((<["b" := 1]> (<["a" := 2]> (∅ : gmap string Z))) !! "a").
Proof.
  assert (firstMapKey (<["b" := 1]> (<["a" := 2]> (∅ : gmap string Z)))
          = Some "a") as Hfirst by (by vm_compute).
  split; [done|].
  destruct (firstMapKey_is_least_key
              Z (<["b" := 1]> (<["a" := 2]> (∅ : gmap string Z))))
    as [_ Hleast].
  by destruct (Hleast "a" Hfirst) as [Hin _].
Defined.

Lemma Next_never_panics_witness :
  fst (Next (List cutShort "b" None)) <> NextPanic.
Proof. exact (Next_never_panics (List cutShort "b" None)). Defined.

Lemma Next_stays_at_EOF_witness :
  let it' := snd (Next (List emptyBucket "b" None)) in
  Next (List emptyBucket "b" None) = (NextEOF, it')
  /\ Next it' = (NextEOF, it').
Proof.
  intros it'.
  assert (Next (List emptyBucket "b" None) = (NextEOF, it')) as HN
      by (by vm_compute).
  split; [done|].
  by destruct (Next_stays_at_EOF (List emptyBucket "b" None) it' HN)
    as [Hagain _].
Defined.

Lemma Next_asks_only_when_needed_witness :
  let it := snd (Next (List emptyBucket "b" None)) in
  loadMore it = false /\ loadPages (c it) it = Some it.
Proof.
  intros it.
  assert (loadMore it = false) as Hmore by (by vm_compute).
  split; [done|].
  by destruct (Next_asks_only_when_needed it (or_introl Hmore)) as [Hidle _].
Defined.

Lemma Next_follows_the_listing_witness :
  let it := List tiedOnTwoPages "b" None in
  fst (Next it) <> NextErr
  /\ bucket (snd (Next it)) = "b" /\ prefix (snd (Next it)) = None.
Proof.
  intros it.
  assert (fst (Next it) <> NextErr) as Hr by (by vm_compute).
  split; [done|].
  destruct (Next_follows_the_listing it (snd (Next it)) (fst (Next it))
              (surjective_pairing _) Hr) as (Hb & Hp & _).
  done.
Defined.

Lemma Next_hands_out_real_records_witness :
  realRecords (pageObjectsWithVersions (List tiedOnOnePage "b" None))
  /\ exists key versions it',
       Next (List tiedOnOnePage "b" None) = (NextOk key versions, it')
       /\ versions <> [] /\ Forall putOrDelete versions.
Proof.
  destruct Next_hands_out_real_records as [Hstart Hkept].
  split; [apply Hstart|].
  exists "k", [putRecord tiedVersion; deleteRecord tiedMarker],
         (snd (Next (List tiedOnOnePage "b" None))).
  assert (Next (List tiedOnOnePage "b" None)
          = (NextOk "k" [putRecord tiedVersion; deleteRecord tiedMarker],
             snd (Next (List tiedOnOnePage "b" None))))
    as HN by (by vm_compute).
  split; [done|].
  destruct (Hkept _ _ _ _ (Hstart tiedOnOnePage "b" None) HN)
    as (Hne & Hops & _).
  done.
Defined.

Lemma iterator_conserves_records_witness :
  wellTruncated (tiedOnTwoPages "b" None)
  /\ exists out,
       drain (enoughFuel (List tiedOnTwoPages "b" None))
             (List tiedOnTwoPages "b" None) = (out, Exhausted)
       /\ handedOut out ≡ₚ (entries (tiedOnTwoPages "b" None)).*2.
Proof.
  assert (wellTruncated (tiedOnTwoPages "b" None)) as Hwell by done.
  split; [done|].
  exact (iterator_conserves_records tiedOnTwoPages "b" None Hwell).
Defined.

Lemma main_always_ends_witness :
  (main false "logs/" "b" 10 twoFolders refuseAll).2 = Exit 0
  \/ (main false "logs/" "b" 10 twoFolders refuseAll).2 = Exit 1.
Proof. exact (main_always_ends false "logs/" "b" 10 twoFolders refuseAll). Defined.

Lemma main_exit_when_listing_breaks_off_witness :
  brokenOff (cutShort "b" None)
  /\ (mainWith false false "x" "b" 10 cutShort acceptAll).2 = Exit 1
  /\ (mainWith true false "x" "b" 10 cutShort acceptAll).2 = Exit 0.
Proof.
  assert (brokenOff (cutShort "b" None)) as Hbroken
      by (by repeat constructor).
  split; [done|].
  destruct (main_exit_when_listing_breaks_off false false "x" "b" 10 cutShort
                                              acceptAll Hbroken)
    as (Hone & _ & _).
  destruct (main_exit_when_listing_breaks_off true false "x" "b" 10 cutShort
                                              acceptAll Hbroken)
    as (_ & Hzero & _).
  split; [by apply Hone|]. apply Hzero; [done|]. by intros m.
Defined.

Lemma main_handles_every_key_once_witness :
  wellTruncated (twoFolders "b" None)
  /\ keyOrdered (twoFolders "b" None)
  /\ (main false "logs/" "b" 10 twoFolders acceptAll).2 = Exit 0.
Proof.
  assert (wellTruncated (twoFolders "b" None)) as Hwell by done.
  assert (keyOrdered (twoFolders "b" None)) as Hordered
      by apply one_page_ordered.
  split; [done|]. split; [done|].
  destruct (main_handles_every_key_once false "logs/" "b" 10 twoFolders
              acceptAll Hwell Hordered (fun _ => eq_refl))
    as (keys & _ & _ & ->).
  done.
Defined.

Lemma main_stops_at_first_refusal_witness :
  main false "x" "b" 10 twoFolders refuseAll
  = ([("data/x", Deleting (Delete "b" "data/x"))], Exit 1)
  /\ refused refuseAll (Deleting (Delete "b" "data/x"))
  /\ 1%nat = length [("data/x", Deleting (Delete "b" "data/x"))].
Proof.
  assert (main false "x" "b" 10 twoFolders refuseAll
          = ([("data/x", Deleting (Delete "b" "data/x"))], Exit 1)) as Hmain
      by (by vm_compute).
  assert (refused refuseAll (Deleting (Delete "b" "data/x"))) as Hrefused
      by (split; [discriminate|reflexivity]).
  split; [done|]. split; [done|].
  by destruct (main_stops_at_first_refusal
                 false "x" "b" 10 twoFolders refuseAll _ _ 0%nat _ _
                 Hmain eq_refl Hrefused) as [Hlast _].
Defined.

Lemma main_requests_are_aimed_witness :
  ("data/x", Deleting (Delete "b" "data/x"))
    ∈ (main false "x" "b" 10 twoFolders refuseAll).1
  /\ aimedAt "b" "data/x" (Deleting (Delete "b" "data/x")).
Proof.
  assert (("data/x", Deleting (Delete "b" "data/x"))
            ∈ (main false "x" "b" 10 twoFolders refuseAll).1) as Hin.
  { replace (main false "x" "b" 10 twoFolders refuseAll).1
      with [("data/x", Deleting (Delete "b" "data/x"))] by (by vm_compute).
    apply list_elem_of_singleton. done. }
  split; [done|].
  exact (main_requests_are_aimed false "x" "b" 10 twoFolders refuseAll
                                 _ _ Hin).
Defined.

Lemma main_log_is_a_prefix_witness :
  wellTruncated (twoFolders "b" None)
  /\ keyOrdered (twoFolders "b" None)
  /\ exists keys,
       StronglySorted keyLt keys
       /\ (main false "x" "b" 10 twoFolders refuseAll).1
          `prefix_of`
          (fun k => (k, restoreKey "b" 10 k
                          (history (arrivals k (entries
                                                  (twoFolders "b" None))))))
            <$> keys.
Proof.
  assert (wellTruncated (twoFolders "b" None)) as Hwell by done.
  assert (keyOrdered (twoFolders "b" None)) as Hordered
      by apply one_page_ordered.
  split; [done|]. split; [done|].
  destruct (main_log_is_a_prefix false "x" "b" 10 twoFolders refuseAll
                                 Hwell Hordered)
    as (keys & Hsorted & _ & Hprefix).
  by exists keys.
Defined.

Lemma reference_after_all_records_skips_witness :
  Forall (before 9) [firstPut; secondPut]
  /\ restoreKey "b" 9 "k" [firstPut; secondPut] = Skipping.
Proof.
  assert (Forall (before 9) [firstPut; secondPut]) as Hall.
  { repeat constructor; unfold before; cbn; lia. }
  split; [done|].
  by destruct (reference_after_all_records_skips
                 "b" "k" 9 [firstPut; secondPut] secondPut
                 Hall eq_refl eq_refl) as (_ & _ & Hskip).
Defined.

Lemma mainArgs_exit_codes_witness :
  (mainArgs (fun _ => Some 10) (Some twoFolders) false "x" ["b"] acceptAll).2
  = Exit 2.
Proof.
  destruct (mainArgs_exit_codes (fun _ => Some 10) (Some twoFolders) false
                                "x" ["b"] acceptAll) as [Husage _].
  apply Husage. cbn. lia.
Defined.

Lemma copySource_names_one_version_witness :
  lacks slash "b" /\ lacks questionMark "v1"
  /\ forall key',
       CopySource (Copy "b" "b" "k" "v1") = CopySource (Copy "b" "b" key' "v1")
       -> "k" = key'.
Proof.
  assert (lacks slash "b") as Hb by (intros [H|[]]; discriminate).
  assert (lacks questionMark "v1") as Hv
      by (intros [H|[H|[]]]; discriminate).
  split; [done|]. split; [done|].
  intros key' Heq.
  by destruct (copySource_names_one_version "b" "k" "v1" "b" key' "v1"
                 Hb Hb Hv Hv Heq) as (_ & Hkey & _).
Defined.

Lemma restoreKey_ignores_later_versions_witness :
  restoreKey "b" 3 "k"
             (filter (fun v => before 3 v \/ IsLatest v = true)
                     [firstPut; samePut; secondPut])
  = restoreKey "b" 3 "k" [firstPut; samePut; secondPut].
Proof.
  exact (restoreKey_ignores_later_versions
           "b" "k" 3 [firstPut; samePut; secondPut]).
Defined.

